(** * Multi-key quicksort over sort tuples (mk_qsort_tuple.c)

    A shallow embedding of [src/backend/utils/sort/mk_qsort_tuple.c] and the
    properties of its comparators, its three-way partition and its recursive
    driver.

    Conventions of the embedding:
    - C [int] and [size_t] values (indices, counts, depths, comparator
      results) are mathematical integers in [Z].  The tuple count of an
      in-memory sort is an [int] in the caller, so every index computed below
      stays within [-1, n] and no machine arithmetic wraps.
    - [SortTuple *x] together with a count [n] is a slice: a list of exactly
      the tuples [x[0] .. x[n-1]].  A recursive call on [x + off] with count
      [len] runs on the sub-slice and its result is written back in place.
    - [Assert] is compiled out (a release build); [USE_ASSERT_CHECKING] is
      off, so [mkqs_verify] is only modelled as a predicate.
    - [CHECK_FOR_INTERRUPTS()] and the duplicate handler can unwind the sort;
      the array as it stands at that moment is kept in the outcome. *)

From Stdlib Require Import ZArith List Bool Lia Permutation Sorted.
Import ListNotations.
Open Scope Z_scope.

(** ** Data model *)

Definition Datum := Z.

(** [SortTuple]: the payload handle [tuple] (a [void *] in C), the stored
    leading key [datum1] and its null flag [isnull1]. *)
Record SortTuple : Type := mkSortTuple {
  tuple : Z;
  datum1 : Datum;
  isnull1 : bool
}.

(** [SortSupportData]: the per-key comparison metadata.  The C field
    [abbrev_converter] is a function pointer that the sort only tests against
    NULL; here it is that test. *)
Record SortSupportData : Type := mkSortSupport {
  ssup_reverse : bool;
  ssup_nulls_first : bool;
  abbrev_converter : bool
}.

Inductive MkqsCompFuncType : Type :=
| MKQS_COMP_FUNC_GENERIC
| MKQS_COMP_FUNC_UNSIGNED
| MKQS_COMP_FUNC_SIGNED
| MKQS_COMP_FUNC_INT32.

Definition is_generic (k : MkqsCompFuncType) : bool :=
  match k with MKQS_COMP_FUNC_GENERIC => true | _ => false end.

(** The fields of [state->base] that the sort reads.  [mkqsGetDatumFunc]
    yields [(datum, isNull)] of one tuple at one depth; the C callback fills
    the out-parameters of two tuples at once, each from its own tuple only.
    [mkqsHandleDupFunc], when set, receives the slice [x + dist .. ) of
    [tupleCount] tuples and the [seenNull] flag; it yields the contents it
    leaves in that slice and whether it raised an error. *)
Record Tuplesortstate : Type := mkState {
  nKeys : Z;
  sortKeys : list SortSupportData;
  mkqsCompFuncType : MkqsCompFuncType;
  mkqsGetDatumFunc : SortTuple -> Z -> Datum * bool;
  mkqsHandleDupFunc : option (list SortTuple -> Z -> bool -> list SortTuple * bool)
}.

Definition has_handler (state : Tuplesortstate) : bool :=
  match mkqsHandleDupFunc state with Some _ => true | None => false end.

(** The collaborators declared outside this file: the comparator primitives
    of sortsupport.h, the three full-tuple comparators of tuplesort.c used by
    [mkqs_compare_tuple], and the pending-interrupt flag read by
    [CHECK_FOR_INTERRUPTS()] ([InterruptPending k] tells whether the [k]-th
    check of a run finds an interrupt to service). *)
Class Collaborators : Type := {
  ApplySortComparator : Datum -> bool -> Datum -> bool -> SortSupportData -> Z;
  ApplyUnsignedSortComparator : Datum -> bool -> Datum -> bool -> SortSupportData -> Z;
  ApplySignedSortComparator : Datum -> bool -> Datum -> bool -> SortSupportData -> Z;
  ApplyInt32SortComparator : Datum -> bool -> Datum -> bool -> SortSupportData -> Z;
  ApplySortAbbrevFullComparator : Datum -> bool -> Datum -> bool -> SortSupportData -> Z;
  qsort_tuple_unsigned_compare : SortTuple -> SortTuple -> Tuplesortstate -> Z;
  qsort_tuple_signed_compare : SortTuple -> SortTuple -> Tuplesortstate -> Z;
  qsort_tuple_int32_compare : SortTuple -> SortTuple -> Tuplesortstate -> Z;
  InterruptPending : nat -> bool
}.

(** ** Arrays of tuples *)

Definition dummy_tuple : SortTuple := mkSortTuple 0 0 false.
Definition dummy_key : SortSupportData := mkSortSupport false false false.

(** [sel x i] is [x[i]]; reading outside the slice is undefined in C and
    yields [dummy_tuple] here. *)
Definition sel (x : list SortTuple) (i : Z) : SortTuple :=
  if i <? 0 then dummy_tuple else nth (Z.to_nat i) x dummy_tuple.

Fixpoint upd_nat (x : list SortTuple) (i : nat) (v : SortTuple) : list SortTuple :=
  match x, i with
  | [], _ => []
  | _ :: t, O => v :: t
  | h :: t, S i' => h :: upd_nat t i' v
  end.

(** [upd x i v] is the array after [x[i] = v]; a store outside the slice is
    undefined in C and leaves the slice as it is here. *)
Definition upd (x : list SortTuple) (i : Z) (v : SortTuple) : list SortTuple :=
  if i <? 0 then x else upd_nat x (Z.to_nat i) v.

(** [slice off len x] is the [len] tuples of [x] from offset [off]:
    the view [(x + off, len)]. *)
Definition slice (off len : Z) (x : list SortTuple) : list SortTuple :=
  firstn (Z.to_nat len) (skipn (Z.to_nat off) x).

(** [splice off len y x] writes [y] back over [slice off len x]. *)
Definition splice (off len : Z) (y x : list SortTuple) : list SortTuple :=
  firstn (Z.to_nat off) x ++ y ++ skipn (Z.to_nat off + Z.to_nat len) x.

(** mkqs_swap (lines 24-36). *)
Definition mkqs_swap (a b : Z) (x : list SortTuple) : list SortTuple :=
  if a =? b then x
  else
    let t := sel x a in
    let x1 := upd x a (sel x b) in
    upd x1 b t.

(** mkqs_vec_swap (lines 39-51): [iters] is the number of times the test
    [size-- > 0] succeeds. *)
Fixpoint mkqs_vec_swap_loop (iters : nat) (a b : Z) (x : list SortTuple)
  : list SortTuple :=
  match iters with
  | O => x
  | S k => mkqs_vec_swap_loop k (a + 1) (b + 1) (mkqs_swap a b x)
  end.

Definition mkqs_vec_swap (a b size : Z) (x : list SortTuple) : list SortTuple :=
  mkqs_vec_swap_loop (Z.to_nat size) a b x.

(** ** Run-time state of a sort and its effects *)

(** One invocation of [mkqsHandleDupFunc]: the slice it was given, the
    count and the [seenNull] argument, and (for the record only, the handler
    is not told) the depth at which the driver made the call. *)
Record DupCall : Type := mkDupCall {
  dup_slice : list SortTuple;
  dup_count : Z;
  dup_seenNull : bool;
  dup_depth : Z
}.

(** [mem]: the slice being sorted; [clock]: how many interrupt checks have
    run; [trace]: the handler invocations so far, oldest first. *)
Record world : Type := mkWorld {
  mem : list SortTuple;
  clock : nat;
  trace : list DupCall
}.

(** A computation ends normally ([Done]), unwinds through an interrupt or a
    handler error ([Abort]), or exhausts the recursion budget of the model
    ([Diverge]). *)
Inductive result (A : Type) : Type :=
| Done (a : A) (w : world)
| Abort (w : world)
| Diverge.
Arguments Done {A} a w.
Arguments Abort {A} w.
Arguments Diverge {A}.

Definition M (A : Type) : Type := world -> result A.

Definition ret {A} (a : A) : M A := fun w => Done a w.

Definition bind {A B} (m : M A) (k : A -> M B) : M B :=
  fun w =>
    match m w with
    | Done a w' => k a w'
    | Abort w' => Abort w'
    | Diverge => Diverge
    end.

Notation "x <- m ;; k" := (bind m (fun x => k))
  (at level 61, m at next level, right associativity).
Notation "m ;;; k" := (bind m (fun _ => k))
  (at level 61, right associativity).

Definition diverge {A} : M A := fun _ => Diverge.

Definition get_mem : M (list SortTuple) := fun w => Done (mem w) w.

Definition put_mem (x : list SortTuple) : M unit :=
  fun w => Done tt (mkWorld x (clock w) (trace w)).

Definition modify_mem (f : list SortTuple -> list SortTuple) : M unit :=
  fun w => Done tt (mkWorld (f (mem w)) (clock w) (trace w)).

(** Run [m] on the sub-slice [(x + off, len)] and write its array back. *)
Definition at_slice {A} (off len : Z) (m : M A) : M A :=
  fun w =>
    let back w' :=
      mkWorld (splice off len (mem w') (mem w)) (clock w') (trace w') in
    match m (mkWorld (slice off len (mem w)) (clock w) (trace w)) with
    | Done a w' => Done a (back w')
    | Abort w' => Abort (back w')
    | Diverge => Diverge
    end.

(** Call the duplicate handler on [(x + off, len)], from [depth]. *)
Definition call_handler
    (h : list SortTuple -> Z -> bool -> list SortTuple * bool)
    (off len : Z) (seenNull : bool) (depth : Z) : M unit :=
  fun w =>
    let arg := slice off len (mem w) in
    let '(out, raised) := h arg len seenNull in
    let w' := mkWorld (splice off len out (mem w)) (clock w)
                      (trace w ++ [mkDupCall arg len seenNull depth]) in
    if raised then Abort w' else Done tt w'.

Section Mkqs.

Context {ops : Collaborators}.

Definition CHECK_FOR_INTERRUPTS : M unit :=
  fun w =>
    let w' := mkWorld (mem w) (S (clock w)) (trace w) in
    if InterruptPending (clock w) then Abort w' else Done tt w'.

(** ** Comparators *)

(** [state->base.sortKeys + depth] *)
Definition sortKey_at (state : Tuplesortstate) (depth : Z) : SortSupportData :=
  if depth <? 0 then dummy_key
  else nth (Z.to_nat depth) (sortKeys state) dummy_key.

(** check_datum_null (lines 58-75). *)
Definition check_datum_null (x : SortTuple) (depth : Z) (state : Tuplesortstate)
  : bool :=
  if depth =? 0 then isnull1 x
  else snd (mkqsGetDatumFunc state x depth).

(** mkqs_compare_datum_tiebreak (lines 94-143). *)
Definition mkqs_compare_datum_tiebreak
    (tuple1 tuple2 : SortTuple) (depth : Z) (state : Tuplesortstate) : Z :=
  let sortKey := sortKey_at state depth in
  let '(d1, isNull1) := mkqsGetDatumFunc state tuple1 depth in
  let '(d2, isNull2) := mkqsGetDatumFunc state tuple2 depth in
  if abbrev_converter sortKey && (depth =? 0)
  then ApplySortAbbrevFullComparator d1 isNull1 d2 isNull2 sortKey
  else ApplySortComparator d1 isNull1 d2 isNull2 sortKey.

(** mkqs_compare_datum_by_shortcut (lines 151-191), with
    [SIZEOF_DATUM >= 8]. *)
Definition mkqs_compare_datum_by_shortcut
    (tuple1 tuple2 : SortTuple) (state : Tuplesortstate) : Z :=
  let sortKey := sortKey_at state 0 in
  match mkqsCompFuncType state with
  | MKQS_COMP_FUNC_UNSIGNED =>
      ApplyUnsignedSortComparator (datum1 tuple1) (isnull1 tuple1)
                                  (datum1 tuple2) (isnull1 tuple2) sortKey
  | MKQS_COMP_FUNC_SIGNED =>
      ApplySignedSortComparator (datum1 tuple1) (isnull1 tuple1)
                                (datum1 tuple2) (isnull1 tuple2) sortKey
  | MKQS_COMP_FUNC_INT32 =>
      ApplyInt32SortComparator (datum1 tuple1) (isnull1 tuple1)
                               (datum1 tuple2) (isnull1 tuple2) sortKey
  | MKQS_COMP_FUNC_GENERIC =>
      ApplySortComparator (datum1 tuple1) (isnull1 tuple1)
                          (datum1 tuple2) (isnull1 tuple2) sortKey
  end.

(** mkqs_compare_datum (lines 205-234). *)
Definition mkqs_compare_datum
    (tuple1 tuple2 : SortTuple) (depth : Z) (state : Tuplesortstate) : Z :=
  if depth =? 0 then
    let ret := mkqs_compare_datum_by_shortcut tuple1 tuple2 state in
    if negb (ret =? 0) then ret
    else if negb (abbrev_converter (sortKey_at state 0)) then ret
    else mkqs_compare_datum_tiebreak tuple1 tuple2 depth state
  else mkqs_compare_datum_tiebreak tuple1 tuple2 depth state.

(** get_median_from_three (lines 237-250). *)
Definition get_median_from_three
    (a b c : Z) (x : list SortTuple) (depth : Z) (state : Tuplesortstate) : Z :=
  if mkqs_compare_datum (sel x a) (sel x b) depth state <? 0 then
    (if mkqs_compare_datum (sel x b) (sel x c) depth state <? 0 then b
     else if mkqs_compare_datum (sel x a) (sel x c) depth state <? 0 then c
     else a)
  else
    (if mkqs_compare_datum (sel x b) (sel x c) depth state >? 0 then b
     else if mkqs_compare_datum (sel x a) (sel x c) depth state <? 0 then a
     else c).

(** The [while (depth < state->base.nKeys)] loop of
    mkqs_compare_tuple_by_range_tiebreak (lines 308-330); [iters] bounds the
    number of iterations. *)
Fixpoint range_tiebreak_loop
    (iters : nat) (tuple1 tuple2 : SortTuple) (depth : Z)
    (state : Tuplesortstate) : Z :=
  match iters with
  | O => 0
  | S k =>
      if depth <? nKeys state then
        let sortKey := sortKey_at state depth in
        let '(d1, isNull1) := mkqsGetDatumFunc state tuple1 depth in
        let '(d2, isNull2) := mkqsGetDatumFunc state tuple2 depth in
        let ret := ApplySortComparator d1 isNull1 d2 isNull2 sortKey in
        if negb (ret =? 0) then ret
        else range_tiebreak_loop k tuple1 tuple2 (depth + 1) state
      else 0
  end.

(** mkqs_compare_tuple_by_range_tiebreak (lines 255-334). *)
Definition mkqs_compare_tuple_by_range_tiebreak
    (tuple1 tuple2 : SortTuple) (depth : Z) (state : Tuplesortstate) : Z :=
  let loop d := range_tiebreak_loop (Z.to_nat (nKeys state - d)) tuple1 tuple2 d state in
  if depth =? 0 then
    let sortKey := sortKey_at state depth in
    if abbrev_converter sortKey then
      let '(d1, isNull1) := mkqsGetDatumFunc state tuple1 depth in
      let '(d2, isNull2) := mkqsGetDatumFunc state tuple2 depth in
      let ret := ApplySortAbbrevFullComparator d1 isNull1 d2 isNull2 sortKey in
      if negb (ret =? 0) then ret
      else loop (depth + 1)
    else loop (depth + 1)
  else loop depth.

(** mkqs_compare_tuple_by_range (lines 346-373). *)
Definition mkqs_compare_tuple_by_range
    (tuple1 tuple2 : SortTuple) (depth : Z) (state : Tuplesortstate) : Z :=
  if depth =? 0 then
    let ret := mkqs_compare_datum_by_shortcut tuple1 tuple2 state in
    if negb (ret =? 0) then ret
    else mkqs_compare_tuple_by_range_tiebreak tuple1 tuple2 depth state
  else mkqs_compare_tuple_by_range_tiebreak tuple1 tuple2 depth state.

(** mkqs_compare_tuple (lines 378-402); with assertions compiled out the
    GENERIC kind falls through with [ret = 0]. *)
Definition mkqs_compare_tuple (a b : SortTuple) (state : Tuplesortstate) : Z :=
  match mkqsCompFuncType state with
  | MKQS_COMP_FUNC_UNSIGNED => qsort_tuple_unsigned_compare a b state
  | MKQS_COMP_FUNC_SIGNED => qsort_tuple_signed_compare a b state
  | MKQS_COMP_FUNC_INT32 => qsort_tuple_int32_compare a b state
  | MKQS_COMP_FUNC_GENERIC => 0
  end.

(** mkqs_verify (lines 408-424): the property its assertions check. *)
Definition mkqs_verify (x : list SortTuple) (n depth : Z) (state : Tuplesortstate)
  : Prop :=
  forall i, 0 <= i < n - 1 ->
    mkqs_compare_datum (sel x i) (sel x (i + 1)) depth state <= 0.

(** ** The driver and its loops *)

(** The classic pre-ordered check (lines 485-495): [iters] iterations remain,
    starting at index [i]; yields [preOrdered]. *)
Fixpoint preordered_loop (iters : nat) (i : Z) (state : Tuplesortstate) : M bool :=
  match iters with
  | O => ret true
  | S k =>
      CHECK_FOR_INTERRUPTS ;;;
      x <- get_mem ;;
      if mkqs_compare_tuple (sel x i) (sel x (i + 1)) state >? 0 then ret false
      else preordered_loop k (i + 1) state
  end.

(** The strict pre-ordered check (lines 517-529); yields [strictOrdered]. *)
Fixpoint strict_ordered_loop (iters : nat) (i depth : Z) (state : Tuplesortstate)
  : M bool :=
  match iters with
  | O => ret true
  | S k =>
      CHECK_FOR_INTERRUPTS ;;;
      x <- get_mem ;;
      if mkqs_compare_datum (sel x i) (sel x (i + 1)) depth state >=? 0 then ret false
      else strict_ordered_loop k (i + 1) depth state
  end.

(** The pre-ordered check (lines 471-533): yields [true] when the call
    returns from it. *)
Definition pre_ordered_check (n depth : Z) (state : Tuplesortstate) : M bool :=
  if negb (is_generic (mkqsCompFuncType state)) then
    if depth =? 0 then preordered_loop (Z.to_nat (n - 1)) 0 state
    else ret false
  else strict_ordered_loop (Z.to_nat (n - 1)) 0 depth state.

(** The inner loop of the small-N sort (lines 552-558), entered with
    [l = m]; [iters] bounds the number of iterations ([l > 0]). *)
Fixpoint insert_down (iters : nat) (l depth : Z) (state : Tuplesortstate)
    (x : list SortTuple) : list SortTuple :=
  match iters with
  | O => x
  | S k =>
      if l >? 0 then
        if mkqs_compare_tuple_by_range (sel x (l - 1)) (sel x l) depth state <=? 0
        then x
        else insert_down k (l - 1) depth state (mkqs_swap l (l - 1) x)
      else x
  end.

(** The outer loop of the small-N sort (lines 551-558): [iters] values of
    [m] remain. *)
Fixpoint insertion_loop (iters : nat) (m depth : Z) (state : Tuplesortstate)
    (x : list SortTuple) : list SortTuple :=
  match iters with
  | O => x
  | S k => insertion_loop k (m + 1) depth state (insert_down (Z.to_nat m) m depth state x)
  end.

Definition small_sort (n depth : Z) (state : Tuplesortstate) (x : list SortTuple)
  : list SortTuple :=
  insertion_loop (Z.to_nat n) 0 depth state x.

(** Pivot selection (lines 562-579): the index swapped to the front. *)
Definition select_pivot (n depth : Z) (state : Tuplesortstate) (x : list SortTuple)
  : Z :=
  if n >? 7 then
    let m := n / 2 in
    let l := 0 in
    let r := n - 1 in
    if n >? 40 then
      let d := n / 8 in
      let l := get_median_from_three l (l + d) (l + 2 * d) x depth state in
      let m := get_median_from_three (m - d) m (m + d) x depth state in
      let r := get_median_from_three (r - 2 * d) (r - d) r x depth state in
      get_median_from_three l m r x depth state
    else get_median_from_three l m r x depth state
  else n / 2.

(** The four cursors of the partition. *)
Record Cursors : Type := mkCursors {
  lessStart : Z;
  lessEnd : Z;
  greaterStart : Z;
  greaterEnd : Z
}.

(** The left scan (lines 595-613); the pivot is [x[0]]. *)
Fixpoint scan_left (iters : nat) (depth : Z) (state : Tuplesortstate)
    (x : list SortTuple) (c : Cursors) : list SortTuple * Cursors :=
  match iters with
  | O => (x, c)
  | S k =>
      if lessEnd c <=? greaterStart c then
        let dist := mkqs_compare_datum (sel x (lessEnd c)) (sel x 0) depth state in
        if dist >? 0 then (x, c)
        else if dist =? 0 then
          scan_left k depth state
            (mkqs_swap (lessEnd c) (lessStart c) x)
            (mkCursors (lessStart c + 1) (lessEnd c + 1) (greaterStart c) (greaterEnd c))
        else
          scan_left k depth state x
            (mkCursors (lessStart c) (lessEnd c + 1) (greaterStart c) (greaterEnd c))
      else (x, c)
  end.

(** The right scan (lines 616-634). *)
Fixpoint scan_right (iters : nat) (depth : Z) (state : Tuplesortstate)
    (x : list SortTuple) (c : Cursors) : list SortTuple * Cursors :=
  match iters with
  | O => (x, c)
  | S k =>
      if lessEnd c <=? greaterStart c then
        let dist := mkqs_compare_datum (sel x (greaterStart c)) (sel x 0) depth state in
        if dist <? 0 then (x, c)
        else if dist =? 0 then
          scan_right k depth state
            (mkqs_swap (greaterStart c) (greaterEnd c) x)
            (mkCursors (lessStart c) (lessEnd c) (greaterStart c - 1) (greaterEnd c - 1))
        else
          scan_right k depth state x
            (mkCursors (lessStart c) (lessEnd c) (greaterStart c - 1) (greaterEnd c))
      else (x, c)
  end.

(** How many tuples lie between the two inner cursors: a bound on the
    iterations of either scan and of the enclosing loop. *)
Definition window (c : Cursors) : nat :=
  Z.to_nat (greaterStart c - lessEnd c + 1).

(** The [while (true)] loop of the partition (lines 590-641). *)
Fixpoint partition_loop (iters : nat) (depth : Z) (state : Tuplesortstate)
    (c : Cursors) : M Cursors :=
  match iters with
  | O => diverge
  | S k =>
      CHECK_FOR_INTERRUPTS ;;;
      x <- get_mem ;;
      let '(x1, c1) := scan_left (window c) depth state x c in
      let '(x2, c2) := scan_right (window c1) depth state x1 c1 in
      put_mem x2 ;;;
      if lessEnd c2 >? greaterStart c2 then ret c2
      else
        modify_mem (mkqs_swap (lessEnd c2) (greaterStart c2)) ;;;
        partition_loop k depth state
          (mkCursors (lessStart c2) (lessEnd c2 + 1) (greaterStart c2 - 1) (greaterEnd c2))
  end.

(** The two folding block swaps (lines 648-654). *)
Definition fold_equals (n : Z) (c : Cursors) (x : list SortTuple) : list SortTuple :=
  let dist := Z.min (lessStart c) (lessEnd c - lessStart c) in
  let x := mkqs_vec_swap 0 (lessEnd c - dist) dist x in
  let dist := Z.min (greaterEnd c - greaterStart c) (n - greaterEnd c - 1) in
  mkqs_vec_swap (lessEnd c) (n - dist) dist x.

(** Pivot selection, partition and folding (lines 562-654): yields the
    final cursors. *)
Definition partition (n depth : Z) (state : Tuplesortstate) : M Cursors :=
  x <- get_mem ;;
  let pivotIdx := select_pivot n depth state x in
  modify_mem (mkqs_swap 0 pivotIdx) ;;;
  c <- partition_loop (S (Z.to_nat n)) depth state
         (mkCursors 1 1 (n - 1) (n - 1)) ;;
  modify_mem (fold_equals n c) ;;;
  ret c.

(** The sizes of the three parts (lines 664, 681, 717). *)
Definition less_size (c : Cursors) : Z := lessEnd c - lessStart c.
Definition equal_size (n : Z) (c : Cursors) : Z := lessStart c + n - greaterEnd c - 1.
Definition greater_size (c : Cursors) : Z := greaterEnd c - greaterStart c.

(** mk_qsort_tuple (lines 432-730).  [fuel] bounds the depth of the
    recursion. *)
Fixpoint mk_qsort_tuple (fuel : nat) (n depth : Z) (state : Tuplesortstate)
    (seenNull : bool) : M unit :=
  match fuel with
  | O => diverge
  | S fuel' =>
      if n <=? 1 then ret tt
      else if depth =? nKeys state then ret tt
      else
        CHECK_FOR_INTERRUPTS ;;;
        ordered <- pre_ordered_check n depth state ;;
        if ordered then ret tt
        else if (n <? 16) && negb (has_handler state)
        then modify_mem (small_sort n depth state)
        else
          c <- partition n depth state ;;
          let dist := less_size c in
          at_slice 0 dist (mk_qsort_tuple fuel' dist depth state seenNull) ;;;
          x <- get_mem ;;
          let isDatumNull := check_datum_null (sel x dist) depth state in
          let tupCount := equal_size n c in
          (if depth <? nKeys state - 1 then
             at_slice dist tupCount
               (mk_qsort_tuple fuel' tupCount (depth + 1) state
                               (seenNull || isDatumNull))
           else
             match mkqsHandleDupFunc state with
             | Some handler =>
                 if tupCount >? 1
                 then call_handler handler dist tupCount (seenNull || isDatumNull) depth
                 else ret tt
             | None => ret tt
             end) ;;;
          let dist := greater_size c in
          at_slice (n - dist) dist (mk_qsort_tuple fuel' dist depth state seenNull)
  end.

(** A recursion budget that is always enough for a slice of [n] tuples at
    [depth]. *)
Definition enough_fuel (n depth : Z) (state : Tuplesortstate) : nat :=
  S (Z.to_nat n + Z.to_nat (nKeys state - depth)).

(** The entry point as tuplesort.c calls it:
    [mk_qsort_tuple(memtuples, memtupcount, 0, state, false)]. *)
Definition sort_memtuples (state : Tuplesortstate) (x : list SortTuple)
  : result unit :=
  let n := Z.of_nat (length x) in
  mk_qsort_tuple (enough_fuel n 0 state) n 0 state false (mkWorld x O []).

End Mkqs.

(** ** A concrete collaborator *)

Definition cmp3 (a b : Z) : Z :=
  if a <? b then -1 else if a >? b then 1 else 0.

(** Modelled from the spec: the comparator primitives of sortsupport.h, which
    are not part of the source at hand.  Each is a "direct numeric comparator
    honoring direction and null-placement": NULLs compare equal to each
    other and before or after every non-NULL value as [ssup_nulls_first]
    says, and [ssup_reverse] inverts the order of non-NULL values.  [view]
    reads the machine word as the key type does. *)
Definition apply_comparator (view : Z -> Z)
    (d1 : Datum) (n1 : bool) (d2 : Datum) (n2 : bool) (key : SortSupportData) : Z :=
  if n1 then
    (if n2 then 0 else if ssup_nulls_first key then -1 else 1)
  else if n2 then
    (if ssup_nulls_first key then 1 else -1)
  else
    let c := cmp3 (view d1) (view d2) in
    if ssup_reverse key then - c else c.

Definition view_unsigned (d : Z) : Z := d mod 2 ^ 64.
Definition view_signed (d : Z) : Z := (d + 2 ^ 63) mod 2 ^ 64 - 2 ^ 63.
Definition view_int32 (d : Z) : Z := (d + 2 ^ 31) mod 2 ^ 32 - 2 ^ 31.

(** The remaining keys of a full-tuple comparison, from [depth] on. *)
Fixpoint full_tiebreak_loop (iters : nat) (a b : SortTuple) (depth : Z)
    (state : Tuplesortstate) : Z :=
  match iters with
  | O => 0
  | S k =>
      let '(d1, n1) := mkqsGetDatumFunc state a depth in
      let '(d2, n2) := mkqsGetDatumFunc state b depth in
      let c := apply_comparator view_signed d1 n1 d2 n2
                 (nth (Z.to_nat depth) (sortKeys state) dummy_key) in
      if negb (c =? 0) then c
      else full_tiebreak_loop k a b (depth + 1) state
  end.

(** Modelled from the spec: the "full-tuple" specialized comparators of
    tuplesort.c, which are not part of the source at hand: the leading keys
    by the specialized comparator, then the true leading key when it is
    abbreviated, then the other keys in order. *)
Definition full_tuple_compare (view : Z -> Z) (a b : SortTuple)
    (state : Tuplesortstate) : Z :=
  let key0 := nth 0%nat (sortKeys state) dummy_key in
  let c := apply_comparator view (datum1 a) (isnull1 a) (datum1 b) (isnull1 b) key0 in
  if negb (c =? 0) then c
  else
    let rest := full_tiebreak_loop (Z.to_nat (nKeys state - 1)) a b 1 state in
    if abbrev_converter key0 then
      let '(d1, n1) := mkqsGetDatumFunc state a 0 in
      let '(d2, n2) := mkqsGetDatumFunc state b 0 in
      let f := apply_comparator view_signed d1 n1 d2 n2 key0 in
      if negb (f =? 0) then f else rest
    else rest.

(** The collaborators with a given interrupt schedule. *)
Definition pg_ops (pending : nat -> bool) : Collaborators := {|
  ApplySortComparator := apply_comparator view_signed;
  ApplyUnsignedSortComparator := apply_comparator view_unsigned;
  ApplySignedSortComparator := apply_comparator view_signed;
  ApplyInt32SortComparator := apply_comparator view_int32;
  ApplySortAbbrevFullComparator := apply_comparator view_signed;
  qsort_tuple_unsigned_compare := full_tuple_compare view_unsigned;
  qsort_tuple_signed_compare := full_tuple_compare view_signed;
  qsort_tuple_int32_compare := full_tuple_compare view_int32;
  InterruptPending := pending
|}.

Definition never : nat -> bool := fun _ => false.

(** Rows of a table: one [(datum, isNull)] per sort key.  The payload handle
    of a tuple is the number of its row. *)
Definition Row := list (Datum * bool).

Definition heap_get_datum (heap : list Row) (t : SortTuple) (depth : Z)
  : Datum * bool :=
  nth (Z.to_nat depth) (nth (Z.to_nat (tuple t)) heap []) (0, true).

Fixpoint load_rows (heap : list Row) (id : Z) : list SortTuple :=
  match heap with
  | [] => []
  | r :: rest =>
      let '(d, nl) := nth 0%nat r (0, true) in
      mkSortTuple id d nl :: load_rows rest (id + 1)
  end.

Definition memtuples (heap : list Row) : list SortTuple := load_rows heap 0.

Definition asc_nulls_last : SortSupportData := mkSortSupport false false false.

Definition heap_state (heap : list Row) (keys : list SortSupportData)
    (kind : MkqsCompFuncType)
    (h : option (list SortTuple -> Z -> bool -> list SortTuple * bool))
  : Tuplesortstate :=
  mkState (Z.of_nat (length keys)) keys kind (heap_get_datum heap) h.

(** What a run leaves behind: the array and the handler invocations, when
    the run ended normally. *)
Definition outcome (r : result unit) : option (list SortTuple * list DupCall) :=
  match r with
  | Done _ w => Some (mem w, trace w)
  | _ => None
  end.

Definition keys_of (heap : list Row) (x : list SortTuple) : list Row :=
  map (fun t => nth (Z.to_nat (tuple t)) heap []) x.

(** ** Notions the properties are stated with *)

Section Notions.

Context {ops : Collaborators}.

(** The first non-zero result of a list of comparisons, 0 when there is
    none. *)
Fixpoint first_nonzero (l : list Z) : Z :=
  match l with
  | [] => 0
  | c :: rest => if c =? 0 then first_nonzero rest else c
  end.

(** The depths [d, d+1, ..., n-1]. *)
Definition depths_from (d n : Z) : list Z :=
  map (fun k => d + Z.of_nat k) (seq 0 (Z.to_nat (n - d))).

(** The lexicographic composition of the per-depth comparator over the keys
    from [depth] on: the order the sort is specified against. *)
Definition lexicographic_compare
    (t1 t2 : SortTuple) (depth : Z) (state : Tuplesortstate) : Z :=
  first_nonzero
    (map (fun d => mkqs_compare_datum t1 t2 d state)
         (depths_from depth (nKeys state))).

(** The comparator of one key is a total preorder: reversing the arguments
    reverses the sign, and "not greater" is transitive. *)
Definition consistent_at (state : Tuplesortstate) (d : Z) : Prop :=
  (forall a b, mkqs_compare_datum a b d state < 0 <->
               0 < mkqs_compare_datum b a d state) /\
  (forall a b c, mkqs_compare_datum a b d state <= 0 ->
                 mkqs_compare_datum b c d state <= 0 ->
                 mkqs_compare_datum a c d state <= 0).

Definition consistent (state : Tuplesortstate) : Prop :=
  forall d, 0 <= d < nKeys state -> consistent_at state d.

(** The full-tuple comparator of the classic pre-ordered check orders two
    tuples as the keys do. *)
Definition full_compare_agrees (state : Tuplesortstate) : Prop :=
  forall a b, mkqs_compare_tuple a b state > 0 <->
              mkqs_compare_tuple_by_range a b 0 state > 0.

(** The duplicate handler only rearranges the slice it is given. *)
Definition handler_permutes (state : Tuplesortstate) : Prop :=
  forall h l n b, mkqsHandleDupFunc state = Some h ->
                  Permutation l (fst (h l n b)).

(** A state the sort can be called with: at least two keys, one
    [SortSupportData] per key, consistent comparators and a handler that
    keeps the tuples. *)
Record valid_state (state : Tuplesortstate) : Prop := {
  valid_nKeys : 2 <= nKeys state;
  valid_consistent : consistent state;
  valid_full_compare : is_generic (mkqsCompFuncType state) = false ->
                       full_compare_agrees state;
  valid_handler : handler_permutes state
}.

(** The array is in non-decreasing order by the keys from [depth] on. *)
Definition ordered_from (depth : Z) (state : Tuplesortstate) (x : list SortTuple)
  : Prop :=
  forall i, 0 <= i < Z.of_nat (length x) - 1 ->
    mkqs_compare_tuple_by_range (sel x i) (sel x (i + 1)) depth state <= 0.

(** [sat m w Q E]: from [w], [m] ends normally in a state that satisfies [Q]
    or unwinds in a state that satisfies [E]; it does not run out of
    budget. *)
Definition sat {A} (m : M A) (w : world) (Q : A -> world -> Prop)
    (E : world -> Prop) : Prop :=
  match m w with
  | Done a w' => Q a w'
  | Abort w' => E w'
  | Diverge => False
  end.

(** [x[r]] lies between [x[lo]] and [x[hi]] at [depth]. *)
Definition between (x : list SortTuple) (depth : Z) (state : Tuplesortstate)
    (lo r hi : Z) : Prop :=
  mkqs_compare_datum (sel x lo) (sel x r) depth state <= 0 /\
  mkqs_compare_datum (sel x r) (sel x hi) depth state <= 0.

(** [r] is one of the indices [a], [b], [c] and [x[r]] is a median of the
    three tuples at [depth]. *)
Definition median_of_three (x : list SortTuple) (depth : Z) (state : Tuplesortstate)
    (a b c r : Z) : Prop :=
  (r = a /\ (between x depth state b a c \/ between x depth state c a b)) \/
  (r = b /\ (between x depth state a b c \/ between x depth state c b a)) \/
  (r = c /\ (between x depth state a c b \/ between x depth state b c a)).

(** The invariant of the partition loop: the pivot [p] sits at index 0, the
    tuples at [1 .. lessStart) and after [greaterEnd] equal it at [depth],
    those at [lessStart .. lessEnd) are below it and those after
    [greaterStart] up to [greaterEnd] are above it. *)
Definition partition_inv (n depth : Z) (state : Tuplesortstate) (p : SortTuple)
    (x : list SortTuple) (c : Cursors) : Prop :=
  Z.of_nat (length x) = n /\
  sel x 0 = p /\
  (1 <= lessStart c <= lessEnd c /\ lessEnd c <= greaterStart c + 1 /\
   greaterStart c <= greaterEnd c /\ greaterEnd c <= n - 1) /\
  (forall i, 1 <= i < lessStart c ->
     mkqs_compare_datum (sel x i) p depth state = 0) /\
  (forall i, lessStart c <= i < lessEnd c ->
     mkqs_compare_datum (sel x i) p depth state < 0) /\
  (forall i, greaterStart c < i <= greaterEnd c ->
     mkqs_compare_datum (sel x i) p depth state > 0) /\
  (forall i, greaterEnd c < i < n ->
     mkqs_compare_datum (sel x i) p depth state = 0).

(** The layout [less | equals | greater] around the pivot [p] that the
    partition leaves, with the sizes the driver computes from the cursors.
    The pivot itself lies in the middle part. *)
Definition three_way_layout (n depth : Z) (state : Tuplesortstate) (p : SortTuple)
    (c : Cursors) (x : list SortTuple) : Prop :=
  Z.of_nat (length x) = n /\
  (0 <= less_size c <= n - 1 /\ 1 <= equal_size n c /\
   0 <= greater_size c <= n - 1 /\
   less_size c + equal_size n c + greater_size c = n) /\
  (forall i, 0 <= i < less_size c ->
     mkqs_compare_datum (sel x i) p depth state < 0) /\
  (forall i, less_size c <= i < less_size c + equal_size n c ->
     mkqs_compare_datum (sel x i) p depth state = 0 \/ sel x i = p) /\
  (forall i, n - greater_size c <= i < n ->
     mkqs_compare_datum (sel x i) p depth state > 0).

(** The array of [w'] holds the tuples of [w] in some order, and no handler
    call was added. *)
Definition only_permuted (w w' : world) : Prop :=
  Permutation (mem w) (mem w') /\ trace w' = trace w.

(** [t] compares equal to [a] on every key from [depth] on. *)
Definition equal_from (depth : Z) (state : Tuplesortstate) (a t : SortTuple) : bool :=
  mkqs_compare_tuple_by_range t a depth state =? 0.

(** The tuples of [x] that compare equal to [a] from [depth] on, in the
    order they have in [x]. *)
Definition equal_class (depth : Z) (state : Tuplesortstate) (a : SortTuple)
    (x : list SortTuple) : list SortTuple :=
  filter (equal_from depth state a) x.

(** What the driver does with the middle part once the partition is done
    (lines 683-712), seen from the slice [(x + dist, tupCount)] itself:
    recurse one key deeper, or hand a run of more than one tuple to the
    duplicate handler. *)
Definition on_equal_part (rec : Z -> Z -> Tuplesortstate -> bool -> M unit)
    (tupCount depth : Z) (state : Tuplesortstate) (flag : bool) : M unit :=
  if depth <? nKeys state - 1 then rec tupCount (depth + 1) state flag
  else
    match mkqsHandleDupFunc state with
    | Some handler =>
        if tupCount >? 1 then call_handler handler 0 tupCount flag depth
        else ret tt
    | None => ret tt
    end.

(** The three calls that follow the partition (lines 661-722), with the
    recursive calls abstracted as [rec]. *)
Definition recurse_parts (rec : Z -> Z -> Tuplesortstate -> bool -> M unit)
    (n depth : Z) (state : Tuplesortstate) (seenNull : bool) (c : Cursors)
  : M unit :=
  let dist := less_size c in
  at_slice 0 dist (rec dist depth state seenNull) ;;;
  x <- get_mem ;;
  let isDatumNull := check_datum_null (sel x dist) depth state in
  let tupCount := equal_size n c in
  (if depth <? nKeys state - 1 then
     at_slice dist tupCount
       (rec tupCount (depth + 1) state (seenNull || isDatumNull))
   else
     match mkqsHandleDupFunc state with
     | Some handler =>
         if tupCount >? 1
         then call_handler handler dist tupCount (seenNull || isDatumNull) depth
         else ret tt
     | None => ret tt
     end) ;;;
  let dist := greater_size c in
  at_slice (n - dist) dist (rec dist depth state seenNull).

(** [a] is not above [b] by the keys from [depth] on. *)
Definition le_from (state : Tuplesortstate) (depth : Z) (a b : SortTuple) : Prop :=
  mkqs_compare_tuple_by_range a b depth state <= 0.

(** Some key of [t] at a depth below [d] is NULL. *)
Definition null_upto (state : Tuplesortstate) (t : SortTuple) (d : Z) : bool :=
  existsb (fun j => check_datum_null t j state) (depths_from 0 d).

(** Some tuple of the run has a NULL at one of the keys above the deepest
    one, that is at a depth in [0 .. n_keys - 2]. *)
Definition null_above_deepest (state : Tuplesortstate) (run : list SortTuple)
  : Prop :=
  exists t d, In t run /\ 0 <= d < nKeys state - 1 /\
              check_datum_null t d state = true.

(** Some tuple of the run has a NULL at one of the keys, the deepest
    included. *)
Definition null_at_some_key (state : Tuplesortstate) (run : list SortTuple)
  : Prop :=
  exists t d, In t run /\ 0 <= d < nKeys state /\
              check_datum_null t d state = true.

(** The reading of the [seenNull] flag that leaves the deepest key out. *)
Definition seen_null_excludes_deepest (state : Tuplesortstate)
    (tr : list DupCall) : Prop :=
  forall c, In c tr ->
    (dup_seenNull c = true <-> null_above_deepest state (dup_slice c)).

(** Tuples that compare equal at a key are both NULL or both not NULL at
    that key. *)
Definition nulls_distinguished (state : Tuplesortstate) : Prop :=
  forall d a b, 0 <= d < nKeys state ->
    mkqs_compare_datum a b d state = 0 ->
    check_datum_null a d state = check_datum_null b d state.

(** A handler call on a non-empty run whose flag tells, for each of its
    tuples, whether one of all the keys is NULL. *)
Definition flag_covers_all_keys (state : Tuplesortstate) (c : DupCall) : Prop :=
  dup_slice c <> [] /\
  forall t, In t (dup_slice c) ->
    dup_seenNull c = null_upto state t (nKeys state).

(** Idempotence as a test on one input: when the sort of [x] completes and
    the sort of its output completes too, the second run has left the array
    as it found it. *)
Definition second_run_unchanged (state : Tuplesortstate) (x : list SortTuple)
  : Prop :=
  match sort_memtuples state x with
  | Done _ w1 =>
      match sort_memtuples state (mem w1) with
      | Done _ w2 => mem w2 = mem w1
      | _ => True
      end
  | _ => True
  end.

(** [a] and [b] compare equal on every key. *)
Definition same_keys (state : Tuplesortstate) (a b : SortTuple) : Prop :=
  lexicographic_compare a b 0 state = 0.

(** The handler call [c] was given a tuple that compares equal to [t] on
    the keys from [depth] on. *)
Definition touches (depth : Z) (state : Tuplesortstate) (t : SortTuple)
    (c : DupCall) : bool :=
  existsb (equal_from depth state t) (dup_slice c).

(** Among the handler calls [calls], the run of [t] in [x] -- the tuples of
    [x] that compare equal to [t] from [depth] on -- was handed over exactly
    once, whole, with its length as count and from the deepest key, when it
    has at least two tuples; and never otherwise. *)
Definition run_handled (depth : Z) (state : Tuplesortstate)
    (x : list SortTuple) (calls : list DupCall) (t : SortTuple) : Prop :=
  ((2 <= length (equal_class depth state t x))%nat ->
   exists c, filter (touches depth state t) calls = [c] /\
             Permutation (dup_slice c) (equal_class depth state t x) /\
             dup_count c = Z.of_nat (length (equal_class depth state t x)) /\
             dup_depth c = nKeys state - 1) /\
  ((length (equal_class depth state t x) < 2)%nat ->
   filter (touches depth state t) calls = []).

Definition runs_handled (depth : Z) (state : Tuplesortstate)
    (x : list SortTuple) (calls : list DupCall) : Prop :=
  (forall t, run_handled depth state x calls t) /\
  (forall c, In c calls -> incl (dup_slice c) x).

(** The reading of the handler's contract that covers every code path: when
    the sort of [x] completes, every run of at least two tuples equal on all
    keys was handed to the handler exactly once. *)
Definition handles_every_run (state : Tuplesortstate) (x : list SortTuple)
  : Prop :=
  match sort_memtuples state x with
  | Done _ w' => forall t, In t x -> run_handled 0 state x (trace w') t
  | _ => True
  end.

(** What the driver has done with the middle part [e] at depth [d]: the
    runs inside it were handled one key deeper, or, at the deepest key, the
    part was handed over whole when it has at least two tuples. *)
Definition middle_handled (state : Tuplesortstate) (d : Z) (e : list SortTuple)
    (calls : list DupCall) : Prop :=
  (d < nKeys state - 1 /\ runs_handled (d + 1) state e calls) \/
  (d = nKeys state - 1 /\
   (((2 <= length e)%nat /\
     exists flag, calls = [mkDupCall e (Z.of_nat (length e)) flag d]) \/
    ((length e < 2)%nat /\ calls = []))).

(** The reading of the [seenNull] flag that leaves the deepest key out, as
    a test on one input. *)
Definition flags_exclude_deepest (state : Tuplesortstate) (x : list SortTuple)
  : Prop :=
  match sort_memtuples state x with
  | Done _ w' | Abort w' => seen_null_excludes_deepest state (trace w')
  | Diverge => True
  end.

(** *** Interrupts, handler errors and handler calls *)









(** A handler call on genuine duplicates of the array [x]: at least two of
    the tuples of [x], equal to each other at every key, with their number
    as count, made from the deepest key. *)
Definition genuine_duplicates (state : Tuplesortstate) (x : list SortTuple)
    (c : DupCall) : Prop :=
  (2 <= length (dup_slice c))%nat /\
  dup_count c = Z.of_nat (length (dup_slice c)) /\
  dup_depth c = nKeys state - 1 /\
  (exists rest, Permutation x (dup_slice c ++ rest)) /\
  forall a b, In a (dup_slice c) -> In b (dup_slice c) ->
    forall d, 0 <= d < nKeys state -> mkqs_compare_datum a b d state = 0.

(** The tuples of [x] agree with each other on every key below [depth]:
    what holds of a slice that the driver sorts at [depth]. *)
Definition equal_below (state : Tuplesortstate) (depth : Z) (x : list SortTuple)
  : Prop :=
  forall a b, In a x -> In b x ->
    forall d, 0 <= d < depth -> mkqs_compare_datum a b d state = 0.

(** No two tuples of [x] compare equal on every key. *)
Definition distinct_keys (state : Tuplesortstate) (x : list SortTuple) : Prop :=
  ForallOrdPairs (fun a b => lexicographic_compare a b 0 state <> 0) x.

(** What the handler left in the slice it was given by the call [c]. *)
Definition handler_output (state : Tuplesortstate) (c : DupCall) : list SortTuple :=
  match mkqsHandleDupFunc state with
  | Some h => fst (h (dup_slice c) (dup_count c) (dup_seenNull c))
  | None => dup_slice c
  end.

(** The array [x] holds, in one block, what the handler left at the call
    [c]. *)
Definition output_kept (state : Tuplesortstate) (x : list SortTuple) (c : DupCall)
  : Prop :=
  exists pre post, x = pre ++ handler_output state c ++ post.

(** Two computations that do the same from every world. *)
Definition same_run {A} (m1 m2 : M A) : Prop := forall w, m1 w = m2 w.

End Notions.

(** ** Example tables *)

Definition two_keys : list SortSupportData := [asc_nulls_last; asc_nulls_last].

(** A duplicate handler that leaves the run as it is and raises nothing. *)
Definition keep_handler (x : list SortTuple) (count : Z) (seenNull : bool)
  : list SortTuple * bool := (x, false).

(** A duplicate handler that turns the run around and raises nothing. *)
Definition reverse_handler (x : list SortTuple) (count : Z) (seenNull : bool)
  : list SortTuple * bool := (rev x, false).

Definition val (d : Z) : Datum * bool := (d, false).
Definition null : Datum * bool := (0, true).

(** [(2,10), (1,11), (2,10), (1,10)] *)
Definition rows_mixed : list Row :=
  [[val 2; val 10]; [val 1; val 11]; [val 2; val 10]; [val 1; val 10]].

(** [(NULL,2), (1,1), (NULL,1), (1,2)] *)
Definition rows_nulls : list Row :=
  [[null; val 2]; [val 1; val 1]; [null; val 1]; [val 1; val 2]].

(** [(1,1), (1,1), (1,1)] *)
Definition rows_triple : list Row :=
  [[val 1; val 1]; [val 1; val 1]; [val 1; val 1]].

(** [(1,NULL), (1,NULL)] *)
Definition rows_null_deepest : list Row :=
  [[val 1; null]; [val 1; null]].

(** Eighteen rows [(1, k / 9)], [k = 0 .. 17]: already in order. *)
Definition rows_eighteen : list Row :=
  map (fun k => [val 1; val (Z.of_nat k / 9)]) (seq 0 18).

(** The state of a sort of the rows of [heap] by two ascending keys. *)
Definition example_state (heap : list Row) (kind : MkqsCompFuncType)
    (h : option (list SortTuple -> Z -> bool -> list SortTuple * bool))
  : Tuplesortstate :=
  heap_state heap two_keys kind h.

(** [(1,10), (1,11), (2,10), (2,10)], by row number. *)
Definition mixed_sorted : list SortTuple :=
  [mkSortTuple 3 1 false; mkSortTuple 1 1 false;
   mkSortTuple 0 2 false; mkSortTuple 2 2 false].

(** [rows_mixed] once partitioned around the row [(2,10)]. *)
Definition mixed_partitioned : list SortTuple :=
  [mkSortTuple 1 1 false; mkSortTuple 3 1 false;
   mkSortTuple 2 2 false; mkSortTuple 0 2 false].

(** An interrupt is pending at the fourth check. *)
Definition at_fourth_check : nat -> bool := fun k => Nat.eqb k 3.

(** * Properties *)

(** ** Arrays: reads, stores and swaps *)

Lemma length_upd_nat (x : list SortTuple) (i : nat) (v : SortTuple) :
  length (upd_nat x i v) = length x.
Proof.
  revert i; induction x as [|h t IH]; intros [|i]; simpl; auto.
Qed.

Lemma length_upd (x : list SortTuple) (i : Z) (v : SortTuple) :
  length (upd x i v) = length x.
Proof.
  unfold upd. destruct (i <? 0); auto using length_upd_nat.
Qed.

Lemma nth_upd_nat (x : list SortTuple) (i j : nat) (v d : SortTuple) :
  (i < length x)%nat ->
  nth j (upd_nat x i v) d = if Nat.eqb j i then v else nth j x d.
Proof.
  revert i j; induction x as [|h t IH]; intros i j Hi; simpl in *; [lia|].
  destruct i as [|i], j as [|j]; simpl; auto.
  apply IH; lia.
Qed.

Lemma sel_upd (x : list SortTuple) (i j : Z) (v : SortTuple) :
  0 <= i < Z.of_nat (length x) ->
  sel (upd x i v) j = if j =? i then v else sel x j.
Proof.
  intros Hi. unfold sel, upd.
  destruct (Z.ltb_spec i 0); [lia|].
  destruct (Z.ltb_spec j 0).
  - destruct (Z.eqb_spec j i); [lia|reflexivity].
  - rewrite nth_upd_nat by lia.
    destruct (Nat.eqb_spec (Z.to_nat j) (Z.to_nat i)), (Z.eqb_spec j i);
      try reflexivity; lia.
Qed.

Lemma length_mkqs_swap (a b : Z) (x : list SortTuple) :
  length (mkqs_swap a b x) = length x.
Proof.
  unfold mkqs_swap. destruct (a =? b); auto.
  now rewrite !length_upd.
Qed.

Lemma sel_mkqs_swap (a b i : Z) (x : list SortTuple) :
  0 <= a < Z.of_nat (length x) ->
  0 <= b < Z.of_nat (length x) ->
  sel (mkqs_swap a b x) i =
    if i =? a then sel x b else if i =? b then sel x a else sel x i.
Proof.
  intros Ha Hb. unfold mkqs_swap.
  destruct (Z.eqb_spec a b) as [->|Hab].
  - destruct (Z.eqb_spec i b) as [->|]; reflexivity.
  - rewrite sel_upd by (rewrite length_upd; lia).
    rewrite sel_upd by lia.
    destruct (Z.eqb_spec i b), (Z.eqb_spec i a); try reflexivity; lia.
Qed.

Lemma upd_nat_extract (t : list SortTuple) (j : nat) (h d : SortTuple) :
  (j < length t)%nat ->
  Permutation (nth j t d :: upd_nat t j h) (h :: t).
Proof.
  revert j; induction t as [|a t IH]; intros j Hj; simpl in *; [lia|].
  destruct j as [|j]; simpl.
  - apply perm_swap.
  - etransitivity; [apply perm_swap|].
    etransitivity; [|apply perm_swap].
    apply perm_skip, IH. lia.
Qed.

Lemma upd_nat_exchange (x : list SortTuple) (i j : nat) (d : SortTuple) :
  (i < length x)%nat -> (j < length x)%nat ->
  Permutation (upd_nat (upd_nat x i (nth j x d)) j (nth i x d)) x.
Proof.
  revert i j; induction x as [|h t IH]; intros i j Hi Hj; simpl in *; [lia|].
  destruct i as [|i], j as [|j]; simpl.
  - reflexivity.
  - apply upd_nat_extract; lia.
  - apply upd_nat_extract; lia.
  - apply perm_skip, IH; lia.
Qed.

Lemma Permutation_mkqs_swap (a b : Z) (x : list SortTuple) :
  0 <= a < Z.of_nat (length x) ->
  0 <= b < Z.of_nat (length x) ->
  Permutation (mkqs_swap a b x) x.
Proof.
  intros Ha Hb. unfold mkqs_swap.
  destruct (Z.eqb_spec a b); [reflexivity|].
  unfold upd, sel.
  destruct (Z.ltb_spec a 0), (Z.ltb_spec b 0); try lia.
  apply upd_nat_exchange; lia.
Qed.

Lemma length_mkqs_vec_swap_loop (k : nat) (a b : Z) (x : list SortTuple) :
  length (mkqs_vec_swap_loop k a b x) = length x.
Proof.
  revert a b x; induction k as [|k IH]; intros; simpl; auto.
  now rewrite IH, length_mkqs_swap.
Qed.

Lemma length_mkqs_vec_swap (a b size : Z) (x : list SortTuple) :
  length (mkqs_vec_swap a b size x) = length x.
Proof. apply length_mkqs_vec_swap_loop. Qed.

Lemma Permutation_mkqs_vec_swap_loop (k : nat) (a b : Z) (x : list SortTuple) :
  0 <= a -> 0 <= b ->
  a + Z.of_nat k <= Z.of_nat (length x) ->
  b + Z.of_nat k <= Z.of_nat (length x) ->
  Permutation (mkqs_vec_swap_loop k a b x) x.
Proof.
  revert a b x; induction k as [|k IH]; intros a b x Ha Hb Hak Hbk; simpl.
  - reflexivity.
  - rewrite IH by (rewrite ?length_mkqs_swap; lia).
    apply Permutation_mkqs_swap; lia.
Qed.

Lemma sel_mkqs_vec_swap_loop (k : nat) (a b i : Z) (x : list SortTuple) :
  0 <= a -> a + Z.of_nat k <= b ->
  b + Z.of_nat k <= Z.of_nat (length x) ->
  sel (mkqs_vec_swap_loop k a b x) i =
    if (a <=? i) && (i <? a + Z.of_nat k) then sel x (i - a + b)
    else if (b <=? i) && (i <? b + Z.of_nat k) then sel x (i - b + a)
    else sel x i.
Proof.
  revert a b x; induction k as [|k IH]; intros a b x Ha Hab Hb.
  - cbn [mkqs_vec_swap_loop].
    destruct (Z.leb_spec a i), (Z.ltb_spec i (a + Z.of_nat 0)),
             (Z.leb_spec b i), (Z.ltb_spec i (b + Z.of_nat 0));
      simpl; try reflexivity; lia.
  - cbn [mkqs_vec_swap_loop].
    rewrite IH by (rewrite ?length_mkqs_swap; lia).
    rewrite !sel_mkqs_swap by lia.
    destruct (Z.leb_spec (a + 1) i), (Z.ltb_spec i (a + 1 + Z.of_nat k)),
             (Z.leb_spec (b + 1) i), (Z.ltb_spec i (b + 1 + Z.of_nat k)),
             (Z.leb_spec a i), (Z.ltb_spec i (a + Z.of_nat (S k))),
             (Z.leb_spec b i), (Z.ltb_spec i (b + Z.of_nat (S k)));
      simpl; try lia;
      repeat match goal with
             | |- context [?u =? ?v] => destruct (Z.eqb_spec u v); try lia
             end;
      try reflexivity; try (f_equal; lia).
Qed.

Section Comparators.

Context {ops : Collaborators}.
Variable state : Tuplesortstate.

Lemma compare_datum_later (t1 t2 : SortTuple) (d : Z) :
  d <> 0 ->
  mkqs_compare_datum t1 t2 d state =
    ApplySortComparator
      (fst (mkqsGetDatumFunc state t1 d)) (snd (mkqsGetDatumFunc state t1 d))
      (fst (mkqsGetDatumFunc state t2 d)) (snd (mkqsGetDatumFunc state t2 d))
      (sortKey_at state d).
Proof.
  intros Hd. unfold mkqs_compare_datum, mkqs_compare_datum_tiebreak.
  destruct (Z.eqb_spec d 0); [contradiction|].
  rewrite andb_false_r.
  destruct (mkqsGetDatumFunc state t1 d), (mkqsGetDatumFunc state t2 d).
  reflexivity.
Qed.

Lemma depths_from_step (d n : Z) :
  d < n -> depths_from d n = d :: depths_from (d + 1) n.
Proof.
  intros Hd. unfold depths_from.
  replace (Z.to_nat (n - d)) with (S (Z.to_nat (n - (d + 1)))) by lia.
  cbn [seq map]. f_equal; [lia|].
  rewrite <- seq_shift, map_map.
  apply map_ext; intros j. lia.
Qed.

Lemma lexicographic_compare_unfold (t1 t2 : SortTuple) (d : Z) :
  d < nKeys state ->
  lexicographic_compare t1 t2 d state =
    if mkqs_compare_datum t1 t2 d state =? 0
    then lexicographic_compare t1 t2 (d + 1) state
    else mkqs_compare_datum t1 t2 d state.
Proof.
  intros Hd. unfold lexicographic_compare.
  now rewrite depths_from_step by lia.
Qed.

Lemma range_tiebreak_loop_lex (k : nat) (t1 t2 : SortTuple) (d : Z) :
  0 < d ->
  Z.to_nat (nKeys state - d) = k ->
  range_tiebreak_loop k t1 t2 d state = lexicographic_compare t1 t2 d state.
Proof.
  revert d; induction k as [|k IH]; intros d Hd Hk.
  - unfold lexicographic_compare, depths_from. now rewrite Hk.
  - rewrite lexicographic_compare_unfold by lia.
    cbn [range_tiebreak_loop].
    destruct (Z.ltb_spec d (nKeys state)); [|lia].
    rewrite compare_datum_later by lia.
    destruct (mkqsGetDatumFunc state t1 d) as [d1 n1].
    destruct (mkqsGetDatumFunc state t2 d) as [d2 n2].
    cbn [fst snd].
    destruct (Z.eqb_spec (ApplySortComparator d1 n1 d2 n2 (sortKey_at state d)) 0);
      cbn [negb]; [|reflexivity].
    apply IH; lia.
Qed.

Lemma lexicographic_compare_end (t1 t2 : SortTuple) (d : Z) :
  nKeys state <= d -> lexicographic_compare t1 t2 d state = 0.
Proof.
  intros Hd. unfold lexicographic_compare, depths_from.
  now replace (Z.to_nat (nKeys state - d)) with O by lia.
Qed.

Lemma range_later_lex (t1 t2 : SortTuple) (d : Z) :
  0 < d ->
  mkqs_compare_tuple_by_range t1 t2 d state = lexicographic_compare t1 t2 d state.
Proof.
  intros Hd. unfold mkqs_compare_tuple_by_range, mkqs_compare_tuple_by_range_tiebreak.
  destruct (Z.eqb_spec d 0); [lia|].
  apply range_tiebreak_loop_lex; lia.
Qed.

Lemma range_leading (t1 t2 : SortTuple) :
  mkqs_compare_tuple_by_range t1 t2 0 state =
    let ret := mkqs_compare_datum_by_shortcut t1 t2 state in
    if negb (ret =? 0) then ret
    else if abbrev_converter (sortKey_at state 0) then
      let '(d1, isNull1) := mkqsGetDatumFunc state t1 0 in
      let '(d2, isNull2) := mkqsGetDatumFunc state t2 0 in
      let full := ApplySortAbbrevFullComparator d1 isNull1 d2 isNull2
                    (sortKey_at state 0) in
      if negb (full =? 0) then full
      else mkqs_compare_tuple_by_range t1 t2 1 state
    else mkqs_compare_tuple_by_range t1 t2 1 state.
Proof.
  unfold mkqs_compare_tuple_by_range at 1.
  unfold mkqs_compare_tuple_by_range_tiebreak.
  cbn [Z.eqb Z.add].
  unfold mkqs_compare_tuple_by_range, mkqs_compare_tuple_by_range_tiebreak.
  cbn [Z.eqb].
  reflexivity.
Qed.

Lemma range_lex (t1 t2 : SortTuple) (d : Z) :
  0 <= d < nKeys state ->
  mkqs_compare_tuple_by_range t1 t2 d state = lexicographic_compare t1 t2 d state.
Proof.
  intros Hd. destruct (Z.eq_dec d 0) as [->|]; [|apply range_later_lex; lia].
  rewrite range_leading, lexicographic_compare_unfold by lia.
  rewrite range_later_lex by lia. cbn zeta.
  unfold mkqs_compare_datum, mkqs_compare_datum_tiebreak. cbn [Z.eqb Z.add].
  destruct (Z.eqb_spec (mkqs_compare_datum_by_shortcut t1 t2 state) 0) as [E|E];
    cbn [negb].
  - destruct (abbrev_converter (sortKey_at state 0)); cbn [negb andb].
    + destruct (mkqsGetDatumFunc state t1 0) as [d1 n1].
      destruct (mkqsGetDatumFunc state t2 0) as [d2 n2].
      destruct (Z.eqb_spec (ApplySortAbbrevFullComparator d1 n1 d2 n2
                              (sortKey_at state 0)) 0); reflexivity.
    + rewrite E. reflexivity.
  - destruct (Z.eqb_spec (mkqs_compare_datum_by_shortcut t1 t2 state) 0);
      [contradiction|reflexivity].
Qed.

(** C7: the range comparator is the lexicographic composition of the
    per-depth comparator -- from any depth [d] in [0, n_keys) it returns the
    first non-zero [mkqs_compare_datum] result at depths [d .. n_keys-1], or
    0 when there is none -- and at depth 0 it runs the shortcut compare
    first, then, when the leading key is abbreviated and the shortcut found
    the keys equal, the abbreviated-full comparator, and only then descends
    to depth 1. *)
Theorem range_comparator_is_lexicographic (t1 t2 : SortTuple) (d : Z) :
  0 <= d < nKeys state ->
  mkqs_compare_tuple_by_range t1 t2 d state = lexicographic_compare t1 t2 d state /\
  mkqs_compare_tuple_by_range t1 t2 0 state =
    (let ret := mkqs_compare_datum_by_shortcut t1 t2 state in
     if negb (ret =? 0) then ret
     else if abbrev_converter (sortKey_at state 0) then
       let '(d1, isNull1) := mkqsGetDatumFunc state t1 0 in
       let '(d2, isNull2) := mkqsGetDatumFunc state t2 0 in
       let full := ApplySortAbbrevFullComparator d1 isNull1 d2 isNull2
                     (sortKey_at state 0) in
       if negb (full =? 0) then full
       else lexicographic_compare t1 t2 1 state
     else lexicographic_compare t1 t2 1 state).
Proof.
  intros Hd. split; [now apply range_lex|].
  rewrite range_leading. cbn zeta.
  now rewrite (range_later_lex t1 t2 1) by lia.
Qed.

Lemma range_lex_upto (t1 t2 : SortTuple) (d : Z) :
  0 <= d <= nKeys state -> 0 < nKeys state ->
  mkqs_compare_tuple_by_range t1 t2 d state = lexicographic_compare t1 t2 d state.
Proof.
  intros Hd Hn. destruct (Z.eq_dec d (nKeys state)).
  - apply range_later_lex; lia.
  - apply range_lex; lia.
Qed.

(** *** The order of one key *)

Lemma cmp_zero_sym (d : Z) (a b : SortTuple) :
  consistent_at state d ->
  mkqs_compare_datum a b d state = 0 -> mkqs_compare_datum b a d state = 0.
Proof.
  intros [Hs _] H.
  pose proof (Hs a b). pose proof (Hs b a). lia.
Qed.

Lemma cmp_ge_flip (d : Z) (a b : SortTuple) :
  consistent_at state d ->
  0 <= mkqs_compare_datum a b d state -> mkqs_compare_datum b a d state <= 0.
Proof.
  intros [Hs _] H.
  pose proof (Hs a b). pose proof (Hs b a). lia.
Qed.

Lemma cmp_le_flip (d : Z) (a b : SortTuple) :
  consistent_at state d ->
  mkqs_compare_datum a b d state <= 0 -> 0 <= mkqs_compare_datum b a d state.
Proof.
  intros [Hs _] H.
  pose proof (Hs a b). pose proof (Hs b a). lia.
Qed.

Lemma cmp_refl (d : Z) (a : SortTuple) :
  consistent_at state d -> mkqs_compare_datum a a d state = 0.
Proof.
  intros [Hs _]. pose proof (Hs a a). lia.
Qed.

(** [a] is not above the pivot [p] and [b] is not below it. *)
Lemma cmp_across (d : Z) (a b p : SortTuple) :
  consistent_at state d ->
  mkqs_compare_datum a p d state <= 0 ->
  0 <= mkqs_compare_datum b p d state ->
  mkqs_compare_datum a b d state <= 0 /\
  (mkqs_compare_datum a p d state < 0 \/ 0 < mkqs_compare_datum b p d state ->
   mkqs_compare_datum a b d state < 0).
Proof.
  intros Hc Ha Hb.
  pose proof (cmp_ge_flip d b p Hc Hb) as Hpb.
  destruct Hc as [Hs Ht].
  pose proof (Ht a p b Ha Hpb) as Hab.
  split; [exact Hab|].
  intros Hstrict.
  destruct (Z.eq_dec (mkqs_compare_datum a b d state) 0) as [E|]; [|lia].
  exfalso.
  assert (Hba : mkqs_compare_datum b a d state <= 0).
  { pose proof (Hs a b). pose proof (Hs b a). lia. }
  pose proof (Ht b a p Hba Ha) as Hbp.
  pose proof (Ht p b a Hpb Hba) as Hpa.
  pose proof (Hs a p). pose proof (Hs p a). pose proof (Hs b p). pose proof (Hs p b).
  lia.
Qed.

Lemma cmp_equal_class (d : Z) (a b p : SortTuple) :
  consistent_at state d ->
  mkqs_compare_datum a p d state = 0 ->
  mkqs_compare_datum b p d state = 0 ->
  mkqs_compare_datum a b d state = 0.
Proof.
  intros Hc Ha Hb.
  destruct (cmp_across d a b p Hc) as [H1 _]; try lia.
  destruct (cmp_across d b a p Hc) as [H2 _]; try lia.
  pose proof (cmp_le_flip d b a Hc H2). lia.
Qed.

(** *** The lexicographic order *)

Lemma lex_sym_trans (k : nat) :
  consistent state ->
  forall d, 0 <= d -> Z.to_nat (nKeys state - d) = k ->
    (forall a b, lexicographic_compare a b d state < 0 <->
                 0 < lexicographic_compare b a d state) /\
    (forall a b c, lexicographic_compare a b d state <= 0 ->
                   lexicographic_compare b c d state <= 0 ->
                   lexicographic_compare a c d state <= 0).
Proof.
  intros Hc. induction k as [|k IH]; intros d Hd Hk.
  - split; intros; rewrite ?lexicographic_compare_end in * by lia; lia.
  - assert (Hlt : d < nKeys state) by lia.
    destruct (IH (d + 1)) as [IHs IHt]; [lia|lia|].
    pose proof (Hc d (conj Hd Hlt)) as Hcd.
    split.
    + intros a b.
      rewrite (lexicographic_compare_unfold a b d), (lexicographic_compare_unfold b a d)
        by lia.
      destruct Hcd as [Hs _]. pose proof (Hs a b). pose proof (Hs b a).
      destruct (Z.eqb_spec (mkqs_compare_datum a b d state) 0),
               (Z.eqb_spec (mkqs_compare_datum b a d state) 0);
        try lia. apply IHs.
    + intros a b c.
      rewrite (lexicographic_compare_unfold a b d), (lexicographic_compare_unfold b c d),
        (lexicographic_compare_unfold a c d) by lia.
      destruct (Z.eqb_spec (mkqs_compare_datum a b d state) 0) as [Eab|Nab],
               (Z.eqb_spec (mkqs_compare_datum b c d state) 0) as [Ebc|Nbc];
        intros Hab Hbc.
      * rewrite (cmp_equal_class d a c b Hcd Eab (cmp_zero_sym d b c Hcd Ebc)).
        cbn [Z.eqb]. eapply IHt; eauto.
      * destruct (cmp_across d a c b Hcd) as [_ H]; try lia.
        { apply cmp_le_flip; auto. }
        assert (mkqs_compare_datum a c d state < 0).
        { apply H. right. destruct Hcd as [Hs _]. apply Hs. lia. }
        destruct (Z.eqb_spec (mkqs_compare_datum a c d state) 0); lia.
      * destruct (cmp_across d a c b Hcd) as [_ H]; try lia.
        { apply cmp_le_flip; auto. lia. }
        assert (mkqs_compare_datum a c d state < 0) by (apply H; left; lia).
        destruct (Z.eqb_spec (mkqs_compare_datum a c d state) 0); lia.
      * destruct (cmp_across d a c b Hcd) as [_ H]; try lia.
        { apply cmp_le_flip; auto. }
        assert (mkqs_compare_datum a c d state < 0) by (apply H; left; lia).
        destruct (Z.eqb_spec (mkqs_compare_datum a c d state) 0); lia.
Qed.

Lemma lex_sym (d : Z) (a b : SortTuple) :
  consistent state -> 0 <= d ->
  lexicographic_compare a b d state < 0 <-> 0 < lexicographic_compare b a d state.
Proof.
  intros Hc Hd. now apply (lex_sym_trans _ Hc d Hd eq_refl).
Qed.

Lemma lex_trans (d : Z) (a b c : SortTuple) :
  consistent state -> 0 <= d ->
  lexicographic_compare a b d state <= 0 ->
  lexicographic_compare b c d state <= 0 ->
  lexicographic_compare a c d state <= 0.
Proof.
  intros Hc Hd. now apply (lex_sym_trans _ Hc d Hd eq_refl).
Qed.

Lemma lex_total (d : Z) (a b : SortTuple) :
  consistent state -> 0 <= d ->
  ~ lexicographic_compare a b d state <= 0 ->
  lexicographic_compare b a d state <= 0.
Proof.
  intros Hc Hd H. pose proof (lex_sym d b a Hc Hd). lia.
Qed.

Lemma lex_zero_sym (d : Z) (a b : SortTuple) :
  consistent state -> 0 <= d ->
  lexicographic_compare a b d state = 0 -> lexicographic_compare b a d state = 0.
Proof.
  intros Hc Hd H.
  pose proof (lex_sym d a b Hc Hd). pose proof (lex_sym d b a Hc Hd). lia.
Qed.

Lemma lex_zero_trans (d : Z) (a b c : SortTuple) :
  consistent state -> 0 <= d ->
  lexicographic_compare a b d state = 0 ->
  lexicographic_compare b c d state = 0 ->
  lexicographic_compare a c d state = 0.
Proof.
  intros Hc Hd Hab Hbc.
  pose proof (lex_trans d a b c Hc Hd) as H1.
  pose proof (lex_trans d c b a Hc Hd) as H2.
  pose proof (lex_zero_sym d a b Hc Hd Hab).
  pose proof (lex_zero_sym d b c Hc Hd Hbc).
  pose proof (lex_sym d a c Hc Hd). pose proof (lex_sym d c a Hc Hd). lia.
Qed.

End Comparators.


(** ** Reasoning about runs *)

Lemma sat_ret {A} (a : A) (w : world) (Q : A -> world -> Prop) (E : world -> Prop) :
  Q a w -> sat (ret a) w Q E.
Proof. exact (fun H => H). Qed.

Lemma sat_bind {A B} (m : M A) (k : A -> M B) (w : world)
    (Q : B -> world -> Prop) (E : world -> Prop) :
  sat m w (fun a w' => sat (k a) w' Q E) E -> sat (bind m k) w Q E.
Proof.
  unfold sat, bind. destruct (m w); auto.
Qed.

Lemma sat_weaken {A} (m : M A) (w : world)
    (Q Q' : A -> world -> Prop) (E E' : world -> Prop) :
  sat m w Q E ->
  (forall a w', Q a w' -> Q' a w') ->
  (forall w', E w' -> E' w') ->
  sat m w Q' E'.
Proof.
  unfold sat. destruct (m w); auto.
Qed.

Lemma sat_and {A} (m : M A) (w : world)
    (Q Q' : A -> world -> Prop) (E E' : world -> Prop) :
  sat m w Q E -> sat m w Q' E' ->
  sat m w (fun a w' => Q a w' /\ Q' a w') (fun w' => E w' /\ E' w').
Proof.
  unfold sat. destruct (m w); auto.
Qed.

Lemma sat_get_mem (w : world) (Q : list SortTuple -> world -> Prop)
    (E : world -> Prop) :
  Q (mem w) w -> sat get_mem w Q E.
Proof. exact (fun H => H). Qed.

Lemma sat_put_mem (x : list SortTuple) (w : world) (Q : unit -> world -> Prop)
    (E : world -> Prop) :
  Q tt (mkWorld x (clock w) (trace w)) -> sat (put_mem x) w Q E.
Proof. exact (fun H => H). Qed.

Lemma sat_modify_mem (f : list SortTuple -> list SortTuple) (w : world)
    (Q : unit -> world -> Prop) (E : world -> Prop) :
  Q tt (mkWorld (f (mem w)) (clock w) (trace w)) -> sat (modify_mem f) w Q E.
Proof. exact (fun H => H). Qed.

Lemma sat_check {ops : Collaborators} (w : world) (Q : unit -> world -> Prop)
    (E : world -> Prop) :
  Q tt (mkWorld (mem w) (S (clock w)) (trace w)) ->
  E (mkWorld (mem w) (S (clock w)) (trace w)) ->
  sat CHECK_FOR_INTERRUPTS w Q E.
Proof.
  unfold sat, CHECK_FOR_INTERRUPTS. destruct (InterruptPending (clock w)); auto.
Qed.

Lemma sat_at_slice {A} (off len : Z) (m : M A) (w : world)
    (Q : A -> world -> Prop) (E : world -> Prop) :
  sat m (mkWorld (slice off len (mem w)) (clock w) (trace w))
      (fun a w' => Q a (mkWorld (splice off len (mem w') (mem w)) (clock w') (trace w')))
      (fun w' => E (mkWorld (splice off len (mem w') (mem w)) (clock w') (trace w'))) ->
  sat (at_slice off len m) w Q E.
Proof.
  unfold sat, at_slice.
  destruct (m (mkWorld (slice off len (mem w)) (clock w) (trace w))); auto.
Qed.

Lemma sat_call_handler
    (h : list SortTuple -> Z -> bool -> list SortTuple * bool)
    (off len : Z) (seenNull : bool) (depth : Z) (w : world)
    (Q : unit -> world -> Prop) (E : world -> Prop) :
  (forall w', w' = mkWorld
                     (splice off len (fst (h (slice off len (mem w)) len seenNull)) (mem w))
                     (clock w)
                     (trace w ++ [mkDupCall (slice off len (mem w)) len seenNull depth]) ->
              Q tt w' /\ E w') ->
  sat (call_handler h off len seenNull depth) w Q E.
Proof.
  intros H. unfold sat, call_handler.
  destruct (h (slice off len (mem w)) len seenNull) as [out raised] eqn:Eh.
  cbn [fst] in H. destruct (H _ eq_refl). destruct raised; auto.
Qed.

(** ** Slices *)

Lemma sel_nth (x : list SortTuple) (i : nat) :
  sel x (Z.of_nat i) = nth i x dummy_tuple.
Proof.
  unfold sel. destruct (Z.ltb_spec (Z.of_nat i) 0); [lia|].
  now rewrite Nat2Z.id.
Qed.

Lemma sel_app_l (p q : list SortTuple) (i : Z) :
  i < Z.of_nat (length p) -> sel (p ++ q) i = sel p i.
Proof.
  intros Hi. unfold sel. destruct (Z.ltb_spec i 0); [reflexivity|].
  apply app_nth1. lia.
Qed.

Lemma sel_app_r (p q : list SortTuple) (i : Z) :
  Z.of_nat (length p) <= i -> sel (p ++ q) i = sel q (i - Z.of_nat (length p)).
Proof.
  intros Hi. unfold sel.
  destruct (Z.ltb_spec i 0), (Z.ltb_spec (i - Z.of_nat (length p)) 0); try lia.
  rewrite app_nth2 by lia. f_equal. lia.
Qed.

Lemma sel_In (x : list SortTuple) (i : Z) :
  0 <= i < Z.of_nat (length x) -> In (sel x i) x.
Proof.
  intros Hi. unfold sel. destruct (Z.ltb_spec i 0); [lia|].
  apply nth_In. lia.
Qed.

Lemma In_sel (x : list SortTuple) (t : SortTuple) :
  In t x -> exists i, 0 <= i < Z.of_nat (length x) /\ sel x i = t.
Proof.
  intros H. destruct (In_nth x t dummy_tuple H) as (k & Hk & Hn).
  exists (Z.of_nat k). split; [lia|]. now rewrite sel_nth.
Qed.

Lemma length_slice (off len : Z) (x : list SortTuple) :
  0 <= off -> 0 <= len -> off + len <= Z.of_nat (length x) ->
  Z.of_nat (length (slice off len x)) = len.
Proof.
  intros. unfold slice. rewrite length_firstn, length_skipn. lia.
Qed.

Lemma sel_slice (off len i : Z) (x : list SortTuple) :
  0 <= off -> 0 <= i < len -> off + len <= Z.of_nat (length x) ->
  sel (slice off len x) i = sel x (off + i).
Proof.
  intros Hoff Hi Hlen. unfold slice, sel.
  destruct (Z.ltb_spec i 0), (Z.ltb_spec (off + i) 0); try lia.
  rewrite nth_firstn.
  destruct (Nat.ltb_spec (Z.to_nat i) (Z.to_nat len)); [|lia].
  rewrite nth_skipn. f_equal. lia.
Qed.

Lemma slice_decompose (off len : Z) (x : list SortTuple) :
  0 <= off -> 0 <= len -> off + len <= Z.of_nat (length x) ->
  x = firstn (Z.to_nat off) x ++ slice off len x
        ++ skipn (Z.to_nat off + Z.to_nat len) x.
Proof.
  intros. unfold slice.
  rewrite <- (firstn_skipn (Z.to_nat off) x) at 1. f_equal.
  rewrite <- (firstn_skipn (Z.to_nat len) (skipn (Z.to_nat off) x)) at 1.
  f_equal. rewrite skipn_skipn. f_equal. lia.
Qed.

Lemma slice_app (p s q : list SortTuple) (off len : Z) :
  off = Z.of_nat (length p) -> len = Z.of_nat (length s) ->
  slice off len (p ++ s ++ q) = s.
Proof.
  intros -> ->. unfold slice. rewrite !Nat2Z.id.
  rewrite skipn_app, skipn_all, Nat.sub_diag. cbn [skipn app].
  rewrite firstn_app, firstn_all, Nat.sub_diag. cbn [firstn]. apply app_nil_r.
Qed.

Lemma splice_app (p s q y : list SortTuple) (off len : Z) :
  off = Z.of_nat (length p) -> len = Z.of_nat (length s) ->
  splice off len y (p ++ s ++ q) = p ++ y ++ q.
Proof.
  intros -> ->. unfold splice. rewrite !Nat2Z.id.
  rewrite firstn_app, firstn_all, Nat.sub_diag. cbn [firstn]. rewrite app_nil_r.
  f_equal. f_equal.
  rewrite Nat.add_comm, <- skipn_skipn.
  rewrite skipn_app, skipn_all, Nat.sub_diag. cbn [skipn app].
  rewrite skipn_app, skipn_all, Nat.sub_diag. reflexivity.
Qed.

Lemma Permutation_splice (off len : Z) (y x : list SortTuple) :
  0 <= off -> 0 <= len -> off + len <= Z.of_nat (length x) ->
  Permutation (slice off len x) y ->
  Permutation x (splice off len y x).
Proof.
  intros Hoff Hlen Hx Hp.
  rewrite (slice_decompose off len x) at 1 by assumption.
  unfold splice. apply Permutation_app_head, Permutation_app_tail, Hp.
Qed.

Lemma length_splice (off len : Z) (y x : list SortTuple) :
  0 <= off -> 0 <= len -> off + len <= Z.of_nat (length x) ->
  Z.of_nat (length y) = len ->
  length (splice off len y x) = length x.
Proof.
  intros. unfold splice. rewrite !length_app, length_firstn, length_skipn. lia.
Qed.

Lemma Forall_sel (P : SortTuple -> Prop) (x : list SortTuple) :
  (forall i, 0 <= i < Z.of_nat (length x) -> P (sel x i)) <-> Forall P x.
Proof.
  split.
  - intros H. apply Forall_forall. intros t Ht.
    destruct (In_sel x t Ht) as (i & Hi & <-). auto.
  - intros H i Hi. eapply Forall_forall; eauto using sel_In.
Qed.

Lemma Forall_slice (P : SortTuple -> Prop) (off len : Z) (x : list SortTuple) :
  0 <= off -> 0 <= len -> off + len <= Z.of_nat (length x) ->
  (forall i, off <= i < off + len -> P (sel x i)) ->
  Forall P (slice off len x).
Proof.
  intros Hoff Hlen Hx H. apply Forall_sel. intros i Hi.
  rewrite length_slice in Hi by assumption.
  rewrite sel_slice by lia. apply H. lia.
Qed.


(** ** Pivot selection *)

Section Pivot.

Context {ops : Collaborators}.
Variable state : Tuplesortstate.

Lemma get_median_from_three_median (a b c : Z) (x : list SortTuple) (depth : Z) :
  consistent_at state depth ->
  median_of_three x depth state a b c (get_median_from_three a b c x depth state).
Proof.
  intros Hc. unfold get_median_from_three, median_of_three, between.
  pose proof (cmp_ge_flip state depth (sel x a) (sel x b) Hc).
  pose proof (cmp_ge_flip state depth (sel x b) (sel x c) Hc).
  pose proof (cmp_ge_flip state depth (sel x a) (sel x c) Hc).
  pose proof (cmp_ge_flip state depth (sel x b) (sel x a) Hc).
  pose proof (cmp_ge_flip state depth (sel x c) (sel x b) Hc).
  pose proof (cmp_ge_flip state depth (sel x c) (sel x a) Hc).
  destruct (Z.ltb_spec (mkqs_compare_datum (sel x a) (sel x b) depth state) 0);
    destruct (Z.ltb_spec (mkqs_compare_datum (sel x b) (sel x c) depth state) 0);
    destruct (Z.ltb_spec (mkqs_compare_datum (sel x a) (sel x c) depth state) 0);
    try destruct (Z.gtb_spec (mkqs_compare_datum (sel x b) (sel x c) depth state) 0);
    try lia; intuition lia.
Qed.

(** C9: the pivot index is chosen by the three-regime rule -- [n/2] for
    [n <= 7]; the median of the tuples at [0], [n/2] and [n-1] for
    [7 < n <= 40]; the ninther with step [n/8] for [n > 40] -- every median
    being taken under [mkqs_compare_datum] at the current depth. *)
Theorem select_pivot_three_regimes (n depth : Z) (x : list SortTuple) :
  consistent_at state depth ->
  (n <= 7 -> select_pivot n depth state x = n / 2) /\
  (7 < n <= 40 ->
     select_pivot n depth state x =
       get_median_from_three 0 (n / 2) (n - 1) x depth state /\
     median_of_three x depth state 0 (n / 2) (n - 1)
       (select_pivot n depth state x)) /\
  (40 < n ->
     let del := n / 8 in
     let l := get_median_from_three 0 del (2 * del) x depth state in
     let m := get_median_from_three (n / 2 - del) (n / 2) (n / 2 + del)
                x depth state in
     let r := get_median_from_three (n - 1 - 2 * del) (n - 1 - del) (n - 1)
                x depth state in
     select_pivot n depth state x = get_median_from_three l m r x depth state /\
     median_of_three x depth state 0 del (2 * del) l /\
     median_of_three x depth state (n / 2 - del) (n / 2) (n / 2 + del) m /\
     median_of_three x depth state (n - 1 - 2 * del) (n - 1 - del) (n - 1) r /\
     median_of_three x depth state l m r (select_pivot n depth state x)).
Proof.
  intros Hc. unfold select_pivot. repeat split.
  - intros Hn. destruct (Z.gtb_spec n 7); [lia|reflexivity].
  - destruct (Z.gtb_spec n 7); [|lia]. destruct (Z.gtb_spec n 40); [lia|reflexivity].
  - destruct (Z.gtb_spec n 7); [|lia]. destruct (Z.gtb_spec n 40); [lia|].
    now apply get_median_from_three_median.
  - destruct (Z.gtb_spec n 7); [|lia]. destruct (Z.gtb_spec n 40); [|lia].
    reflexivity.
  - now apply get_median_from_three_median.
  - now apply get_median_from_three_median.
  - now apply get_median_from_three_median.
  - destruct (Z.gtb_spec n 7); [|lia]. destruct (Z.gtb_spec n 40); [|lia].
    now apply get_median_from_three_median.
Qed.

Lemma get_median_from_three_range (a b c lo hi : Z) (x : list SortTuple) (depth : Z) :
  lo <= a < hi -> lo <= b < hi -> lo <= c < hi ->
  lo <= get_median_from_three a b c x depth state < hi.
Proof.
  intros. unfold get_median_from_three.
  repeat match goal with |- context [if ?t then _ else _] => destruct t end; lia.
Qed.

Lemma select_pivot_range (n depth : Z) (x : list SortTuple) :
  1 <= n -> 0 <= select_pivot n depth state x < n.
Proof.
  intros Hn. unfold select_pivot.
  destruct (Z.gtb_spec n 7).
  - assert (0 <= n / 2 < n) by (split; [apply Z.div_pos|apply Z.div_lt_upper_bound]; lia).
    assert (0 <= n / 8) by (apply Z.div_pos; lia).
    destruct (Z.gtb_spec n 40).
    + assert (n / 2 + n / 8 < n /\ 2 * (n / 8) <= n / 2 /\ 2 * (n / 8) < n - 1).
      { pose proof (Z.div_mod n 8 ltac:(lia)).
        pose proof (Z.mod_pos_bound n 8 ltac:(lia)).
        pose proof (Z.div_mod n 2 ltac:(lia)).
        pose proof (Z.mod_pos_bound n 2 ltac:(lia)). lia. }
      repeat apply get_median_from_three_range; lia.
    + apply get_median_from_three_range; lia.
  - split; [apply Z.div_pos|apply Z.div_lt_upper_bound]; lia.
Qed.

End Pivot.


(** ** The three-way partition *)

Section Partition.

Context {ops : Collaborators}.
Variable state : Tuplesortstate.
Variables (n depth : Z) (p : SortTuple).

Local Ltac swap_cases :=
  repeat match goal with
         | |- context [?u =? ?v] => destruct (Z.eqb_spec u v)
         end.

(** Close a goal about one array cell from a fact about the same cell or
    from a clause of the invariant. *)
Local Ltac cell :=
  match goal with
  | H : ?R (mkqs_compare_datum (sel ?x ?j) ?q ?d ?s) ?z
    |- ?R (mkqs_compare_datum (sel ?x ?i) ?q ?d ?s) ?z =>
      replace i with j by lia; exact H
  | H : forall i, _ -> ?R (mkqs_compare_datum (sel ?x i) ?q ?d ?s) ?z
    |- ?R (mkqs_compare_datum (sel ?x ?i) ?q ?d ?s) ?z =>
      apply H; lia
  end.

Local Ltac swapped :=
  intros; rewrite sel_mkqs_swap by lia; swap_cases; try lia;
  first [assumption | cell].

Lemma scan_left_spec (k : nat) :
  forall x c,
    partition_inv n depth state p x c ->
    window c = k ->
    let '(x', c') := scan_left k depth state x c in
    partition_inv n depth state p x' c' /\
    Permutation x x' /\
    greaterStart c' = greaterStart c /\ greaterEnd c' = greaterEnd c /\
    lessEnd c <= lessEnd c' /\
    (lessEnd c' <= greaterStart c' ->
     mkqs_compare_datum (sel x' (lessEnd c')) p depth state > 0).
Proof.
  induction k as [|k IH]; intros x c Hinv Hk.
  - cbn [scan_left]. split; [assumption|].
    repeat apply conj; auto; try lia. intros. unfold window in Hk. lia.
  - cbn [scan_left].
    pose proof Hinv as Hinv0.
    destruct Hinv as (Hlen & Hp & Hb & Heq1 & Hlt & Hgt & Heq2).
    destruct (Z.leb_spec (lessEnd c) (greaterStart c)) as [Hle|Hle].
    2:{ split; [assumption|]. repeat apply conj; auto; try lia. }
    rewrite Hp.
    destruct (Z.gtb_spec (mkqs_compare_datum (sel x (lessEnd c)) p depth state) 0)
      as [Hd|Hd].
    { split; [assumption|]. repeat apply conj; auto; try lia. }
    destruct (Z.eqb_spec (mkqs_compare_datum (sel x (lessEnd c)) p depth state) 0)
      as [Hz|Hz].
    + specialize (IH (mkqs_swap (lessEnd c) (lessStart c) x)
                     (mkCursors (lessStart c + 1) (lessEnd c + 1)
                                (greaterStart c) (greaterEnd c))).
      destruct (scan_left k depth state _ _) as [x' c'].
      cbn [lessStart lessEnd greaterStart greaterEnd] in IH.
      destruct IH as (Hinv' & Hperm & Hgs & Hge & Hmono & Hexit).
      * unfold partition_inv. cbn [lessStart lessEnd greaterStart greaterEnd].
        rewrite length_mkqs_swap.
        repeat apply conj; auto; try lia.
        all: swapped.
      * unfold window in *. cbn [lessEnd greaterStart]. lia.
      * split; [assumption|]. repeat apply conj; auto; try lia.
        rewrite <- Hperm. symmetry. apply Permutation_mkqs_swap; lia.
    + specialize (IH x (mkCursors (lessStart c) (lessEnd c + 1)
                                  (greaterStart c) (greaterEnd c))).
      destruct (scan_left k depth state _ _) as [x' c'].
      cbn [lessStart lessEnd greaterStart greaterEnd] in IH.
      destruct IH as (Hinv' & Hperm & Hgs & Hge & Hmono & Hexit).
      * unfold partition_inv. cbn [lessStart lessEnd greaterStart greaterEnd].
        repeat apply conj; auto; try lia.
        intros i Hi. destruct (Z.eq_dec i (lessEnd c)); [|cell].
        assert (mkqs_compare_datum (sel x (lessEnd c)) p depth state < 0) by lia.
        cell.
      * unfold window in *. cbn [lessEnd greaterStart]. lia.
      * split; [assumption|]. repeat apply conj; auto; try lia.
Qed.

Lemma scan_right_spec (k : nat) :
  forall x c,
    partition_inv n depth state p x c ->
    window c = k ->
    (lessEnd c <= greaterStart c ->
     mkqs_compare_datum (sel x (lessEnd c)) p depth state > 0) ->
    let '(x', c') := scan_right k depth state x c in
    partition_inv n depth state p x' c' /\
    Permutation x x' /\
    lessStart c' = lessStart c /\ lessEnd c' = lessEnd c /\
    greaterStart c' <= greaterStart c /\
    (lessEnd c' <= greaterStart c' ->
     mkqs_compare_datum (sel x' (lessEnd c')) p depth state > 0 /\
     mkqs_compare_datum (sel x' (greaterStart c')) p depth state < 0).
Proof.
  induction k as [|k IH]; intros x c Hinv Hk Hpre.
  - cbn [scan_right]. split; [assumption|].
    repeat apply conj; auto; intros; unfold window in Hk; lia.
  - cbn [scan_right].
    pose proof Hinv as Hinv0.
    destruct Hinv as (Hlen & Hp & Hb & Heq1 & Hlt & Hgt & Heq2).
    destruct (Z.leb_spec (lessEnd c) (greaterStart c)) as [Hle|Hle].
    2:{ split; [assumption|]. repeat apply conj; auto; try lia. }
    rewrite Hp.
    destruct (Z.ltb_spec (mkqs_compare_datum (sel x (greaterStart c)) p depth state) 0)
      as [Hd|Hd].
    { split; [assumption|]. repeat apply conj; auto; try lia. }
    destruct (Z.eqb_spec (mkqs_compare_datum (sel x (greaterStart c)) p depth state) 0)
      as [Hz|Hz].
    + assert (lessEnd c <> greaterStart c).
      { intros E. rewrite <- E in Hz. specialize (Hpre Hle). lia. }
      specialize (IH (mkqs_swap (greaterStart c) (greaterEnd c) x)
                     (mkCursors (lessStart c) (lessEnd c)
                                (greaterStart c - 1) (greaterEnd c - 1))).
      destruct (scan_right k depth state _ _) as [x' c'].
      cbn [lessStart lessEnd greaterStart greaterEnd] in IH.
      destruct IH as (Hinv' & Hperm & Hls & Hle' & Hgs & Hexit).
      * unfold partition_inv. cbn [lessStart lessEnd greaterStart greaterEnd].
        rewrite length_mkqs_swap.
        repeat apply conj; auto; try lia.
        all: swapped.
      * unfold window in *. cbn [lessEnd greaterStart]. lia.
      * specialize (Hpre Hle). swapped.
      * split; [assumption|]. repeat apply conj; auto; try lia.
        rewrite <- Hperm. symmetry. apply Permutation_mkqs_swap; lia.
    + specialize (IH x (mkCursors (lessStart c) (lessEnd c)
                                  (greaterStart c - 1) (greaterEnd c))).
      destruct (scan_right k depth state _ _) as [x' c'].
      cbn [lessStart lessEnd greaterStart greaterEnd] in IH.
      destruct IH as (Hinv' & Hperm & Hls & Hle' & Hgs & Hexit).
      * unfold partition_inv. cbn [lessStart lessEnd greaterStart greaterEnd].
        repeat apply conj; auto; try lia.
        intros i Hi. destruct (Z.eq_dec i (greaterStart c)); [|cell].
        assert (mkqs_compare_datum (sel x (greaterStart c)) p depth state > 0) by lia.
        cell.
      * unfold window in *. cbn [lessEnd greaterStart]. lia.
      * intros _. apply Hpre; lia.
      * split; [assumption|]. repeat apply conj; auto; try lia.
Qed.

Lemma sel_mkqs_vec_swap (a b size i : Z) (x : list SortTuple) :
  0 <= a -> 0 <= size -> a + size <= b -> b + size <= Z.of_nat (length x) ->
  sel (mkqs_vec_swap a b size x) i =
    if (a <=? i) && (i <? a + size) then sel x (i - a + b)
    else if (b <=? i) && (i <? b + size) then sel x (i - b + a)
    else sel x i.
Proof.
  intros. unfold mkqs_vec_swap.
  rewrite sel_mkqs_vec_swap_loop by lia.
  now rewrite Z2Nat.id by lia.
Qed.

Lemma Permutation_mkqs_vec_swap (a b size : Z) (x : list SortTuple) :
  0 <= a -> 0 <= b -> 0 <= size ->
  a + size <= Z.of_nat (length x) -> b + size <= Z.of_nat (length x) ->
  Permutation (mkqs_vec_swap a b size x) x.
Proof.
  intros. apply Permutation_mkqs_vec_swap_loop; lia.
Qed.

Lemma partition_loop_spec (k : nat) :
  forall c w,
    partition_inv n depth state p (mem w) c ->
    (window c < k)%nat ->
    sat (partition_loop k depth state c) w
        (fun c' w' =>
           partition_inv n depth state p (mem w') c' /\
           lessEnd c' = greaterStart c' + 1 /\
           only_permuted w w')
        (fun w' => only_permuted w w').
Proof.
  induction k as [|k IH]; intros c w Hinv Hk; [lia|].
  cbn [partition_loop].
  apply sat_bind, sat_check; [|split; reflexivity].
  apply sat_bind, sat_get_mem. cbn [mem clock trace].
  pose proof (scan_left_spec (window c) (mem w) c Hinv eq_refl) as HL.
  destruct (scan_left (window c) depth state (mem w) c) as [x1 c1].
  destruct HL as (Hinv1 & Hperm1 & Hgs1 & Hge1 & Hmono1 & Hexit1).
  pose proof (scan_right_spec (window c1) x1 c1 Hinv1 eq_refl Hexit1) as HR.
  destruct (scan_right (window c1) depth state x1 c1) as [x2 c2].
  destruct HR as (Hinv2 & Hperm2 & Hls2 & Hle2 & Hgs2 & Hexit2).
  apply sat_bind, sat_put_mem. cbn [mem clock trace].
  destruct (Z.gtb_spec (lessEnd c2) (greaterStart c2)) as [Hx|Hx].
  - apply sat_ret. cbn [mem trace]. split; [assumption|].
    split; [destruct Hinv2 as (_ & _ & ? & _); lia|].
    split; [now rewrite Hperm1|reflexivity].
  - apply sat_bind, sat_modify_mem. cbn [mem clock trace].
    destruct (Hexit2 Hx) as [Hgt Hlt].
    assert (Hne : lessEnd c2 < greaterStart c2).
    { destruct (Z.eq_dec (lessEnd c2) (greaterStart c2)) as [E|]; [|lia].
      rewrite E in Hgt. lia. }
    pose proof Hinv2 as (Hlen & Hp & Hb & Heq1 & Hlt' & Hgt' & Heq2).
    eapply sat_weaken.
    + apply IH.
      * unfold partition_inv. cbn [mem lessStart lessEnd greaterStart greaterEnd].
        rewrite length_mkqs_swap.
        repeat apply conj; auto; try lia.
        all: swapped.
      * unfold window in *. cbn [lessEnd greaterStart]. lia.
    + cbn [mem trace]. intros c' w' (Hi & He & Hp' & Ht). cbn [mem trace] in *.
      split; [exact Hi|]. split; [exact He|]. split; [|exact Ht].
      rewrite Hperm1, Hperm2, <- Hp'. symmetry. apply Permutation_mkqs_swap; lia.
    + cbn [mem trace]. intros w' (Hp' & Ht). cbn [mem trace] in *.
      split; [|exact Ht].
      rewrite Hperm1, Hperm2, <- Hp'. symmetry. apply Permutation_mkqs_swap; lia.
Qed.

Lemma fold_equals_spec (x : list SortTuple) (c : Cursors) :
  partition_inv n depth state p x c ->
  lessEnd c = greaterStart c + 1 ->
  three_way_layout n depth state p c (fold_equals n c x) /\
  Permutation x (fold_equals n c x).
Proof.
  intros (Hlen & Hp & Hb & Heq1 & Hlt & Hgt & Heq2) Hmeet.
  unfold fold_equals.
  set (d1 := Z.min (lessStart c) (lessEnd c - lessStart c)).
  set (x1 := mkqs_vec_swap 0 (lessEnd c - d1) d1 x).
  set (d2 := Z.min (greaterEnd c - greaterStart c) (n - greaterEnd c - 1)).
  assert (Hlen1 : Z.of_nat (length x1) = n).
  { unfold x1. now rewrite length_mkqs_vec_swap. }
  assert (Hsel1 : forall i, sel x1 i =
            if (0 <=? i) && (i <? 0 + d1) then sel x (i - 0 + (lessEnd c - d1))
            else if (lessEnd c - d1 <=? i) && (i <? lessEnd c - d1 + d1)
                 then sel x (i - (lessEnd c - d1) + 0)
                 else sel x i).
  { intros i. unfold x1. apply sel_mkqs_vec_swap; lia. }
  assert (Hsel2 : forall i, sel (mkqs_vec_swap (lessEnd c) (n - d2) d2 x1) i =
            if (lessEnd c <=? i) && (i <? lessEnd c + d2)
            then sel x1 (i - lessEnd c + (n - d2))
            else if (n - d2 <=? i) && (i <? n - d2 + d2)
                 then sel x1 (i - (n - d2) + lessEnd c)
                 else sel x1 i).
  { intros i. apply sel_mkqs_vec_swap; lia. }
  split.
  - unfold three_way_layout, less_size, equal_size, greater_size.
    rewrite length_mkqs_vec_swap.
    split; [assumption|]. split; [lia|].
    assert (Hpiv : forall i, 0 <= i < lessStart c ->
              mkqs_compare_datum (sel x i) p depth state = 0 \/ sel x i = p).
    { intros i Hi. destruct (Z.eq_dec i 0) as [->|]; [now right|left; apply Heq1; lia]. }
    repeat apply conj; intros i Hi; rewrite Hsel2, Hsel1.
    + repeat match goal with
             | |- context [Z.leb ?u ?v] => destruct (Z.leb_spec u v)
             | |- context [Z.ltb ?u ?v] => destruct (Z.ltb_spec u v)
             end; cbn [andb]; try lia; try rewrite Hsel1;
      repeat match goal with
             | |- context [Z.leb ?u ?v] => destruct (Z.leb_spec u v)
             | |- context [Z.ltb ?u ?v] => destruct (Z.ltb_spec u v)
             end; cbn [andb]; try lia; apply Hlt; lia.
    + repeat match goal with
             | |- context [Z.leb ?u ?v] => destruct (Z.leb_spec u v)
             | |- context [Z.ltb ?u ?v] => destruct (Z.ltb_spec u v)
             end; cbn [andb]; try lia; try rewrite Hsel1;
      repeat match goal with
             | |- context [Z.leb ?u ?v] => destruct (Z.leb_spec u v)
             | |- context [Z.ltb ?u ?v] => destruct (Z.ltb_spec u v)
             end; cbn [andb]; try lia;
      first [apply Hpiv; lia | left; apply Heq2; lia].
    + repeat match goal with
             | |- context [Z.leb ?u ?v] => destruct (Z.leb_spec u v)
             | |- context [Z.ltb ?u ?v] => destruct (Z.ltb_spec u v)
             end; cbn [andb]; try lia; try rewrite Hsel1;
      repeat match goal with
             | |- context [Z.leb ?u ?v] => destruct (Z.leb_spec u v)
             | |- context [Z.ltb ?u ?v] => destruct (Z.ltb_spec u v)
             end; cbn [andb]; try lia; apply Hgt; lia.
  - symmetry. etransitivity.
    + apply Permutation_mkqs_vec_swap; lia.
    + apply Permutation_mkqs_vec_swap; lia.
Qed.

End Partition.

Section PartitionBlock.

Context {ops : Collaborators}.
Variable state : Tuplesortstate.

Lemma partition_spec (n depth : Z) (w : world) :
  1 <= n -> Z.of_nat (length (mem w)) = n ->
  sat (partition n depth state) w
      (fun c w' =>
         three_way_layout n depth state
           (sel (mem w) (select_pivot n depth state (mem w))) c (mem w') /\
         only_permuted w w')
      (fun w' => only_permuted w w').
Proof.
  intros Hn Hlen. unfold partition.
  apply sat_bind, sat_get_mem.
  apply sat_bind, sat_modify_mem. cbn [mem clock trace].
  pose proof (select_pivot_range state n depth (mem w) Hn) as Hpiv.
  set (pidx := select_pivot n depth state (mem w)) in *.
  assert (Hswap : Permutation (mem w) (mkqs_swap 0 pidx (mem w))).
  { symmetry. apply Permutation_mkqs_swap; lia. }
  apply sat_bind.
  eapply sat_weaken.
  - apply (partition_loop_spec state n depth (sel (mem w) pidx)).
    + unfold partition_inv. cbn [mem lessStart lessEnd greaterStart greaterEnd].
      rewrite length_mkqs_swap.
      split; [assumption|]. split.
      { rewrite sel_mkqs_swap by lia. cbn [Z.eqb]. reflexivity. }
      split; [lia|]. repeat apply conj; intros; lia.
    + unfold window. cbn [lessEnd greaterStart]. lia.
  - cbn [mem trace]. intros c w1 (Hinv & Hmeet & Hperm & Htrace).
    cbn [mem trace] in *.
    apply sat_bind, sat_modify_mem, sat_ret. cbn [mem clock trace].
    destruct (fold_equals_spec state n depth _ (mem w1) c Hinv Hmeet) as [Hlay Hp].
    split; [exact Hlay|]. split; [|exact Htrace].
    cbn [mem]. now rewrite Hswap, Hperm.
  - cbn [mem trace]. intros w1 (Hperm & Htrace). cbn [mem trace] in *.
    split; [|exact Htrace]. now rewrite Hswap.
Qed.

(** C6: when the partition of a slice of [n] tuples at [depth] completes,
    the slice is a rearrangement of its tuples laid out as
    [less | equals | greater] around the pivot: the first
    [lessEnd - lessStart] tuples compare below the pivot, the next
    [lessStart + (n - greaterEnd - 1)] tuples, starting at offset
    [lessEnd - lessStart], compare equal to it, and all the tuples after
    them compare above it. *)
Theorem partition_three_way (n depth : Z) (w w' : world) (c : Cursors) :
  2 <= n -> Z.of_nat (length (mem w)) = n ->
  (forall t, mkqs_compare_datum t t depth state = 0) ->
  partition n depth state w = Done c w' ->
  let pivot := sel (mem w) (select_pivot n depth state (mem w)) in
  let x := mem w' in
  let equals_offset := lessEnd c - lessStart c in
  let equals_size := lessStart c + (n - greaterEnd c - 1) in
  Z.of_nat (length x) = n /\
  Permutation (mem w) x /\
  0 <= equals_offset /\ 1 <= equals_size /\ equals_offset + equals_size <= n /\
  (forall i, 0 <= i < equals_offset ->
     mkqs_compare_datum (sel x i) pivot depth state < 0) /\
  (forall i, equals_offset <= i < equals_offset + equals_size ->
     mkqs_compare_datum (sel x i) pivot depth state = 0) /\
  (forall i, equals_offset + equals_size <= i < n ->
     mkqs_compare_datum (sel x i) pivot depth state > 0).
Proof.
  intros Hn Hlen Hrefl Hrun. cbn zeta.
  pose proof (partition_spec n depth w ltac:(lia) Hlen) as H.
  unfold sat in H. rewrite Hrun in H.
  destruct H as ((Hl & Hsz & Hlt & Heq & Hgt) & Hperm & _).
  unfold less_size, equal_size, greater_size in *.
  repeat apply conj; try assumption; try lia.
  - intros i Hi. destruct (Heq i) as [E|E]; [lia|exact E|].
    rewrite E. apply Hrefl.
  - intros i Hi. apply Hgt. lia.
Qed.

End PartitionBlock.


(** ** The small-N sort *)

Section SmallSort.

Context {ops : Collaborators}.
Variable state : Tuplesortstate.
Variable depth : Z.

Let le_range (a b : SortTuple) : Prop :=
  mkqs_compare_tuple_by_range a b depth state <= 0.

Hypothesis range_total : forall a b, ~ le_range a b -> le_range b a.

Lemma insert_down_sorted (k : nat) :
  forall (x : list SortTuple) (l m : Z),
    Z.to_nat l = k -> 0 <= l <= m -> m < Z.of_nat (length x) ->
    (forall i, 0 <= i -> i + 1 <= m -> i + 1 <> l ->
               le_range (sel x i) (sel x (i + 1))) ->
    (0 < l -> l < m -> le_range (sel x (l - 1)) (sel x (l + 1))) ->
    let x' := insert_down k l depth state x in
    length x' = length x /\
    Permutation x x' /\
    (forall i, m < i -> sel x' i = sel x i) /\
    (forall i, 0 <= i -> i + 1 <= m -> le_range (sel x' i) (sel x' (i + 1))).
Proof.
  induction k as [|k IH]; intros x l m Hk Hl Hm Hadj Hskip; cbn zeta.
  - cbn [insert_down]. repeat apply conj; auto.
    intros i Hi Him. apply Hadj; lia.
  - cbn [insert_down].
    destruct (Z.gtb_spec l 0) as [Hpos|]; [|lia].
    unfold le_range in *.
    destruct (Z.leb_spec (mkqs_compare_tuple_by_range (sel x (l - 1)) (sel x l)
                            depth state) 0) as [Hord|Hord].
    + repeat apply conj; auto.
      intros i Hi Him. destruct (Z.eq_dec (i + 1) l) as [E|E].
      * replace i with (l - 1) by lia. replace (l - 1 + 1) with l by lia. exact Hord.
      * apply Hadj; lia.
    + destruct (IH (mkqs_swap l (l - 1) x) (l - 1) m) as (Hlen & Hperm & Hout & Hs);
        try lia.
      * rewrite length_mkqs_swap. lia.
      * intros i Hi Him Hne. rewrite !sel_mkqs_swap by lia.
        repeat match goal with
               | |- context [?u =? ?v] => destruct (Z.eqb_spec u v)
               end; try lia.
        -- replace (i + 1) with (l + 1) by lia. apply Hskip; lia.
        -- apply range_total. lia.
        -- apply Hadj; lia.
      * intros H1 H2. rewrite !sel_mkqs_swap by lia.
        repeat match goal with
               | |- context [?u =? ?v] => destruct (Z.eqb_spec u v)
               end; try lia.
        replace (l - 1) with (l - 1 - 1 + 1) at 2 by lia. apply Hadj; lia.
      * rewrite length_mkqs_swap in Hlen.
        repeat apply conj; auto.
        -- rewrite <- Hperm. symmetry. apply Permutation_mkqs_swap; lia.
        -- intros i Hi. rewrite Hout by lia. rewrite sel_mkqs_swap by lia.
           repeat match goal with
                  | |- context [?u =? ?v] => destruct (Z.eqb_spec u v)
                  end; try lia. reflexivity.
Qed.

Lemma insertion_loop_sorted (k : nat) :
  forall (x : list SortTuple) (m : Z),
    0 <= m -> m + Z.of_nat k = Z.of_nat (length x) ->
    (forall i, 0 <= i -> i + 1 < m -> le_range (sel x i) (sel x (i + 1))) ->
    let x' := insertion_loop k m depth state x in
    length x' = length x /\
    Permutation x x' /\
    (forall i, 0 <= i -> i + 1 < Z.of_nat (length x) ->
               le_range (sel x' i) (sel x' (i + 1))).
Proof.
  induction k as [|k IH]; intros x m Hm Hlen Hpre; cbn zeta.
  - cbn [insertion_loop]. repeat apply conj; auto.
    intros i Hi Hi'. apply Hpre; lia.
  - cbn [insertion_loop].
    destruct (insert_down_sorted (Z.to_nat m) x m m) as (Hl & Hp & _ & Hs);
      try lia.
    + intros i Hi Him Hne. apply Hpre; lia.
    + destruct (IH (insert_down (Z.to_nat m) m depth state x) (m + 1))
        as (Hl' & Hp' & Hs'); try lia.
      * intros i Hi Him. apply Hs; lia.
      * rewrite Hl in *. repeat apply conj; auto.
        etransitivity; eassumption.
Qed.

Lemma small_sort_sorted (n : Z) (x : list SortTuple) :
  Z.of_nat (length x) = n ->
  length (small_sort n depth state x) = length x /\
  Permutation x (small_sort n depth state x) /\
  ordered_from depth state (small_sort n depth state x).
Proof.
  intros Hn. unfold small_sort, ordered_from.
  destruct (insertion_loop_sorted (Z.to_nat n) x 0) as (Hl & Hp & Hs); try lia.
  repeat apply conj; auto.
  intros i Hi. rewrite Hl in Hi. apply Hs; lia.
Qed.

End SmallSort.

Lemma upd_nat_app (pre l : list SortTuple) (k : nat) (v : SortTuple) :
  upd_nat (pre ++ l) (length pre + k) v = pre ++ upd_nat l k v.
Proof.
  induction pre as [|h t IH]; cbn [length app upd_nat Nat.add]; [reflexivity|].
  now rewrite IH.
Qed.

Lemma mkqs_swap_adjacent (pre post : list SortTuple) (u v : SortTuple) (l : Z) :
  l = Z.of_nat (length pre) + 1 ->
  mkqs_swap l (l - 1) (pre ++ u :: v :: post) = pre ++ v :: u :: post.
Proof.
  intros ->. unfold mkqs_swap, upd, sel.
  destruct (Z.eqb_spec (Z.of_nat (length pre) + 1) (Z.of_nat (length pre) + 1 - 1));
    [lia|].
  destruct (Z.ltb_spec (Z.of_nat (length pre) + 1) 0); [lia|].
  destruct (Z.ltb_spec (Z.of_nat (length pre) + 1 - 1) 0); [lia|].
  replace (Z.to_nat (Z.of_nat (length pre) + 1)) with (length pre + 1)%nat by lia.
  replace (Z.to_nat (Z.of_nat (length pre) + 1 - 1)) with (length pre + 0)%nat by lia.
  rewrite !app_nth2_plus. cbn [nth].
  rewrite upd_nat_app. cbn [upd_nat].
  rewrite upd_nat_app. reflexivity.
Qed.

Lemma split_adjacent (x : list SortTuple) (l : Z) :
  0 < l < Z.of_nat (length x) ->
  exists pre post,
    x = pre ++ sel x (l - 1) :: sel x l :: post /\
    l = Z.of_nat (length pre) + 1.
Proof.
  intros Hl.
  destruct (nth_split x dummy_tuple (n := Z.to_nat (l - 1))) as (pre & rest & Hx & Hpre);
    [lia|].
  destruct rest as [|v post].
  { rewrite Hx in Hl. rewrite length_app in Hl. cbn [length] in Hl. lia. }
  exists pre, post. split; [|lia].
  assert (Hu : sel x (l - 1) = nth (Z.to_nat (l - 1)) x dummy_tuple).
  { unfold sel. destruct (Z.ltb_spec (l - 1) 0); [lia|reflexivity]. }
  assert (Hv : sel x l = v).
  { unfold sel. destruct (Z.ltb_spec l 0); [lia|].
    rewrite Hx at 1.
    replace (Z.to_nat l) with (length pre + 1)%nat by lia.
    now rewrite app_nth2_plus. }
  now rewrite Hu, Hv.
Qed.

Section SmallSortStable.

Context {ops : Collaborators}.
Variable state : Tuplesortstate.
Variable depth : Z.

Hypothesis class_coherent :
  forall a u v,
    mkqs_compare_tuple_by_range u a depth state = 0 ->
    mkqs_compare_tuple_by_range v a depth state = 0 ->
    mkqs_compare_tuple_by_range u v depth state <= 0.

Lemma insert_down_stable (a : SortTuple) (k : nat) :
  forall (x : list SortTuple) (l : Z),
    0 <= l < Z.of_nat (length x) ->
    equal_class depth state a (insert_down k l depth state x) =
    equal_class depth state a x.
Proof.
  induction k as [|k IH]; intros x l Hl; cbn [insert_down]; [reflexivity|].
  destruct (Z.gtb_spec l 0) as [Hpos|]; [|reflexivity].
  destruct (Z.leb_spec (mkqs_compare_tuple_by_range (sel x (l - 1)) (sel x l)
                          depth state) 0) as [Hord|Hord]; [reflexivity|].
  rewrite IH by (rewrite length_mkqs_swap; lia).
  destruct (split_adjacent x l) as (pre & post & Hx & Hpre); [lia|].
  set (u := sel x (l - 1)) in *. set (v := sel x l) in *.
  rewrite Hx, (mkqs_swap_adjacent pre post u v l Hpre).
  unfold equal_class. rewrite !filter_app. f_equal. cbn [filter].
  unfold equal_from.
  destruct (Z.eqb_spec (mkqs_compare_tuple_by_range u a depth state) 0) as [Eu|];
    destruct (Z.eqb_spec (mkqs_compare_tuple_by_range v a depth state) 0) as [Ev|];
    try reflexivity.
  pose proof (class_coherent a u v Eu Ev). lia.
Qed.

Lemma insertion_loop_stable (a : SortTuple) (k : nat) :
  forall (x : list SortTuple) (m : Z),
    0 <= m -> m + Z.of_nat k <= Z.of_nat (length x) ->
    equal_class depth state a (insertion_loop k m depth state x) =
    equal_class depth state a x.
Proof.
  induction k as [|k IH]; intros x m Hm Hlen; cbn [insertion_loop]; [reflexivity|].
  assert (Hl : length (insert_down (Z.to_nat m) m depth state x) = length x).
  { clear. generalize (Z.to_nat m) as j. intros j. revert x m.
    induction j as [|j IHj]; intros x m; cbn [insert_down]; [reflexivity|].
    destruct (m >? 0); [|reflexivity].
    destruct (_ <=? 0); [reflexivity|].
    now rewrite IHj, length_mkqs_swap. }
  rewrite IH by (rewrite ?Hl; lia).
  apply insert_down_stable. lia.
Qed.

Lemma small_sort_stable (a : SortTuple) (n : Z) (x : list SortTuple) :
  Z.of_nat (length x) = n ->
  equal_class depth state a (small_sort n depth state x) =
  equal_class depth state a x.
Proof.
  intros Hn. unfold small_sort. apply insertion_loop_stable; lia.
Qed.

End SmallSortStable.


(** ** The driver *)

Section Driver.

Context {ops : Collaborators}.
Variable state : Tuplesortstate.

Lemma mk_qsort_tuple_unfold (fuel : nat) (n depth : Z) (seenNull : bool) :
  mk_qsort_tuple (S fuel) n depth state seenNull =
    if n <=? 1 then ret tt
    else if depth =? nKeys state then ret tt
    else
      CHECK_FOR_INTERRUPTS ;;;
      ordered <- pre_ordered_check n depth state ;;
      if ordered then ret tt
      else if (n <? 16) && negb (has_handler state)
      then modify_mem (small_sort n depth state)
      else
        c <- partition n depth state ;;
        recurse_parts (mk_qsort_tuple fuel) n depth state seenNull c.
Proof. reflexivity. Qed.

Lemma preordered_loop_spec (k : nat) :
  forall (i : Z) (w : world),
    sat (preordered_loop k i state) w
        (fun b w' =>
           mem w' = mem w /\ trace w' = trace w /\
           (b = true <->
            forall j, i <= j < i + Z.of_nat k ->
              mkqs_compare_tuple (sel (mem w) j) (sel (mem w) (j + 1)) state <= 0))
        (fun w' => mem w' = mem w /\ trace w' = trace w).
Proof.
  induction k as [|k IH]; intros i w; cbn [preordered_loop].
  - apply sat_ret. repeat split; auto. intros; lia.
  - apply sat_bind, sat_check; [|split; reflexivity].
    apply sat_bind, sat_get_mem. cbn [mem clock trace].
    destruct (Z.gtb_spec (mkqs_compare_tuple (sel (mem w) i) (sel (mem w) (i + 1)) state) 0)
      as [Hgt|Hle].
    + apply sat_ret. cbn [mem trace]. repeat split; auto; try discriminate.
      intros H. specialize (H i). lia.
    + eapply sat_weaken; [apply IH| |]; cbn [mem trace].
      * intros b w' (Hm & Ht & Hb). repeat split; auto.
        -- intros Hbt j Hj. destruct (Z.eq_dec j i) as [->|]; [exact Hle|].
           apply Hb; [exact Hbt|lia].
        -- intros H. apply Hb. intros j Hj. apply H. lia.
      * auto.
Qed.

Lemma strict_ordered_loop_spec (k : nat) (depth : Z) :
  forall (i : Z) (w : world),
    sat (strict_ordered_loop k i depth state) w
        (fun b w' =>
           mem w' = mem w /\ trace w' = trace w /\
           (b = true <->
            forall j, i <= j < i + Z.of_nat k ->
              mkqs_compare_datum (sel (mem w) j) (sel (mem w) (j + 1)) depth state < 0))
        (fun w' => mem w' = mem w /\ trace w' = trace w).
Proof.
  induction k as [|k IH]; intros i w; cbn [strict_ordered_loop].
  - apply sat_ret. repeat split; auto. intros; lia.
  - apply sat_bind, sat_check; [|split; reflexivity].
    apply sat_bind, sat_get_mem. cbn [mem clock trace].
    destruct (Z.geb_spec (mkqs_compare_datum (sel (mem w) i) (sel (mem w) (i + 1))
                            depth state) 0) as [Hge|Hlt].
    + apply sat_ret. cbn [mem trace]. repeat split; auto; try discriminate.
      intros H. specialize (H i). lia.
    + eapply sat_weaken; [apply IH| |]; cbn [mem trace].
      * intros b w' (Hm & Ht & Hb). repeat split; auto.
        -- intros Hbt j Hj. destruct (Z.eq_dec j i) as [->|]; [exact Hlt|].
           apply Hb; [exact Hbt|lia].
        -- intros H. apply Hb. intros j Hj. apply H. lia.
      * auto.
Qed.

(** The pre-ordered check leaves the array alone; when it answers [true]
    the array is ordered in the sense of the check that ran. *)
Lemma pre_ordered_check_spec (n depth : Z) (w : world) :
  Z.of_nat (length (mem w)) = n ->
  sat (pre_ordered_check n depth state) w
      (fun b w' =>
         mem w' = mem w /\ trace w' = trace w /\
         (b = true <->
          if is_generic (mkqsCompFuncType state) then
            forall j, 0 <= j < n - 1 ->
              mkqs_compare_datum (sel (mem w) j) (sel (mem w) (j + 1)) depth state < 0
          else
            depth = 0 /\
            forall j, 0 <= j < n - 1 ->
              mkqs_compare_tuple (sel (mem w) j) (sel (mem w) (j + 1)) state <= 0))
      (fun w' => mem w' = mem w /\ trace w' = trace w).
Proof.
  intros Hn. unfold pre_ordered_check.
  destruct (is_generic (mkqsCompFuncType state)); cbn [negb].
  - eapply sat_weaken; [apply strict_ordered_loop_spec| |]; cbn beta; auto.
    intros b w' (Hm & Ht & Hb). repeat split; auto.
    + intros Hbt j Hj. apply Hb; [exact Hbt|lia].
    + intros H. apply Hb. intros j Hj. apply H. lia.
  - destruct (Z.eqb_spec depth 0) as [->|Hd].
    + eapply sat_weaken; [apply preordered_loop_spec| |]; cbn beta; auto.
      intros b w' (Hm & Ht & Hb). repeat split; auto.
      * intros j Hj. apply Hb; [assumption|lia].
      * intros [_ H]. apply Hb. intros j Hj. apply H. lia.
    + apply sat_ret. repeat split; auto; try discriminate. intros [? _]. contradiction.
Qed.

Lemma length_insert_down (k : nat) (l depth : Z) (x : list SortTuple) :
  length (insert_down k l depth state x) = length x.
Proof.
  revert l x; induction k as [|k IH]; intros l x; cbn [insert_down]; [reflexivity|].
  destruct (l >? 0); [|reflexivity].
  destruct (_ <=? 0); [reflexivity|].
  now rewrite IH, length_mkqs_swap.
Qed.

Lemma Permutation_insert_down (k : nat) (l depth : Z) (x : list SortTuple) :
  l < Z.of_nat (length x) ->
  Permutation x (insert_down k l depth state x).
Proof.
  revert l x; induction k as [|k IH]; intros l x Hl; cbn [insert_down]; [reflexivity|].
  destruct (Z.gtb_spec l 0); [|reflexivity].
  destruct (_ <=? 0); [reflexivity|].
  etransitivity; [|apply IH; rewrite length_mkqs_swap; lia].
  symmetry. apply Permutation_mkqs_swap; lia.
Qed.

Lemma Permutation_small_sort (n depth : Z) (x : list SortTuple) :
  n <= Z.of_nat (length x) ->
  Permutation x (small_sort n depth state x).
Proof.
  unfold small_sort. intros Hn.
  assert (H : forall k m y, 0 <= m -> m + Z.of_nat k <= Z.of_nat (length y) ->
                            Permutation y (insertion_loop k m depth state y)).
  { induction k as [|k IH]; intros m y Hm Hy; cbn [insertion_loop]; [reflexivity|].
    etransitivity; [apply (Permutation_insert_down (Z.to_nat m) m depth y); lia|].
    apply IH; [lia|]. rewrite length_insert_down. lia. }
  apply H; lia.
Qed.

End Driver.


Lemma slice_first (l r : list SortTuple) (len : Z) :
  len = Z.of_nat (length l) -> slice 0 len (l ++ r) = l.
Proof.
  intros H. apply (slice_app [] l r 0 len); [reflexivity|exact H].
Qed.

Lemma splice_first (l r y : list SortTuple) (len : Z) :
  len = Z.of_nat (length l) -> splice 0 len y (l ++ r) = y ++ r.
Proof.
  intros H. apply (splice_app [] l r y 0 len); [reflexivity|exact H].
Qed.

Lemma slice_last (p g : list SortTuple) (off len : Z) :
  off = Z.of_nat (length p) -> len = Z.of_nat (length g) ->
  slice off len (p ++ g) = g.
Proof.
  intros Ho Hl. rewrite <- (app_nil_r g) at 1. now apply slice_app.
Qed.

Lemma splice_last (p g y : list SortTuple) (off len : Z) :
  off = Z.of_nat (length p) -> len = Z.of_nat (length g) ->
  splice off len y (p ++ g) = p ++ y.
Proof.
  intros Ho Hl. rewrite <- (app_nil_r g) at 1.
  rewrite (splice_app p g [] y off len Ho Hl). now rewrite app_nil_r.
Qed.

Lemma slice_whole (l : list SortTuple) (len : Z) :
  len = Z.of_nat (length l) -> slice 0 len l = l.
Proof.
  intros H. rewrite <- (app_nil_r l) at 1. now apply slice_first.
Qed.

Lemma splice_whole (l y : list SortTuple) (len : Z) :
  len = Z.of_nat (length l) -> splice 0 len y l = y.
Proof.
  intros H. rewrite <- (app_nil_r l) at 1.
  rewrite (splice_first l [] y len H). apply app_nil_r.
Qed.

(** A slice cut at the sizes of the three parts is the three parts in a
    row. *)
Lemma three_parts (x : list SortTuple) (a e g : Z) :
  0 <= a -> 0 <= e -> 0 <= g -> a + e + g = Z.of_nat (length x) ->
  x = slice 0 a x ++ slice a e x ++ slice (a + e) g x.
Proof.
  intros Ha He Hg Hx.
  rewrite (slice_decompose a e x) at 1 by lia.
  assert (H1 : firstn (Z.to_nat a) x = slice 0 a x) by reflexivity.
  assert (H2 : skipn (Z.to_nat a + Z.to_nat e) x = slice (a + e) g x).
  { unfold slice.
    replace (Z.to_nat (a + e)) with (Z.to_nat a + Z.to_nat e)%nat by lia.
    symmetry. apply firstn_all2. rewrite length_skipn. lia. }
  now rewrite H1, H2.
Qed.

Section DriverStructure.

Context {ops : Collaborators}.
Variable state : Tuplesortstate.

(** The rule for the three calls after the partition: it is enough to
    follow the three parts [l], [e], [g] one after the other, each in a world
    of its own. *)
Lemma sat_recurse_parts
    (rec : Z -> Z -> Tuplesortstate -> bool -> M unit)
    (n depth : Z) (seenNull : bool) (c : Cursors)
    (l e g : list SortTuple) (clk : nat) (tr : list DupCall)
    (Q : unit -> world -> Prop) (E : world -> Prop) :
  Z.of_nat (length l) = less_size c ->
  Z.of_nat (length e) = equal_size n c ->
  Z.of_nat (length g) = greater_size c ->
  less_size c + equal_size n c + greater_size c = n ->
  1 <= equal_size n c ->
  sat (rec (less_size c) depth state seenNull) (mkWorld l clk tr)
      (fun _ w1 =>
         length (mem w1) = length l /\
         sat (on_equal_part rec (equal_size n c) depth state
                (seenNull || check_datum_null (sel e 0) depth state))
             (mkWorld e (clock w1) (trace w1))
             (fun _ w2 =>
                length (mem w2) = length e /\
                sat (rec (greater_size c) depth state seenNull)
                    (mkWorld g (clock w2) (trace w2))
                    (fun _ w3 =>
                       Q tt (mkWorld (mem w1 ++ mem w2 ++ mem w3)
                                     (clock w3) (trace w3)))
                    (fun w3 =>
                       E (mkWorld (mem w1 ++ mem w2 ++ mem w3)
                                  (clock w3) (trace w3))))
             (fun w2 => E (mkWorld (mem w1 ++ mem w2 ++ g) (clock w2) (trace w2))))
      (fun w1 => E (mkWorld (mem w1 ++ e ++ g) (clock w1) (trace w1))) ->
  sat (recurse_parts rec n depth state seenNull c)
      (mkWorld (l ++ e ++ g) clk tr) Q E.
Proof.
  intros Hl He Hg Hsum Hpos H.
  unfold recurse_parts.
  apply sat_bind, sat_at_slice. cbn [mem clock trace].
  rewrite slice_first by lia.
  eapply sat_weaken; [exact H| |]; cbn beta.
  2:{ intros w1 HE. now rewrite splice_first by lia. }
  intros [] w1 [Hl1 Hmid]. rewrite splice_first by lia.
  apply sat_bind, sat_get_mem. cbn [mem clock trace].
  replace (sel (mem w1 ++ e ++ g) (less_size c)) with (sel e 0).
  2:{ rewrite sel_app_r by lia. rewrite sel_app_l by lia. f_equal. lia. }
  set (flag := seenNull || check_datum_null (sel e 0) depth state) in *.
  apply sat_bind.
  assert (Hlast : forall w2,
            length (mem w2) = length e /\
            sat (rec (greater_size c) depth state seenNull)
              (mkWorld g (clock w2) (trace w2))
              (fun _ w3 => Q tt (mkWorld (mem w1 ++ mem w2 ++ mem w3) (clock w3) (trace w3)))
              (fun w3 => E (mkWorld (mem w1 ++ mem w2 ++ mem w3) (clock w3) (trace w3))) ->
            sat (at_slice (n - greater_size c) (greater_size c)
                   (rec (greater_size c) depth state seenNull))
              (mkWorld (mem w1 ++ mem w2 ++ g) (clock w2) (trace w2)) Q E).
  { intros w2 [Hl2 Hg2]. apply sat_at_slice. cbn [mem clock trace].
    rewrite app_assoc.
    rewrite slice_last by (rewrite ?length_app; lia).
    eapply sat_weaken; [exact Hg2| |]; cbn beta.
    - intros [] w3 HQ. rewrite splice_last by (rewrite ?length_app; lia).
      now rewrite <- app_assoc.
    - intros w3 HE. rewrite splice_last by (rewrite ?length_app; lia).
      now rewrite <- app_assoc. }
  unfold on_equal_part in Hmid.
  destruct (depth <? nKeys state - 1).
  - apply sat_at_slice. cbn [mem clock trace].
    rewrite slice_app by lia.
    eapply sat_weaken; [exact Hmid| |]; cbn beta.
    + intros [] w2 Hw2. rewrite splice_app by lia. now apply Hlast.
    + intros w2 HE. now rewrite splice_app by lia.
  - destruct (mkqsHandleDupFunc state) as [h|].
    + destruct (equal_size n c >? 1).
      * unfold sat, call_handler in *. cbn [mem clock trace] in *.
        rewrite slice_app by lia. rewrite slice_whole in Hmid by lia.
        destruct (h e (equal_size n c) flag) as [out raised].
        rewrite splice_app by lia. rewrite splice_whole in Hmid by lia.
        destruct raised; [exact Hmid|].
        exact (Hlast _ Hmid).
      * apply sat_ret. apply (Hlast (mkWorld e (clock w1) (trace w1))). exact Hmid.
    + apply sat_ret. apply (Hlast (mkWorld e (clock w1) (trace w1))). exact Hmid.
Qed.

End DriverStructure.


(** ** The sort only permutes, and it terminates *)

Section Permutes.

Context {ops : Collaborators}.
Variable state : Tuplesortstate.
Hypothesis handler_ok : handler_permutes state.

(** After the partition the array is the three parts in a row, each of the
    size the driver computes. *)
Lemma layout_parts (n depth : Z) (p : SortTuple) (c : Cursors) (x : list SortTuple) :
  three_way_layout n depth state p c x ->
  exists l e g,
    x = l ++ e ++ g /\
    Z.of_nat (length l) = less_size c /\
    Z.of_nat (length e) = equal_size n c /\
    Z.of_nat (length g) = greater_size c /\
    Forall (fun t => mkqs_compare_datum t p depth state < 0) l /\
    Forall (fun t => mkqs_compare_datum t p depth state = 0 \/ t = p) e /\
    Forall (fun t => mkqs_compare_datum t p depth state > 0) g.
Proof.
  intros (Hlen & Hsz & Hlt & Heq & Hgt).
  exists (slice 0 (less_size c) x), (slice (less_size c) (equal_size n c) x),
         (slice (less_size c + equal_size n c) (greater_size c) x).
  split; [apply three_parts; lia|].
  rewrite !length_slice by lia.
  repeat apply conj; try reflexivity; apply Forall_slice; try lia.
  - intros i Hi. apply Hlt. lia.
  - intros i Hi. apply Heq. lia.
  - intros i Hi. apply Hgt. lia.
Qed.

Lemma mk_qsort_tuple_permutes (fuel : nat) :
  forall (n depth : Z) (seenNull : bool) (w : world),
    Z.of_nat (length (mem w)) = n ->
    (Z.to_nat n + Z.to_nat (nKeys state - depth) < fuel)%nat ->
    sat (mk_qsort_tuple fuel n depth state seenNull) w
        (fun _ w' => Permutation (mem w) (mem w'))
        (fun w' => Permutation (mem w) (mem w')).
Proof.
  induction fuel as [|fuel IH]; intros n depth seenNull w Hn Hfuel; [lia|].
  rewrite mk_qsort_tuple_unfold.
  destruct (Z.leb_spec n 1) as [|Hn2]; [now apply sat_ret|].
  destruct (Z.eqb_spec depth (nKeys state)) as [|Hd]; [now apply sat_ret|].
  apply sat_bind, sat_check; [|reflexivity]. cbn [mem clock trace].
  apply sat_bind.
  eapply sat_weaken;
    [apply (pre_ordered_check_spec state n depth); exact Hn| |]; cbn [mem clock trace].
  2:{ intros w1 [Hm _]. now rewrite Hm. }
  intros ordered w1 (Hm & _ & _).
  destruct ordered; [apply sat_ret; now rewrite Hm|].
  destruct ((n <? 16) && negb (has_handler state)).
  { apply sat_modify_mem. cbn [mem]. rewrite Hm.
    apply Permutation_small_sort. lia. }
  apply sat_bind.
  eapply sat_weaken;
    [apply (partition_spec state n depth); [lia|rewrite Hm; exact Hn]| |]; cbn beta.
  2:{ intros w2 [Hp _]. now rewrite <- Hm. }
  intros c w2 [Hlay [Hp _]]. rewrite Hm in *.
  destruct (layout_parts _ _ _ _ _ Hlay) as (l & e & g & Hx & Hl & He & Hg & _).
  destruct Hlay as (Hlen & Hsz & _).
  destruct w2 as [x2 clk2 tr2]. cbn [mem] in *. subst x2.
  apply sat_recurse_parts; try lia.
  eapply sat_weaken; [apply (IH _ depth seenNull); cbn [mem]; lia| |];
    cbn [mem clock trace].
  2:{ intros w3 Hp3. rewrite Hp. now apply Permutation_app_tail. }
  intros [] w3 Hp3. split; [symmetry; now apply Permutation_length|].
  assert (Hmid :
    sat (on_equal_part (mk_qsort_tuple fuel) (equal_size n c) depth state
           (seenNull || check_datum_null (sel e 0) depth state))
        (mkWorld e (clock w3) (trace w3))
        (fun _ w4 => Permutation e (mem w4))
        (fun w4 => Permutation e (mem w4))).
  { unfold on_equal_part.
    destruct (Z.ltb_spec depth (nKeys state - 1)).
    - apply IH; cbn [mem]; lia.
    - destruct (mkqsHandleDupFunc state) as [h|] eqn:Eh; [|now apply sat_ret].
      destruct (equal_size n c >? 1); [|now apply sat_ret].
      apply sat_call_handler. cbn [mem]. intros w4 ->. cbn [mem].
      rewrite slice_whole, splice_whole by lia.
      split; now apply handler_ok. }
  eapply sat_weaken; [exact Hmid| |]; cbn [mem clock trace].
  2:{ intros w4 Hp4. rewrite Hp.
      apply Permutation_app; [assumption|]. now apply Permutation_app_tail. }
  intros [] w4 Hp4. split; [symmetry; now apply Permutation_length|].
  eapply sat_weaken; [apply (IH _ depth seenNull); cbn [mem]; lia| |];
    cbn [mem clock trace].
  - intros [] w5 Hp5. rewrite Hp. repeat apply Permutation_app; assumption.
  - intros w5 Hp5. rewrite Hp. repeat apply Permutation_app; assumption.
Qed.

(** C2: whatever way a call of [mk_qsort_tuple] ends -- it returns, or an
    interrupt or a handler error unwinds it at any of its check points -- the
    array then holds exactly the tuples of the input, rearranged: the sort
    only permutes. *)
Theorem mk_qsort_tuple_only_permutes (n depth : Z) (seenNull : bool) (w : world) :
  Z.of_nat (length (mem w)) = n ->
  match mk_qsort_tuple (enough_fuel n depth state) n depth state seenNull w with
  | Done _ w' => Permutation (mem w) (mem w')
  | Abort w' => Permutation (mem w) (mem w')
  | Diverge => False
  end.
Proof.
  intros Hn.
  apply (mk_qsort_tuple_permutes (enough_fuel n depth state) n depth seenNull w Hn).
  unfold enough_fuel. lia.
Qed.

(** C8: [mk_qsort_tuple] terminates.  A call with [n <= 1] or
    [depth = n_keys] returns at once; the parts a completed partition hands
    to the recursive calls have sizes [less <= n - 1], [greater <= n - 1] and
    [1 <= equal <= n], together [n]; the calls on the less and greater parts
    keep the depth, the call on the equal part is one key deeper, so each
    needs a strictly smaller recursion budget; and with the budget
    [enough_fuel], or any larger one, the call always ends. *)
Theorem mk_qsort_tuple_terminates (n depth : Z) (seenNull : bool) (w : world) :
  Z.of_nat (length (mem w)) = n ->
  (forall fuel, n <= 1 \/ depth = nKeys state ->
     mk_qsort_tuple (S fuel) n depth state seenNull w = Done tt w) /\
  (forall c w', partition n depth state w = Done c w' -> 2 <= n ->
     0 <= less_size c <= n - 1 /\ 0 <= greater_size c <= n - 1 /\
     1 <= equal_size n c <= n /\
     less_size c + equal_size n c + greater_size c = n /\
     (enough_fuel (less_size c) depth state < enough_fuel n depth state)%nat /\
     (enough_fuel (greater_size c) depth state < enough_fuel n depth state)%nat /\
     (depth < nKeys state - 1 ->
      (enough_fuel (equal_size n c) (depth + 1) state
       < enough_fuel n depth state)%nat)) /\
  (forall fuel, (enough_fuel n depth state <= fuel)%nat ->
     mk_qsort_tuple fuel n depth state seenNull w <> Diverge).
Proof.
  intros Hn. repeat apply conj.
  - intros fuel Hbase. rewrite mk_qsort_tuple_unfold.
    destruct (Z.leb_spec n 1); [reflexivity|].
    destruct (Z.eqb_spec depth (nKeys state)); [reflexivity|]. lia.
  - intros c w' Hrun Hn2.
    pose proof (partition_spec state n depth w ltac:(lia) Hn) as H.
    unfold sat in H. rewrite Hrun in H.
    destruct H as ((_ & Hsz & _) & _).
    unfold enough_fuel. repeat apply conj; lia.
  - intros fuel Hfuel Hdiv.
    pose proof (mk_qsort_tuple_permutes fuel n depth seenNull w Hn) as H.
    unfold sat in H. rewrite Hdiv in H. apply H.
    unfold enough_fuel in Hfuel. lia.
Qed.

End Permutes.

(** ** Order of the parts *)

Section Ordered.

Context {ops : Collaborators}.
Variable state : Tuplesortstate.
Hypothesis Hkeys : 0 < nKeys state.
Hypothesis Hcons : consistent state.

Lemma sel_cons (a : SortTuple) (x : list SortTuple) (i : Z) :
  0 <= i -> sel (a :: x) (i + 1) = sel x i.
Proof.
  intros Hi. unfold sel.
  destruct (Z.ltb_spec (i + 1) 0), (Z.ltb_spec i 0); try lia.
  now replace (Z.to_nat (i + 1)) with (S (Z.to_nat i)) by lia.
Qed.

Lemma ordered_from_Sorted (depth : Z) (x : list SortTuple) :
  ordered_from depth state x <-> Sorted (le_from state depth) x.
Proof.
  unfold ordered_from. induction x as [|a x IH].
  - split; [constructor|]. intros _ i Hi. cbn [length] in Hi. lia.
  - split.
    + intros H. constructor.
      * apply (proj1 IH). intros i Hi.
        specialize (H (i + 1)). cbn [length] in H.
        rewrite !sel_cons in H by lia. apply H. lia.
      * destruct x as [|b x]; constructor.
        specialize (H 0). cbn [length] in H.
        rewrite (sel_cons a (b :: x) 0) in H by lia. apply H. lia.
    + intros H i Hi. inversion H as [|? ? Hs Hh]; subst.
      destruct (Z.eq_dec i 0) as [->|Hi0].
      * destruct x as [|b x]; [cbn [length] in Hi; lia|].
        inversion Hh; subst. rewrite (sel_cons a (b :: x) 0) by lia. assumption.
      * replace (sel (a :: x) i) with (sel x (i - 1))
          by (rewrite <- sel_cons with (a := a) by lia; f_equal; lia).
        rewrite sel_cons by lia.
        replace i with (i - 1 + 1) at 2 by lia.
        apply (proj2 IH); [assumption|]. cbn [length] in Hi. lia.
Qed.

Lemma Sorted_app_cross (R : SortTuple -> SortTuple -> Prop) (l1 l2 : list SortTuple) :
  Sorted R l1 -> Sorted R l2 ->
  (forall a b, In a l1 -> In b l2 -> R a b) ->
  Sorted R (l1 ++ l2).
Proof.
  intros H1 H2 Hc. induction l1 as [|a l1 IH]; [exact H2|].
  inversion H1 as [|? ? Hs Hh]; subst. cbn [app]. constructor.
  - apply IH; [assumption|]. intros; apply Hc; [now right|assumption].
  - destruct l1 as [|b l1].
    + destruct l2 as [|b l2]; constructor. apply Hc; now left.
    + inversion Hh; subst. now constructor.
Qed.

Lemma range_of_first_key (depth : Z) (a b : SortTuple) :
  0 <= depth < nKeys state ->
  mkqs_compare_datum a b depth state < 0 ->
  mkqs_compare_tuple_by_range a b depth state < 0.
Proof.
  intros Hd H. rewrite range_lex by lia.
  rewrite lexicographic_compare_unfold by lia.
  destruct (Z.eqb_spec (mkqs_compare_datum a b depth state) 0); lia.
Qed.

Lemma range_of_next_key (depth : Z) (a b : SortTuple) :
  0 <= depth < nKeys state ->
  mkqs_compare_datum a b depth state = 0 ->
  mkqs_compare_tuple_by_range a b depth state =
  mkqs_compare_tuple_by_range a b (depth + 1) state.
Proof.
  intros Hd H. rewrite !range_lex_upto by lia.
  rewrite lexicographic_compare_unfold by lia. now rewrite H.
Qed.

Lemma range_total (depth : Z) (a b : SortTuple) :
  0 <= depth <= nKeys state ->
  ~ mkqs_compare_tuple_by_range a b depth state <= 0 ->
  mkqs_compare_tuple_by_range b a depth state <= 0.
Proof.
  intros Hd. rewrite !range_lex_upto by lia. apply lex_total; [assumption|lia].
Qed.

Lemma range_class_coherent (depth : Z) (a u v : SortTuple) :
  0 <= depth <= nKeys state ->
  mkqs_compare_tuple_by_range u a depth state = 0 ->
  mkqs_compare_tuple_by_range v a depth state = 0 ->
  mkqs_compare_tuple_by_range u v depth state <= 0.
Proof.
  intros Hd. rewrite !range_lex_upto by lia. intros Hu Hv.
  rewrite (lex_zero_trans state depth u a v); try lia; try assumption.
  apply lex_zero_sym; [assumption|lia|assumption].
Qed.

(** The three parts, each in order, make an ordered slice. *)
Lemma ordered_three_parts (depth : Z) (p : SortTuple) (l e g : list SortTuple) :
  0 <= depth < nKeys state ->
  Forall (fun t => mkqs_compare_datum t p depth state < 0) l ->
  Forall (fun t => mkqs_compare_datum t p depth state = 0) e ->
  Forall (fun t => mkqs_compare_datum t p depth state > 0) g ->
  ordered_from depth state l ->
  (depth < nKeys state - 1 -> ordered_from (depth + 1) state e) ->
  ordered_from depth state g ->
  ordered_from depth state (l ++ e ++ g).
Proof.
  intros Hd Hl He Hg Ol Oe Og.
  pose proof (Hcons depth Hd) as Hc.
  rewrite Forall_forall in Hl, He, Hg.
  rewrite ordered_from_Sorted in *.
  assert (Oe' : Sorted (le_from state depth) e).
  { apply ordered_from_Sorted. intros i Hi.
    assert (Hz : mkqs_compare_datum (sel e i) (sel e (i + 1)) depth state = 0).
    { apply (cmp_equal_class state depth _ _ p Hc); apply He, sel_In; lia. }
    rewrite range_of_next_key by assumption.
    destruct (Z.ltb_spec depth (nKeys state - 1)) as [Hlt|Hge].
    - specialize (Oe Hlt). rewrite <- ordered_from_Sorted in Oe. now apply Oe.
    - rewrite range_later_lex by lia. rewrite lexicographic_compare_end by lia. lia. }
  apply Sorted_app_cross; [assumption| |].
  - apply Sorted_app_cross; [assumption|assumption|].
    intros a b Ha Hb. unfold le_from.
    enough (mkqs_compare_tuple_by_range a b depth state < 0) by lia.
    apply range_of_first_key; [assumption|].
    apply (cmp_across state depth a b p Hc).
    + specialize (He a Ha). lia.
    + specialize (Hg b Hb). lia.
    + right. specialize (Hg b Hb). lia.
  - intros a b Ha Hb. unfold le_from.
    enough (mkqs_compare_tuple_by_range a b depth state < 0) by lia.
    apply range_of_first_key; [assumption|].
    specialize (Hl a Ha).
    apply (cmp_across state depth a b p Hc); try lia.
    apply in_app_or in Hb. destruct Hb as [Hb|Hb].
    + specialize (He b Hb). lia.
    + specialize (Hg b Hb). lia.
Qed.

End Ordered.


(** ** The sort orders the array *)

Section Sorts.

Context {ops : Collaborators}.
Variable state : Tuplesortstate.
Hypothesis Hvalid : valid_state state.

Let Hkeys : 0 < nKeys state.
Proof. destruct Hvalid. lia. Qed.

Lemma equal_part_refl (depth : Z) (p : SortTuple) (e : list SortTuple) :
  0 <= depth < nKeys state ->
  Forall (fun t => mkqs_compare_datum t p depth state = 0 \/ t = p) e ->
  Forall (fun t => mkqs_compare_datum t p depth state = 0) e.
Proof.
  intros Hd. apply Forall_impl. intros t [H| ->]; [exact H|].
  apply cmp_refl. now apply (valid_consistent _ Hvalid).
Qed.

Lemma pre_ordered_is_ordered (n depth : Z) (x : list SortTuple) :
  Z.of_nat (length x) = n -> 0 <= depth < nKeys state ->
  (if is_generic (mkqsCompFuncType state) then
     forall j, 0 <= j < n - 1 ->
       mkqs_compare_datum (sel x j) (sel x (j + 1)) depth state < 0
   else
     depth = 0 /\
     forall j, 0 <= j < n - 1 ->
       mkqs_compare_tuple (sel x j) (sel x (j + 1)) state <= 0) ->
  ordered_from depth state x.
Proof.
  intros Hn Hd H i Hi.
  destruct (is_generic (mkqsCompFuncType state)) eqn:Eg.
  - enough (mkqs_compare_tuple_by_range (sel x i) (sel x (i + 1)) depth state < 0) by lia.
    apply range_of_first_key; [assumption|]. apply H. lia.
  - destruct H as [-> H].
    pose proof (valid_full_compare _ Hvalid Eg (sel x i) (sel x (i + 1))) as Hag.
    specialize (H i ltac:(lia)). lia.
Qed.

Lemma mk_qsort_tuple_sorts (fuel : nat) :
  forall (n depth : Z) (seenNull : bool) (w : world),
    Z.of_nat (length (mem w)) = n ->
    0 <= depth <= nKeys state ->
    (Z.to_nat n + Z.to_nat (nKeys state - depth) < fuel)%nat ->
    sat (mk_qsort_tuple fuel n depth state seenNull) w
        (fun _ w' => Permutation (mem w) (mem w') /\
                     ordered_from depth state (mem w'))
        (fun _ => True).
Proof.
  induction fuel as [|fuel IH]; intros n depth seenNull w Hn Hdepth Hfuel; [lia|].
  rewrite mk_qsort_tuple_unfold.
  destruct (Z.leb_spec n 1) as [|Hn2].
  { apply sat_ret. split; [reflexivity|]. intros i Hi. lia. }
  destruct (Z.eqb_spec depth (nKeys state)) as [Hd|Hd].
  { apply sat_ret. split; [reflexivity|]. intros i Hi.
    rewrite range_later_lex by lia. rewrite lexicographic_compare_end by lia. lia. }
  apply sat_bind, sat_check; [|exact I]. cbn [mem clock trace].
  apply sat_bind.
  eapply sat_weaken;
    [apply (pre_ordered_check_spec state n depth); exact Hn| |]; cbn [mem clock trace].
  2:{ auto. }
  intros ordered w1 (Hm & _ & Hord).
  destruct ordered.
  { apply sat_ret. rewrite Hm. split; [reflexivity|].
    apply (pre_ordered_is_ordered n depth); [assumption|lia|]. now apply Hord. }
  destruct ((n <? 16) && negb (has_handler state)).
  { apply sat_modify_mem. cbn [mem]. rewrite Hm.
    destruct (small_sort_sorted state depth) with (n := n) (x := mem w)
      as (_ & Hp & Hs); [|assumption|now split].
    intros a b. apply range_total; [assumption|apply (valid_consistent _ Hvalid)|lia]. }
  apply sat_bind.
  eapply sat_weaken;
    [apply (partition_spec state n depth); [lia|rewrite Hm; exact Hn]| |]; cbn beta.
  2:{ auto. }
  intros c w2 [Hlay [Hp _]]. rewrite Hm in *.
  destruct (layout_parts _ _ _ _ _ _ Hlay) as (l & e & g & Hx & Hl & He & Hg & Fl & Fe & Fg).
  apply equal_part_refl in Fe; [|lia].
  destruct Hlay as (Hlen & Hsz & _).
  destruct w2 as [x2 clk2 tr2]. cbn [mem] in *. subst x2.
  apply sat_recurse_parts; try lia.
  eapply sat_weaken; [apply (IH _ depth seenNull); cbn [mem]; lia| |];
    cbn [mem clock trace]; [|auto].
  intros [] w3 [Hp3 Ho3]. split; [symmetry; now apply Permutation_length|].
  assert (Hmid :
    sat (on_equal_part (mk_qsort_tuple fuel) (equal_size n c) depth state
           (seenNull || check_datum_null (sel e 0) depth state))
        (mkWorld e (clock w3) (trace w3))
        (fun _ w4 => Permutation e (mem w4) /\
                     (depth < nKeys state - 1 ->
                      ordered_from (depth + 1) state (mem w4)))
        (fun _ => True)).
  { unfold on_equal_part.
    destruct (Z.ltb_spec depth (nKeys state - 1)).
    - eapply sat_weaken; [apply IH; cbn [mem]; lia| |]; cbn beta; [|auto].
      intros [] w4 [? ?]. auto.
    - destruct (mkqsHandleDupFunc state) as [h|] eqn:Eh.
      2:{ apply sat_ret. split; [reflexivity|lia]. }
      destruct (equal_size n c >? 1).
      2:{ apply sat_ret. split; [reflexivity|lia]. }
      apply sat_call_handler. cbn [mem]. intros w4 ->. cbn [mem].
      rewrite slice_whole, splice_whole by lia.
      split; [|exact I]. split; [|lia].
      now apply (valid_handler _ Hvalid). }
  eapply sat_weaken; [exact Hmid| |]; cbn [mem clock trace]; [|auto].
  intros [] w4 [Hp4 Ho4]. split; [symmetry; now apply Permutation_length|].
  eapply sat_weaken; [apply (IH _ depth seenNull); cbn [mem]; lia| |];
    cbn [mem clock trace]; [|auto].
  intros [] w5 [Hp5 Ho5]. split.
  - rewrite Hp. repeat apply Permutation_app; assumption.
  - apply (ordered_three_parts state Hkeys (valid_consistent _ Hvalid) depth
             (sel (mem w) (select_pivot n depth state (mem w)))); try assumption; try lia.
    + eapply Permutation_Forall; eassumption.
    + eapply Permutation_Forall; eassumption.
    + eapply Permutation_Forall; eassumption.
Qed.

(** C1: for a valid state (at least two keys, comparators that are total
    preorders, a full-tuple comparator that agrees with the keys, a handler
    that only rearranges), a completed call
    [mk_qsort_tuple(x, n, 0, state, false)] leaves the array in
    non-decreasing order of the lexicographic order of the sort keys:
    [x[i] <=_K x[i+1]] for all [i < n - 1]. *)
Theorem mk_qsort_tuple_orders (x : list SortTuple) (w' : world) :
  sort_memtuples state x = Done tt w' ->
  forall i, 0 <= i < Z.of_nat (length x) - 1 ->
    lexicographic_compare (sel (mem w') i) (sel (mem w') (i + 1)) 0 state <= 0.
Proof.
  intros Hrun i Hi. unfold sort_memtuples in Hrun.
  pose proof (mk_qsort_tuple_sorts
                (enough_fuel (Z.of_nat (length x)) 0 state)
                (Z.of_nat (length x)) 0 false (mkWorld x 0 [])) as H.
  unfold sat in H. rewrite Hrun in H.
  destruct H as [Hp Ho]; [reflexivity|lia|unfold enough_fuel; lia|].
  cbn [mem] in Hp.
  rewrite <- range_lex by lia. apply Ho.
  rewrite <- (Permutation_length Hp). exact Hi.
Qed.

End Sorts.


(** ** Stability of the small-N path *)

Section SmallPath.

Context {ops : Collaborators}.
Variable state : Tuplesortstate.

(** C10: when the small-N path is open ([1 < n < 16], no duplicate
    handler), the call keeps tuples that compare equal on all keys from the
    current depth on in their original relative order, however it ends: the
    array is left as it was or as the insertion sort leaves it, and that
    sort exchanges two neighbours only when the left one compares strictly
    greater by [mkqs_compare_tuple_by_range]. *)
Theorem small_path_is_stable (n depth : Z) (seenNull : bool) (w : world)
    (fuel : nat) :
  consistent state -> 0 < nKeys state -> 0 <= depth <= nKeys state ->
  1 < n < 16 -> has_handler state = false ->
  Z.of_nat (length (mem w)) = n ->
  (forall k l x,
     mkqs_compare_tuple_by_range (sel x (l - 1)) (sel x l) depth state <= 0 ->
     insert_down k l depth state x = x) /\
  match mk_qsort_tuple (S fuel) n depth state seenNull w with
  | Done _ w' | Abort w' =>
      (mem w' = mem w \/ mem w' = small_sort n depth state (mem w)) /\
      forall a, equal_class depth state a (mem w') =
                equal_class depth state a (mem w)
  | Diverge => False
  end.
Proof.
  intros Hcons Hkeys Hdepth Hn Hh Hlen. split.
  { intros k l x Hle. destruct k as [|k]; cbn [insert_down]; [reflexivity|].
    destruct (l >? 0); [|reflexivity].
    destruct (Z.leb_spec (mkqs_compare_tuple_by_range (sel x (l - 1)) (sel x l)
                            depth state) 0); [reflexivity|lia]. }
  assert (Hstable : forall a, equal_class depth state a (small_sort n depth state (mem w)) =
                              equal_class depth state a (mem w)).
  { intros a. apply small_sort_stable; [|assumption].
    intros b u v. now apply range_class_coherent. }
  enough (H : sat (mk_qsort_tuple (S fuel) n depth state seenNull) w
                (fun _ w' => (mem w' = mem w \/
                              mem w' = small_sort n depth state (mem w)) /\
                             forall a, equal_class depth state a (mem w') =
                                       equal_class depth state a (mem w))
                (fun w' => (mem w' = mem w \/
                            mem w' = small_sort n depth state (mem w)) /\
                           forall a, equal_class depth state a (mem w') =
                                     equal_class depth state a (mem w))).
  { unfold sat in H. destruct (mk_qsort_tuple _ _ _ _ _ _); exact H. }
  rewrite mk_qsort_tuple_unfold.
  destruct (Z.leb_spec n 1); [lia|].
  destruct (Z.eqb_spec depth (nKeys state)).
  { apply sat_ret. auto. }
  apply sat_bind, sat_check; [|cbn [mem]; auto].
  apply sat_bind.
  eapply sat_weaken;
    [apply (pre_ordered_check_spec state n depth); exact Hlen| |]; cbn [mem clock trace].
  2:{ intros w1 [-> _]. auto. }
  intros ordered w1 (Hm & _ & _).
  destruct ordered; [apply sat_ret; rewrite Hm; auto|].
  destruct (Z.ltb_spec n 16); [|lia]. rewrite Hh. cbn [andb negb].
  apply sat_modify_mem. cbn [mem]. rewrite Hm. auto.
Qed.

End SmallPath.


(** ** The flag handed to the duplicate handler *)

Lemma In_depths_from (a b j : Z) :
  In j (depths_from a b) <-> a <= j < b.
Proof.
  unfold depths_from. rewrite in_map_iff. split.
  - intros (k & <- & Hk). apply in_seq in Hk. lia.
  - intros Hj. exists (Z.to_nat (j - a)). split; [lia|].
    apply in_seq. lia.
Qed.

Lemma depths_from_snoc (a b : Z) :
  a <= b -> depths_from a (b + 1) = depths_from a b ++ [b].
Proof.
  intros Hab. unfold depths_from.
  replace (Z.to_nat (b + 1 - a)) with (S (Z.to_nat (b - a))) by lia.
  rewrite seq_S, map_app. cbn [map Nat.add]. do 2 f_equal. lia.
Qed.

Section SeenNull.

Context {ops : Collaborators}.
Variable state : Tuplesortstate.
Hypothesis handler_ok : handler_permutes state.
Hypothesis nulls_ok : nulls_distinguished state.

Lemma null_upto_step (t : SortTuple) (d : Z) :
  0 <= d ->
  null_upto state t (d + 1) = null_upto state t d || check_datum_null t d state.
Proof.
  intros Hd. unfold null_upto. rewrite depths_from_snoc by lia.
  rewrite existsb_app. cbn [existsb]. now rewrite orb_false_r.
Qed.

Lemma mk_qsort_tuple_flags (fuel : nat) :
  forall (n depth : Z) (seenNull : bool) (w : world),
    Z.of_nat (length (mem w)) = n ->
    0 <= depth <= nKeys state ->
    (Z.to_nat n + Z.to_nat (nKeys state - depth) < fuel)%nat ->
    (forall t, In t (mem w) -> seenNull = null_upto state t depth) ->
    sat (mk_qsort_tuple fuel n depth state seenNull) w
        (fun _ w' => exists new, trace w' = trace w ++ new /\
                                 Forall (flag_covers_all_keys state) new)
        (fun w' => exists new, trace w' = trace w ++ new /\
                               Forall (flag_covers_all_keys state) new).
Proof.
  induction fuel as [|fuel IH]; intros n depth seenNull w Hn Hdepth Hfuel Hflag; [lia|].
  assert (Hnil : forall w', trace w' = trace w ->
            exists new, trace w' = trace w ++ new /\
                        Forall (flag_covers_all_keys state) new).
  { intros w' Ht. exists []. now rewrite app_nil_r. }
  rewrite mk_qsort_tuple_unfold.
  destruct (Z.leb_spec n 1) as [|Hn2]; [apply sat_ret; now apply Hnil|].
  destruct (Z.eqb_spec depth (nKeys state)) as [|Hd]; [apply sat_ret; now apply Hnil|].
  apply sat_bind, sat_check; [|now apply Hnil]. cbn [mem clock trace].
  apply sat_bind.
  eapply sat_weaken;
    [apply (pre_ordered_check_spec state n depth); exact Hn| |]; cbn [mem clock trace].
  2:{ intros w1 [_ Ht]. now apply Hnil. }
  intros ordered w1 (Hm & Ht & _).
  destruct ordered; [apply sat_ret; now apply Hnil|].
  destruct ((n <? 16) && negb (has_handler state)).
  { apply sat_modify_mem. now apply Hnil. }
  apply sat_bind.
  eapply sat_weaken;
    [apply (partition_spec state n depth); [lia|rewrite Hm; exact Hn]| |]; cbn beta.
  2:{ intros w2 [_ Ht2]. apply Hnil. congruence. }
  intros c w2 [Hlay [Hp Ht2]]. rewrite Hm in *.
  destruct (layout_parts _ _ _ _ _ _ Hlay) as (l & e & g & Hx & Hl & He & Hg & Fl & Fe & Fg).
  destruct Hlay as (Hlen & Hsz & _).
  destruct w2 as [x2 clk2 tr2]. cbn [mem trace] in *. subst x2.
  rewrite Ht in Ht2.
  assert (Hin : forall t, In t (l ++ e ++ g) -> seenNull = null_upto state t depth).
  { intros t Ht'. apply Hflag. eapply Permutation_in; [symmetry; exact Hp|exact Ht']. }
  rewrite Forall_forall in Fe.
  set (p := sel (mem w) (select_pivot n depth state (mem w))) in *.
  assert (Hnull : forall t, In t e ->
            check_datum_null t depth state = check_datum_null p depth state).
  { intros t Hte. destruct (Fe t Hte) as [Hz| ->]; [|reflexivity].
    apply nulls_ok; [lia|exact Hz]. }
  assert (He0 : In (sel e 0) e) by (apply sel_In; lia).
  apply sat_recurse_parts; try lia.
  eapply sat_weaken;
    [apply sat_and;
       [apply (IH _ depth seenNull); cbn [mem]; try lia;
        intros t Hti; apply Hin, in_or_app; now left
       |apply (mk_qsort_tuple_permutes state handler_ok fuel _ depth seenNull);
        cbn [mem]; lia]
    | |]; cbn [mem clock trace].
  2:{ intros w3 [(new & Hnew & Hgood) _]. exists new. split; congruence. }
  intros [] w3 [(newl & Hnewl & Hgl) Hp3].
  split; [symmetry; now apply Permutation_length|].
  assert (Hmid :
    sat (on_equal_part (mk_qsort_tuple fuel) (equal_size n c) depth state
           (seenNull || check_datum_null (sel e 0) depth state))
        (mkWorld e (clock w3) (trace w3))
        (fun _ w4 => length (mem w4) = length e /\
                     exists new, trace w4 = trace w3 ++ new /\
                                 Forall (flag_covers_all_keys state) new)
        (fun w4 => exists new, trace w4 = trace w3 ++ new /\
                               Forall (flag_covers_all_keys state) new)).
  { assert (Hflag' : forall t, In t e ->
              seenNull || check_datum_null (sel e 0) depth state =
              null_upto state t (depth + 1)).
    { intros t Hte. rewrite null_upto_step by lia.
      rewrite <- (Hin t) by (apply in_or_app; right; apply in_or_app; now left).
      now rewrite (Hnull t Hte), (Hnull _ He0). }
    unfold on_equal_part.
    destruct (Z.ltb_spec depth (nKeys state - 1)).
    - eapply sat_weaken;
        [apply sat_and;
           [apply IH; cbn [mem]; try lia; exact Hflag'
           |apply (mk_qsort_tuple_permutes state handler_ok fuel);
            cbn [mem]; lia]
        | |]; cbn [mem clock trace].
      + intros [] w4 [Hg4 Hp4]. split; [symmetry; now apply Permutation_length|exact Hg4].
      + intros w4 [Hg4 _]. exact Hg4.
    - destruct (mkqsHandleDupFunc state) as [h|] eqn:Eh.
      2:{ apply sat_ret. split; [reflexivity|]. exists []. now rewrite app_nil_r. }
      destruct (equal_size n c >? 1).
      2:{ apply sat_ret. split; [reflexivity|]. exists []. now rewrite app_nil_r. }
      apply sat_call_handler. cbn [mem trace]. intros w4 ->. cbn [mem trace].
      rewrite slice_whole, splice_whole by lia.
      assert (Hcall : exists new,
                trace w3 ++ [mkDupCall e (equal_size n c)
                               (seenNull || check_datum_null (sel e 0) depth state)
                               depth] = trace w3 ++ new /\
                Forall (flag_covers_all_keys state) new).
      { eexists. split; [reflexivity|]. constructor; [|constructor].
        split; cbn [dup_slice dup_seenNull].
        - intros ->. cbn [length] in He. lia.
        - intros t Hte. rewrite (Hflag' t Hte). f_equal. lia. }
      split; [split|]; try exact Hcall.
      symmetry. apply Permutation_length. now apply handler_ok. }
  eapply sat_weaken; [exact Hmid| |]; cbn [mem clock trace].
  2:{ intros w4 (newe & Hnewe & Hge). exists (newl ++ newe).
      split; [rewrite Hnewe, Hnewl, Ht2; now rewrite app_assoc|].
      apply Forall_app; now split. }
  intros [] w4 (Hlen4 & newe & Hnewe & Hge). split; [exact Hlen4|].
  eapply sat_weaken;
    [apply (IH _ depth seenNull); cbn [mem]; try lia;
     intros t Hti; apply Hin, in_or_app; right; apply in_or_app; now right
    | |]; cbn [mem clock trace].
  - intros [] w5 (newg & Hnewg & Hgg). exists (newl ++ newe ++ newg).
    split; [rewrite Hnewg, Hnewe, Hnewl, Ht2; now rewrite !app_assoc|].
    repeat (apply Forall_app; split); assumption.
  - intros w5 (newg & Hnewg & Hgg). exists (newl ++ newe ++ newg).
    split; [rewrite Hnewg, Hnewe, Hnewl, Ht2; now rewrite !app_assoc|].
    repeat (apply Forall_app; split); assumption.
Qed.

(** C4, as the code has it: for every call of the duplicate handler made by
    a sort started as [mk_qsort_tuple(x, n, 0, state, false)], whether the
    sort then completes or unwinds, the [seenNull] argument is true if and
    only if at least one of all the [n_keys] keys -- depths
    [0 .. n_keys - 1], the deepest key included -- is NULL in the tuples of
    the run. *)
Theorem seen_null_covers_all_keys (x : list SortTuple) :
  0 <= nKeys state ->
  match sort_memtuples state x with
  | Done _ w' | Abort w' =>
      forall c, In c (trace w') ->
        (dup_seenNull c = true <-> null_at_some_key state (dup_slice c))
  | Diverge => False
  end.
Proof.
  intros Hkeys.
  pose proof (mk_qsort_tuple_flags
                (enough_fuel (Z.of_nat (length x)) 0 state)
                (Z.of_nat (length x)) 0 false (mkWorld x 0 [])) as H.
  unfold sat in H. unfold sort_memtuples.
  assert (Hgoal : forall w', (exists new, trace w' = [] ++ new /\
                                Forall (flag_covers_all_keys state) new) ->
            forall c, In c (trace w') ->
              (dup_seenNull c = true <-> null_at_some_key state (dup_slice c))).
  { intros w' (new & Hnew & Hgood) c Hc. cbn [app] in Hnew. rewrite Hnew in Hc.
    rewrite Forall_forall in Hgood. destruct (Hgood c Hc) as [Hne Hall].
    split.
    - intros Htrue. destruct (dup_slice c) as [|t rest] eqn:Es; [contradiction|].
      specialize (Hall t (or_introl eq_refl)). rewrite Htrue in Hall.
      symmetry in Hall. unfold null_upto in Hall.
      apply existsb_exists in Hall. destruct Hall as (d & Hd & Hnull).
      apply In_depths_from in Hd. exists t, d. repeat split; try lia; auto.
      now left.
    - intros (t & d & Ht & Hd & Hnull). rewrite (Hall t Ht).
      unfold null_upto. apply existsb_exists. exists d. split; [|exact Hnull].
      apply In_depths_from. lia. }
  destruct (mk_qsort_tuple _ _ _ _ _ _);
    [apply Hgoal, H|apply Hgoal, H|apply H]; cbn [mem];
    first [reflexivity | lia | (unfold enough_fuel; lia) | (intros; reflexivity)].
Qed.

End SeenNull.


(** ** Sorting twice *)

Section SortedUnique.

Variable R : SortTuple -> SortTuple -> Prop.
Hypothesis R_refl : forall a, R a a.
Hypothesis R_trans : forall a b c, R a b -> R b c -> R a c.

Let eqv (a b : SortTuple) : Prop := R a b /\ R b a.

Lemma Forall2_In_l (l1 l2 : list SortTuple) (a : SortTuple) :
  Forall2 eqv l1 l2 -> In a l1 -> exists b, In b l2 /\ eqv a b.
Proof.
  induction 1 as [|x y l1 l2 Hxy _ IH]; intros Hin; [contradiction|].
  destruct Hin as [->|Hin].
  - exists y. split; [now left|assumption].
  - destruct (IH Hin) as (b & Hb & Hab). exists b. split; [now right|assumption].
Qed.

(** Two ordered lists that hold the same tuples up to [eqv] agree position
    by position up to [eqv]. *)
Lemma sorted_same_tuples (l1 : list SortTuple) :
  forall l2, Sorted R l1 -> Sorted R l2 ->
    (exists l', Permutation l1 l' /\ Forall2 eqv l' l2) ->
    Forall2 eqv l1 l2.
Proof.
  induction l1 as [|a r1 IH]; intros l2 S1 S2 (l' & Hp & Hf).
  - apply Permutation_nil in Hp. subst l'. inversion Hf. constructor.
  - destruct l' as [|c s].
    { apply Permutation_sym, Permutation_nil in Hp. discriminate. }
    inversion Hf as [|? b ? r2 Hcb Hsr]; subst.
    assert (T : Relations_1.Transitive R) by (intros x y z; apply R_trans).
    apply Sorted_StronglySorted in S1; [|exact T].
    apply Sorted_StronglySorted in S2; [|exact T].
    inversion S1 as [|? ? S1' F1]; subst. inversion S2 as [|? ? S2' F2]; subst.
    rewrite Forall_forall in F1, F2.
    assert (Hab : eqv a b).
    { split.
      - assert (Hc : In c (a :: r1)).
        { eapply Permutation_in; [symmetry; exact Hp|now left]. }
        apply R_trans with c; [|apply Hcb].
        destruct Hc as [->|Hc]; [apply R_refl|now apply F1].
      - assert (Ha : In a (c :: s)).
        { eapply Permutation_in; [exact Hp|now left]. }
        destruct Ha as [->|Ha]; [apply Hcb|].
        destruct (Forall2_In_l _ _ _ Hsr Ha) as (b' & Hb' & Hab').
        apply R_trans with b'; [now apply F2|apply Hab']. }
    constructor; [exact Hab|].
    apply IH; try (apply StronglySorted_Sorted; assumption).
    assert (Ha : In a (c :: s)).
    { eapply Permutation_in; [exact Hp|now left]. }
    destruct Ha as [->|Ha].
    + exists s. split; [now apply Permutation_cons_inv in Hp|assumption].
    + destruct (in_split _ _ Ha) as (s1 & s2 & ->).
      apply Forall2_app_inv_l in Hsr.
      destruct Hsr as (t1 & t2' & H1 & H2 & ->).
      inversion H2 as [|? a' ? t2 Haa' H2']; subst.
      exists (s1 ++ c :: s2). split.
      * apply Permutation_cons_inv with a.
        rewrite Hp. rewrite <- !Permutation_middle. apply perm_swap.
      * apply Forall2_app; [assumption|]. constructor; [|assumption].
        destruct Hab, Hcb, Haa'. split; eauto.
Qed.

End SortedUnique.

Section Twice.

Context {ops : Collaborators}.
Variable state : Tuplesortstate.
Hypothesis Hvalid : valid_state state.

Lemma sort_memtuples_sorts (x : list SortTuple) (w1 : world) :
  sort_memtuples state x = Done tt w1 ->
  Permutation x (mem w1) /\ ordered_from 0 state (mem w1).
Proof.
  intros Hrun. unfold sort_memtuples in Hrun.
  pose proof (mk_qsort_tuple_sorts state Hvalid
                (enough_fuel (Z.of_nat (length x)) 0 state)
                (Z.of_nat (length x)) 0 false (mkWorld x 0 [])) as H.
  unfold sat in H. rewrite Hrun in H. destruct Hvalid.
  apply H; [reflexivity|lia|unfold enough_fuel; lia].
Qed.

(** When the classic pre-ordered check is in use, a call on an array that
    is already in order returns from that check. *)
Lemma ordered_input_untouched (x : list SortTuple) (w' : world) :
  is_generic (mkqsCompFuncType state) = false ->
  ordered_from 0 state x ->
  sort_memtuples state x = Done tt w' ->
  mem w' = x.
Proof.
  intros Hkind Hord Hrun. unfold sort_memtuples in Hrun.
  enough (H : sat (mk_qsort_tuple (enough_fuel (Z.of_nat (length x)) 0 state)
                     (Z.of_nat (length x)) 0 state false) (mkWorld x 0 [])
                  (fun _ w' => mem w' = x) (fun _ => True)).
  { unfold sat in H. now rewrite Hrun in H. }
  unfold enough_fuel. rewrite mk_qsort_tuple_unfold.
  destruct (Z.leb_spec (Z.of_nat (length x)) 1); [now apply sat_ret|].
  destruct (Z.eqb_spec 0 (nKeys state)); [now apply sat_ret|].
  apply sat_bind, sat_check; [|exact I]. cbn [mem clock trace].
  apply sat_bind.
  eapply sat_weaken;
    [apply (pre_ordered_check_spec state (Z.of_nat (length x)) 0); reflexivity
    | |]; cbn [mem clock trace]; [|auto].
  intros ordered w1 (Hm & _ & Hiff). rewrite Hkind in Hiff.
  assert (ordered = true) as ->.
  { apply Hiff. split; [reflexivity|]. intros j Hj.
    pose proof (valid_full_compare _ Hvalid Hkind (sel x j) (sel x (j + 1))) as Hag.
    specialize (Hord j Hj). lia. }
  now apply sat_ret.
Qed.

(** C5, as the code has it: a second run on the output of a completed sort
    leaves every position with a tuple that compares equal on all keys to
    the one that was there, and when [leading_kind] is not GENERIC it leaves
    the array completely unchanged, tuples that compare equal on all keys
    included. *)
Theorem second_run_keeps_keys (x : list SortTuple) (w1 w2 : world) :
  sort_memtuples state x = Done tt w1 ->
  sort_memtuples state (mem w1) = Done tt w2 ->
  Forall2 (same_keys state) (mem w1) (mem w2) /\
  (is_generic (mkqsCompFuncType state) = false -> mem w2 = mem w1).
Proof.
  intros Hrun1 Hrun2.
  destruct (sort_memtuples_sorts x w1 Hrun1) as [Hp1 Ho1].
  destruct (sort_memtuples_sorts (mem w1) w2 Hrun2) as [Hp2 Ho2].
  pose proof (valid_consistent _ Hvalid) as Hcons.
  assert (Hkeys : 0 < nKeys state) by (destruct Hvalid; lia).
  split.
  - rewrite ordered_from_Sorted in Ho1, Ho2.
    assert (Hrefl : forall a, le_from state 0 a a).
    { intros a. unfold le_from. rewrite range_lex by lia.
      pose proof (lex_sym state 0 a a Hcons ltac:(lia)). lia. }
    assert (H : Forall2 (fun a b => le_from state 0 a b /\ le_from state 0 b a)
                        (mem w1) (mem w2)).
    { apply sorted_same_tuples; try assumption.
      - intros a b c. unfold le_from. rewrite !range_lex by lia.
        apply lex_trans; [assumption|lia].
      - exists (mem w2). split; [assumption|].
        generalize (mem w2). intros l. induction l as [|a l IH]; constructor; auto. }
    eapply Forall2_impl; [|exact H]. cbn beta.
    intros a b [Hab Hba]. unfold same_keys, le_from in *.
    rewrite range_lex in Hab, Hba by lia.
    pose proof (lex_sym state 0 a b Hcons ltac:(lia)).
    pose proof (lex_sym state 0 b a Hcons ltac:(lia)). lia.
  - intros Hkind. now apply (ordered_input_untouched (mem w1) w2).
Qed.

End Twice.


(** ** Runs of equal tuples and the duplicate handler *)

Lemma adjacent_Sorted (R : SortTuple -> SortTuple -> Prop) (x : list SortTuple) :
  (forall i, 0 <= i < Z.of_nat (length x) - 1 -> R (sel x i) (sel x (i + 1))) ->
  Sorted R x.
Proof.
  induction x as [|a x IH]; intros H; constructor.
  - apply IH. intros i Hi.
    specialize (H (i + 1)). cbn [length] in H.
    rewrite !sel_cons in H by lia. apply H. lia.
  - destruct x as [|b x]; constructor.
    specialize (H 0). cbn [length] in H.
    rewrite (sel_cons a (b :: x) 0) in H by lia. apply H. lia.
Qed.

Lemma Permutation_filter_same (f : SortTuple -> bool) (l l' : list SortTuple) :
  Permutation l l' -> Permutation (filter f l) (filter f l').
Proof.
  induction 1 as [|a l l' _ IH|a b l|l1 l2 l3 _ IH1 _ IH2]; cbn [filter].
  - constructor.
  - destruct (f a); [now constructor|assumption].
  - destruct (f a), (f b); try reflexivity. apply perm_swap.
  - etransitivity; eassumption.
Qed.

Lemma filter_none {A} (f : A -> bool) (l : list A) :
  (forall a, In a l -> f a = false) -> filter f l = [].
Proof.
  induction l as [|a l IH]; intros H; cbn [filter]; [reflexivity|].
  rewrite (H a (or_introl eq_refl)). apply IH. intros b Hb. apply H. now right.
Qed.

Lemma filter_all {A} (f : A -> bool) (l : list A) :
  (forall a, In a l -> f a = true) -> filter f l = l.
Proof.
  induction l as [|a l IH]; intros H; cbn [filter]; [reflexivity|].
  rewrite (H a (or_introl eq_refl)). f_equal. apply IH. intros b Hb. apply H. now right.
Qed.

Section Runs.

Context {ops : Collaborators}.
Variable state : Tuplesortstate.
Hypothesis Hkeys : 0 < nKeys state.
Hypothesis Hcons : consistent state.

Lemma range_zero_first_key (d : Z) (u t : SortTuple) :
  0 <= d < nKeys state ->
  mkqs_compare_tuple_by_range u t d state = 0 ->
  mkqs_compare_datum u t d state = 0.
Proof.
  intros Hd. rewrite range_lex by lia.
  rewrite lexicographic_compare_unfold by lia.
  destruct (Z.eqb_spec (mkqs_compare_datum u t d state) 0); lia.
Qed.

(** Tuples equal at a key stand on the same side of the pivot. *)
Lemma cmp_same_side (d : Z) (u t p : SortTuple) :
  0 <= d < nKeys state ->
  mkqs_compare_datum u t d state = 0 ->
  (mkqs_compare_datum u p d state < 0 <-> mkqs_compare_datum t p d state < 0) /\
  (mkqs_compare_datum u p d state > 0 <-> mkqs_compare_datum t p d state > 0).
Proof.
  intros Hd Hut. pose proof (Hcons d Hd) as Hc.
  pose proof (cmp_zero_sym state d u t Hc Hut) as Htu.
  assert (Hside : forall a b, mkqs_compare_datum a b d state = 0 ->
            mkqs_compare_datum a p d state < 0 ->
            mkqs_compare_datum b p d state < 0).
  { intros a b Hab Ha.
    destruct (Z_lt_le_dec (mkqs_compare_datum b p d state) 0) as [|Hb]; [assumption|].
    destruct (cmp_across state d a b p Hc) as [_ H]; try lia. }
  assert (Hside' : forall a b, mkqs_compare_datum a b d state = 0 ->
            mkqs_compare_datum a p d state > 0 ->
            mkqs_compare_datum b p d state > 0).
  { intros a b Hab Ha.
    destruct (Z_lt_le_dec 0 (mkqs_compare_datum b p d state)) as [|Hb]; [lia|].
    destruct (cmp_across state d b a p Hc) as [_ H]; try lia.
    pose proof (cmp_zero_sym state d a b Hc Hab). lia. }
  split; split; eauto.
Qed.

(** In a slice that is strictly increasing at a key no two tuples are
    equal from that key on. *)
Lemma strict_order_no_run (d : Z) (x : list SortTuple) (t : SortTuple) :
  0 <= d < nKeys state ->
  (forall i, 0 <= i < Z.of_nat (length x) - 1 ->
     mkqs_compare_datum (sel x i) (sel x (i + 1)) d state < 0) ->
  (length (equal_class d state t x) < 2)%nat.
Proof.
  intros Hd Hadj. pose proof (Hcons d Hd) as Hc.
  apply (adjacent_Sorted (fun a b => mkqs_compare_datum a b d state < 0)) in Hadj.
  apply Sorted_StronglySorted in Hadj.
  2:{ intros a b c Hab Hbc.
      destruct (cmp_across state d a c b Hc) as [_ H]; try lia.
      apply cmp_le_flip; [assumption|lia]. }
  induction Hadj as [|a r Hs IH Hall]; cbn [equal_class filter length]; [lia|].
  fold (equal_class d state t r).
  destruct (equal_from d state t a) eqn:Ea; [|assumption].
  enough (equal_class d state t r = []) as -> by (cbn; lia).
  apply filter_none. intros u Hu.
  unfold equal_from in *. apply Z.eqb_eq in Ea. apply Z.eqb_neq. intros Eu.
  rewrite Forall_forall in Hall. specialize (Hall u Hu). cbn beta in Hall.
  apply range_zero_first_key in Ea, Eu; try assumption.
  pose proof (cmp_equal_class state d a u t Hc Ea Eu). lia.
Qed.

Lemma run_handled_perm (d : Z) (x x' : list SortTuple) (calls : list DupCall) :
  Permutation x x' ->
  runs_handled d state x calls -> runs_handled d state x' calls.
Proof.
  intros Hp [Hruns Hincl]. split.
  - intros t. destruct (Hruns t) as [H2 H1].
    pose proof (Permutation_filter_same (equal_from d state t) x x' Hp) as Hpc.
    fold (equal_class d state t x) (equal_class d state t x') in Hpc.
    pose proof (Permutation_length Hpc) as Hlen.
    split.
    + intros Hge. destruct H2 as (c & Hc & Hpc' & Hcount & Hdepth); [lia|].
      exists c. repeat split; try assumption.
      * etransitivity; eassumption.
      * lia.
    + intros Hlt. apply H1. lia.
  - intros c Hc u Hu. eapply Permutation_in; [exact Hp|]. now apply (Hincl c Hc).
Qed.

Lemma existsb_ext_in {A} (f g : A -> bool) (l : list A) :
  (forall a, In a l -> f a = g a) -> existsb f l = existsb g l.
Proof.
  induction l as [|a l IH]; intros H; cbn [existsb]; [reflexivity|].
  rewrite (H a (or_introl eq_refl)). f_equal. apply IH. intros b Hb. apply H. now right.
Qed.

(** A part none of whose tuples is equal to [t] holds no run of [t], and
    the calls made on it do not touch [t]. *)
Lemma part_without (d : Z) (t : SortTuple) (part : list SortTuple)
    (calls : list DupCall) :
  (forall u, In u part -> equal_from d state t u = false) ->
  (forall c, In c calls -> incl (dup_slice c) part) ->
  equal_class d state t part = [] /\ filter (touches d state t) calls = [].
Proof.
  intros Hno Hincl. split.
  - now apply filter_none.
  - apply filter_none. intros c Hc. unfold touches.
    rewrite <- not_true_iff_false. intros He.
    apply existsb_exists in He. destruct He as (u & Hu & Heq).
    rewrite (Hno u (Hincl c Hc u Hu)) in Heq. discriminate.
Qed.

Lemma runs_handled_three_parts (d : Z) (p : SortTuple)
    (l e g : list SortTuple) (newl newe newg : list DupCall) :
  0 <= d < nKeys state ->
  Forall (fun t => mkqs_compare_datum t p d state < 0) l ->
  Forall (fun t => mkqs_compare_datum t p d state = 0) e ->
  Forall (fun t => mkqs_compare_datum t p d state > 0) g ->
  e <> [] ->
  runs_handled d state l newl ->
  (forall c, In c newe -> incl (dup_slice c) e) ->
  middle_handled state d e newe ->
  runs_handled d state g newg ->
  runs_handled d state (l ++ e ++ g) (newl ++ newe ++ newg).
Proof.
  intros Hd Fl Fe Fg Hne [Hl Il] Ie Hmid [Hg Ig].
  pose proof (Hcons d Hd) as Hc.
  rewrite Forall_forall in Fl, Fe, Fg.
  split.
  2:{ intros c Hc' u Hu. apply in_app_or in Hc'. destruct Hc' as [Hc'|Hc'].
      - apply in_or_app. left. now apply (Il c Hc').
      - apply in_app_or in Hc'. destruct Hc' as [Hc'|Hc'].
        + apply in_or_app. right. apply in_or_app. left. now apply (Ie c Hc').
        + apply in_or_app. right. apply in_or_app. right. now apply (Ig c Hc'). }
  intros t. unfold run_handled, equal_class.
  rewrite !filter_app.
  fold (equal_class d state t l) (equal_class d state t e) (equal_class d state t g).
  assert (Hside : forall u, equal_from d state t u = true ->
            (mkqs_compare_datum u p d state < 0 <-> mkqs_compare_datum t p d state < 0) /\
            (mkqs_compare_datum u p d state > 0 <-> mkqs_compare_datum t p d state > 0)).
  { intros u Hu. unfold equal_from in Hu. apply Z.eqb_eq in Hu.
    apply cmp_same_side; [assumption|]. now apply range_zero_first_key. }
  assert (Hnot : forall (part : list SortTuple) (P : Z -> Prop),
            (forall u, In u part -> P (mkqs_compare_datum u p d state)) ->
            (forall u, equal_from d state t u = true ->
                       ~ P (mkqs_compare_datum u p d state)) ->
            forall u, In u part -> equal_from d state t u = false).
  { intros part P Hpart Hex u Hu. apply not_true_iff_false. intros Ht.
    apply (Hex u Ht). now apply Hpart. }
  destruct (Z.lt_trichotomy (mkqs_compare_datum t p d state) 0) as [Hlt|[Heq|Hgt]].
  - destruct (part_without d t e newe) as [-> ->]; [|assumption|].
    { apply (Hnot e (fun z => z = 0)); [exact Fe|].
      intros u Hu. destruct (Hside u Hu). lia. }
    destruct (part_without d t g newg) as [-> ->]; [|assumption|].
    { apply (Hnot g (fun z => z > 0)); [exact Fg|].
      intros u Hu. destruct (Hside u Hu). lia. }
    rewrite !app_nil_r. apply Hl.
  - destruct (part_without d t l newl) as [-> ->]; [|assumption|].
    { apply (Hnot l (fun z => z < 0)); [exact Fl|].
      intros u Hu. destruct (Hside u Hu). lia. }
    destruct (part_without d t g newg) as [-> ->]; [|assumption|].
    { apply (Hnot g (fun z => z > 0)); [exact Fg|].
      intros u Hu. destruct (Hside u Hu). lia. }
    rewrite !app_nil_r. cbn [app].
    assert (Hnext : forall u, In u e ->
              mkqs_compare_tuple_by_range u t d state =
              mkqs_compare_tuple_by_range u t (d + 1) state).
    { intros u Hu. apply range_of_next_key; try assumption.
      apply (cmp_equal_class state d u t p Hc); [now apply Fe|assumption]. }
    destruct Hmid as [[Hdeep [He Ie']]|[Hlast Hcall]].
    + assert (Hcls : equal_class d state t e = equal_class (d + 1) state t e).
      { apply filter_ext_in. intros u Hu. unfold equal_from. now rewrite Hnext. }
      assert (Hcalls : filter (touches d state t) newe =
                       filter (touches (d + 1) state t) newe).
      { apply filter_ext_in. intros c Hc'. unfold touches.
        apply existsb_ext_in. intros u Hu. unfold equal_from.
        rewrite Hnext; [reflexivity|]. now apply (Ie c Hc'). }
      rewrite Hcls, Hcalls. apply He.
    + assert (Hcls : equal_class d state t e = e).
      { apply filter_all. intros u Hu. unfold equal_from.
        rewrite Hnext by assumption.
        rewrite range_later_lex by lia.
        rewrite lexicographic_compare_end by lia. reflexivity. }
      rewrite Hcls.
      destruct Hcall as [[Hlen (flag & ->)]|[Hlen ->]].
      * split; [|lia]. intros _.
        exists (mkDupCall e (Z.of_nat (length e)) flag d).
        cbn [dup_slice dup_count dup_depth].
        split; [|repeat split; try reflexivity; lia].
        cbn [filter]. unfold touches at 1. cbn [dup_slice].
        assert (existsb (equal_from d state t) e = true) as ->; [|reflexivity].
        destruct e as [|u e']; [contradiction|].
        cbn [existsb]. unfold equal_class in Hcls. cbn [filter] in Hcls.
        destruct (equal_from d state t u); [reflexivity|].
        exfalso.
        assert (Hle := filter_length_le (equal_from d state t) e').
        apply (f_equal (@length _)) in Hcls. cbn [length] in Hcls. lia.
      * split; [lia|reflexivity].
  - destruct (part_without d t l newl) as [-> ->]; [|assumption|].
    { apply (Hnot l (fun z => z < 0)); [exact Fl|].
      intros u Hu. destruct (Hside u Hu). lia. }
    destruct (part_without d t e newe) as [-> ->]; [|assumption|].
    { apply (Hnot e (fun z => z = 0)); [exact Fe|].
      intros u Hu. destruct (Hside u Hu). lia. }
    cbn [app]. apply Hg.
Qed.

End Runs.


Section HandlesRuns.

Context {ops : Collaborators}.
Variable state : Tuplesortstate.
Hypothesis Hvalid : valid_state state.
Hypothesis Hgeneric : is_generic (mkqsCompFuncType state) = true.
Hypothesis Hhandler : has_handler state = true.

Lemma mk_qsort_tuple_handles_runs (fuel : nat) :
  forall (n depth : Z) (seenNull : bool) (w : world),
    Z.of_nat (length (mem w)) = n ->
    0 <= depth < nKeys state ->
    (Z.to_nat n + Z.to_nat (nKeys state - depth) < fuel)%nat ->
    sat (mk_qsort_tuple fuel n depth state seenNull) w
        (fun _ w' => exists new, trace w' = trace w ++ new /\
                                 runs_handled depth state (mem w) new)
        (fun _ => True).
Proof.
  pose proof (valid_consistent _ Hvalid) as Hcons.
  pose proof (valid_handler _ Hvalid) as Hperm.
  assert (Hkeys : 0 < nKeys state) by (destruct Hvalid; lia).
  induction fuel as [|fuel IH]; intros n depth seenNull w Hn Hdepth Hfuel; [lia|].
  assert (Hnone : forall w', trace w' = trace w ->
            (forall t, (length (equal_class depth state t (mem w)) < 2)%nat) ->
            exists new, trace w' = trace w ++ new /\
                        runs_handled depth state (mem w) new).
  { intros w' Ht Hshort. exists []. rewrite app_nil_r. split; [assumption|].
    split; [|intros c []]. intros t. specialize (Hshort t).
    split; [lia|reflexivity]. }
  rewrite mk_qsort_tuple_unfold.
  destruct (Z.leb_spec n 1) as [Hn1|Hn2].
  { apply sat_ret. apply Hnone; [reflexivity|]. intros t.
    pose proof (filter_length_le (equal_from depth state t) (mem w)).
    unfold equal_class. lia. }
  destruct (Z.eqb_spec depth (nKeys state)) as [|Hd]; [lia|].
  apply sat_bind, sat_check; [|exact I]. cbn [mem clock trace].
  apply sat_bind.
  eapply sat_weaken;
    [apply (pre_ordered_check_spec state n depth); exact Hn| |];
    cbn [mem clock trace]; [|auto].
  intros ordered w1 (Hm & Ht & Hord). rewrite Hgeneric in Hord.
  destruct ordered.
  { apply sat_ret. apply Hnone; [assumption|]. intros t.
    apply strict_order_no_run; try assumption.
    intros i Hi. apply Hord; [reflexivity|lia]. }
  rewrite Hhandler, andb_false_r.
  apply sat_bind.
  eapply sat_weaken;
    [apply (partition_spec state n depth); [lia|rewrite Hm; exact Hn]| |];
    cbn beta; [|auto].
  intros c w2 [Hlay [Hp Ht2]]. rewrite Hm in *.
  destruct (layout_parts _ _ _ _ _ _ Hlay) as (l & e & g & Hx & Hl & He & Hg & Fl & Fe & Fg).
  apply (equal_part_refl state Hvalid) in Fe; [|lia].
  destruct Hlay as (Hlen & Hsz & _).
  destruct w2 as [x2 clk2 tr2]. cbn [mem trace] in *. subst x2.
  rewrite Ht in Ht2.
  apply sat_recurse_parts; try lia.
  eapply sat_weaken;
    [apply sat_and;
       [apply (IH _ depth seenNull); cbn [mem]; lia
       |apply (mk_qsort_tuple_permutes state Hperm fuel _ depth seenNull);
        cbn [mem]; lia]
    | |]; cbn [mem clock trace]; [|auto].
  intros [] w3 [(newl & Hnewl & Hrl) Hp3].
  split; [symmetry; now apply Permutation_length|].
  assert (Hmid :
    sat (on_equal_part (mk_qsort_tuple fuel) (equal_size n c) depth state
           (seenNull || check_datum_null (sel e 0) depth state))
        (mkWorld e (clock w3) (trace w3))
        (fun _ w4 => length (mem w4) = length e /\
                     exists new, trace w4 = trace w3 ++ new /\
                                 (forall c, In c new -> incl (dup_slice c) e) /\
                                 middle_handled state depth e new)
        (fun _ => True)).
  { unfold on_equal_part.
    destruct (Z.ltb_spec depth (nKeys state - 1)).
    - eapply sat_weaken;
        [apply sat_and;
           [apply IH; cbn [mem]; lia
           |apply (mk_qsort_tuple_permutes state Hperm fuel); cbn [mem]; lia]
        | |]; cbn [mem clock trace]; [|auto].
      intros [] w4 [(newe & Hnewe & Hre) Hp4].
      split; [symmetry; now apply Permutation_length|].
      exists newe. split; [assumption|]. split; [apply Hre|].
      left. split; [lia|assumption].
    - unfold has_handler in Hhandler.
      destruct (mkqsHandleDupFunc state) as [h|] eqn:Eh; [|discriminate].
      destruct (Z.gtb_spec (equal_size n c) 1).
      + apply sat_call_handler. cbn [mem trace]. intros w4 ->. cbn [mem trace].
        rewrite slice_whole, splice_whole by lia.
        split; [|exact I]. split.
        { symmetry. apply Permutation_length. now apply Hperm. }
        eexists. split; [reflexivity|]. split.
        * intros c0 [<-|[]]. cbn [dup_slice]. apply incl_refl.
        * right. split; [lia|]. left. split; [lia|].
          eexists. rewrite He. reflexivity.
      + apply sat_ret. split; [reflexivity|]. exists [].
        rewrite app_nil_r. split; [reflexivity|]. split; [intros c0 []|].
        right. split; [lia|]. right. split; [lia|reflexivity]. }
  eapply sat_weaken; [exact Hmid| |]; cbn [mem clock trace]; [|auto].
  intros [] w4 (Hlen4 & newe & Hnewe & Hie & Hme). split; [exact Hlen4|].
  eapply sat_weaken;
    [apply (IH _ depth seenNull); cbn [mem]; lia| |];
    cbn [mem clock trace]; [|auto].
  intros [] w5 (newg & Hnewg & Hrg). exists (newl ++ newe ++ newg).
  split; [rewrite Hnewg, Hnewe, Hnewl, Ht2; now rewrite !app_assoc|].
  apply (run_handled_perm state depth (l ++ e ++ g)); [symmetry; exact Hp|].
  apply (runs_handled_three_parts state Hkeys Hcons depth
           (sel (mem w) (select_pivot n depth state (mem w)))); try assumption; try lia.
  intros ->. cbn [length] in He. lia.
Qed.

Lemma sort_memtuples_handles_runs (x : list SortTuple) (w' : world) :
  sort_memtuples state x = Done tt w' ->
  forall t, run_handled 0 state x (trace w') t.
Proof.
  intros Hrun t. unfold sort_memtuples in Hrun.
  pose proof (mk_qsort_tuple_handles_runs
                (enough_fuel (Z.of_nat (length x)) 0 state)
                (Z.of_nat (length x)) 0 false (mkWorld x 0 [])) as H.
  unfold sat in H. rewrite Hrun in H.
  destruct H as (new & Hnew & Hruns & _); cbn [mem trace] in *.
  - reflexivity.
  - destruct Hvalid. lia.
  - unfold enough_fuel. lia.
  - rewrite Hnew. apply Hruns.
Qed.

End HandlesRuns.

Section HandlerContract.

Context {ops : Collaborators}.
Variable state : Tuplesortstate.
Hypothesis Hvalid : valid_state state.

(** When the classic pre-ordered check is in use, a call on an array that
    is already in order makes no handler call. *)
Lemma ordered_input_no_call (x : list SortTuple) (w' : world) :
  is_generic (mkqsCompFuncType state) = false ->
  ordered_from 0 state x ->
  sort_memtuples state x = Done tt w' ->
  trace w' = [].
Proof.
  intros Hkind Hord Hrun. unfold sort_memtuples in Hrun.
  enough (H : sat (mk_qsort_tuple (enough_fuel (Z.of_nat (length x)) 0 state)
                     (Z.of_nat (length x)) 0 state false) (mkWorld x 0 [])
                  (fun _ w' => trace w' = []) (fun _ => True)).
  { unfold sat in H. now rewrite Hrun in H. }
  unfold enough_fuel. rewrite mk_qsort_tuple_unfold.
  destruct (Z.leb_spec (Z.of_nat (length x)) 1); [now apply sat_ret|].
  destruct (Z.eqb_spec 0 (nKeys state)); [now apply sat_ret|].
  apply sat_bind, sat_check; [|exact I]. cbn [mem clock trace].
  apply sat_bind.
  eapply sat_weaken;
    [apply (pre_ordered_check_spec state (Z.of_nat (length x)) 0); reflexivity
    | |]; cbn [mem clock trace]; [|auto].
  intros ordered w1 (_ & Ht & Hiff). rewrite Hkind in Hiff.
  assert (ordered = true) as ->.
  { apply Hiff. split; [reflexivity|]. intros j Hj.
    pose proof (valid_full_compare _ Hvalid Hkind (sel x j) (sel x (j + 1))) as Hag.
    specialize (Hord j Hj). lia. }
  now apply sat_ret.
Qed.

(** C3, as the code has it: when the duplicate handler is set and
    [leading_kind] is GENERIC, a completed sort has handed every run of at
    least two tuples that compare equal at every key to the handler exactly
    once -- the whole run, its length as count, from depth [n_keys - 1] --
    and no call has touched a tuple without such a twin.  For the other
    leading kinds the classic pre-ordered check comes first: an array that
    is already in order by the keys is returned as it is, with no handler
    call, whatever runs it holds. *)
Theorem handler_called_once_per_run (x : list SortTuple) (w' : world) :
  has_handler state = true ->
  sort_memtuples state x = Done tt w' ->
  (is_generic (mkqsCompFuncType state) = true ->
   forall t, run_handled 0 state x (trace w') t) /\
  (is_generic (mkqsCompFuncType state) = false ->
   ordered_from 0 state x -> mem w' = x /\ trace w' = []).
Proof.
  intros Hh Hrun. split.
  - intros Hg. now apply sort_memtuples_handles_runs.
  - intros Hg Hord. split.
    + now apply (ordered_input_untouched state Hvalid x w').
    + now apply (ordered_input_no_call x w').
Qed.

End HandlerContract.


(** ** The concrete collaborator is a valid one *)

Lemma cmp3_cases (a b : Z) :
  (a < b /\ cmp3 a b = -1) \/ (a = b /\ cmp3 a b = 0) \/ (b < a /\ cmp3 a b = 1).
Proof.
  unfold cmp3. destruct (Z.ltb_spec a b), (Z.gtb_spec a b); lia.
Qed.

Lemma apply_comparator_sym (view : Z -> Z) (d1 : Datum) (n1 : bool) (d2 : Datum)
    (n2 : bool) (key : SortSupportData) :
  apply_comparator view d1 n1 d2 n2 key < 0 <->
  0 < apply_comparator view d2 n2 d1 n1 key.
Proof.
  unfold apply_comparator.
  pose proof (cmp3_cases (view d1) (view d2)).
  pose proof (cmp3_cases (view d2) (view d1)).
  destruct n1, n2, (ssup_nulls_first key), (ssup_reverse key); lia.
Qed.

Lemma apply_comparator_trans (view : Z -> Z) (d1 : Datum) (n1 : bool)
    (d2 : Datum) (n2 : bool) (d3 : Datum) (n3 : bool) (key : SortSupportData) :
  apply_comparator view d1 n1 d2 n2 key <= 0 ->
  apply_comparator view d2 n2 d3 n3 key <= 0 ->
  apply_comparator view d1 n1 d3 n3 key <= 0.
Proof.
  unfold apply_comparator.
  pose proof (cmp3_cases (view d1) (view d2)).
  pose proof (cmp3_cases (view d2) (view d3)).
  pose proof (cmp3_cases (view d1) (view d3)).
  destruct n1, n2, n3, (ssup_nulls_first key), (ssup_reverse key); lia.
Qed.

Lemma apply_comparator_nulls (view : Z -> Z) (d1 : Datum) (n1 : bool)
    (d2 : Datum) (n2 : bool) (key : SortSupportData) :
  apply_comparator view d1 n1 d2 n2 key = 0 -> n1 = n2.
Proof.
  unfold apply_comparator.
  pose proof (cmp3_cases (view d1) (view d2)).
  destruct n1, n2, (ssup_nulls_first key), (ssup_reverse key);
    try reflexivity; lia.
Qed.

Section PgCollaborator.

Variable pending : nat -> bool.
Variable state : Tuplesortstate.

(** The leading key is stored in full. *)
Hypothesis not_abbreviated :
  abbrev_converter (@sortKey_at state 0) = false.

(** Without abbreviation every depth compares one datum of each tuple with
    one [apply_comparator]. *)
Lemma pg_compare_datum (d : Z) :
  exists (view : Z -> Z) (f : SortTuple -> Datum) (g : SortTuple -> bool)
         (key : SortSupportData),
    (forall a b, @mkqs_compare_datum (pg_ops pending) a b d state =
                 apply_comparator view (f a) (g a) (f b) (g b) key) /\
    (forall a, g a = @check_datum_null a d state).
Proof.
  unfold mkqs_compare_datum, mkqs_compare_datum_tiebreak,
    mkqs_compare_datum_by_shortcut, check_datum_null.
  destruct (Z.eqb_spec d 0) as [->|Hd].
  - rewrite not_abbreviated. cbn [negb].
    destruct (mkqsCompFuncType state); cbn [pg_ops ApplySortComparator
      ApplyUnsignedSortComparator ApplySignedSortComparator ApplyInt32SortComparator];
      eexists _, datum1, isnull1, _; (split; [intros a b|reflexivity]);
      match goal with
      | |- (if negb (?c =? 0) then _ else _) = _ =>
          destruct (Z.eqb_spec c 0) as [E|E]; cbn [negb]; reflexivity
      end.
  - exists view_signed, (fun t => fst (mkqsGetDatumFunc state t d)),
      (fun t => snd (mkqsGetDatumFunc state t d)), (@sortKey_at state d).
    split; [|reflexivity]. intros a b.
    rewrite andb_false_r.
    destruct (mkqsGetDatumFunc state a d), (mkqsGetDatumFunc state b d).
    reflexivity.
Qed.

Lemma pg_consistent : @consistent (pg_ops pending) state.
Proof.
  intros d _. destruct (pg_compare_datum d) as (view & f & g & key & Hcmp & _).
  split.
  - intros a b. rewrite !Hcmp. apply apply_comparator_sym.
  - intros a b c. rewrite !Hcmp. apply apply_comparator_trans.
Qed.

Lemma pg_nulls_distinguished : @nulls_distinguished (pg_ops pending) state.
Proof.
  intros d a b _. destruct (pg_compare_datum d) as (view & f & g & key & Hcmp & Hg).
  rewrite Hcmp, <- !Hg. apply apply_comparator_nulls.
Qed.

Lemma pg_full_tiebreak (k : nat) (a b : SortTuple) :
  forall d, 0 <= d -> Z.to_nat (nKeys state - d) = k ->
    full_tiebreak_loop k a b d state =
    @range_tiebreak_loop (pg_ops pending) k a b d state.
Proof.
  induction k as [|k IH]; intros d Hd Hk; [reflexivity|].
  cbn [full_tiebreak_loop range_tiebreak_loop].
  destruct (Z.ltb_spec d (nKeys state)); [|lia].
  unfold sortKey_at. destruct (Z.ltb_spec d 0); [lia|].
  destruct (mkqsGetDatumFunc state a d), (mkqsGetDatumFunc state b d).
  cbn [pg_ops ApplySortComparator].
  destruct (negb _); [reflexivity|]. apply IH; lia.
Qed.

Lemma pg_full_compare_agrees :
  1 <= nKeys state -> is_generic (mkqsCompFuncType state) = false ->
  @full_compare_agrees (pg_ops pending) state.
Proof.
  intros Hkeys Eg a b.
  enough (H : @mkqs_compare_tuple (pg_ops pending) a b state =
              @mkqs_compare_tuple_by_range (pg_ops pending) a b 0 state)
    by now rewrite H.
  unfold mkqs_compare_tuple, mkqs_compare_tuple_by_range,
    mkqs_compare_tuple_by_range_tiebreak, mkqs_compare_datum_by_shortcut.
  cbn [Z.eqb Z.add]. rewrite not_abbreviated.
  assert (Hkey : nth 0 (sortKeys state) dummy_key = @sortKey_at state 0) by reflexivity.
  destruct (mkqsCompFuncType state); try discriminate;
    cbn [pg_ops qsort_tuple_unsigned_compare qsort_tuple_signed_compare
           qsort_tuple_int32_compare ApplyUnsignedSortComparator
           ApplySignedSortComparator ApplyInt32SortComparator];
    unfold full_tuple_compare; rewrite Hkey, not_abbreviated;
    destruct (negb _); try reflexivity; apply pg_full_tiebreak; lia.
Qed.

Lemma pg_valid_state :
  2 <= nKeys state ->
  @handler_permutes state ->
  @valid_state (pg_ops pending) state.
Proof.
  intros Hkeys Hh. constructor.
  - exact Hkeys.
  - exact pg_consistent.
  - intros Hg. apply pg_full_compare_agrees; [lia|exact Hg].
  - exact Hh.
Qed.

End PgCollaborator.

Lemma no_handler_permutes (state : Tuplesortstate) :
  mkqsHandleDupFunc state = None -> handler_permutes state.
Proof.
  intros Hn h l n b Hh. rewrite Hn in Hh. discriminate.
Qed.

Lemma keep_handler_permutes (state : Tuplesortstate) :
  mkqsHandleDupFunc state = Some keep_handler -> handler_permutes state.
Proof.
  intros Hk h l n b Hh. rewrite Hk in Hh. injection Hh as <-. reflexivity.
Qed.


(** ** The theorems on the example tables *)

Lemma example_valid (pending : nat -> bool) (heap : list Row)
    (kind : MkqsCompFuncType) :
  @valid_state (pg_ops pending) (example_state heap kind None) /\
  @valid_state (pg_ops pending) (example_state heap kind (Some keep_handler)).
Proof.
  split; apply pg_valid_state; try reflexivity; try (cbn; lia).
  - now apply no_handler_permutes.
  - now apply keep_handler_permutes.
Qed.

(** C1 on [(2,10), (1,11), (2,10), (1,10)] with the INT32 leading kind:
    the sort completes with [(1,10), (1,11), (2,10), (2,10)]. *)
Lemma mk_qsort_tuple_orders_witness :
  @valid_state (pg_ops never) (example_state rows_mixed MKQS_COMP_FUNC_INT32 None) /\
  @sort_memtuples (pg_ops never) (example_state rows_mixed MKQS_COMP_FUNC_INT32 None)
    (memtuples rows_mixed)
  = Done tt (mkWorld mixed_sorted 2 []) /\
  (forall i, 0 <= i < Z.of_nat (length (memtuples rows_mixed)) - 1 ->
     @lexicographic_compare (pg_ops never)
       (sel mixed_sorted i) (sel mixed_sorted (i + 1))
       0 (example_state rows_mixed MKQS_COMP_FUNC_INT32 None) <= 0).
Proof.
  assert (Hv := proj1 (example_valid never rows_mixed MKQS_COMP_FUNC_INT32)).
  assert (Hrun : @sort_memtuples (pg_ops never)
                   (example_state rows_mixed MKQS_COMP_FUNC_INT32 None)
                   (memtuples rows_mixed)
                 = Done tt (mkWorld mixed_sorted 2 []))
    by (vm_compute; reflexivity).
  split; [exact Hv|]. split; [exact Hrun|].
  exact (mk_qsort_tuple_orders _ Hv _ _ Hrun).
Defined.

(** C2 on the same rows, with an interrupt at the fourth check: the sort
    unwinds in the middle of the work and the array holds the four tuples. *)
Lemma mk_qsort_tuple_only_permutes_witness :
  handler_permutes (example_state rows_mixed MKQS_COMP_FUNC_GENERIC (Some keep_handler)) /\
  Z.of_nat (length (memtuples rows_mixed)) = 4 /\
  @mk_qsort_tuple (pg_ops at_fourth_check)
    (enough_fuel 4 0 (example_state rows_mixed MKQS_COMP_FUNC_GENERIC (Some keep_handler)))
    4 0 (example_state rows_mixed MKQS_COMP_FUNC_GENERIC (Some keep_handler)) false
    (mkWorld (memtuples rows_mixed) 0 [])
  = Abort (mkWorld mixed_partitioned 4 []) /\
  match @mk_qsort_tuple (pg_ops at_fourth_check)
          (enough_fuel 4 0 (example_state rows_mixed MKQS_COMP_FUNC_GENERIC
                              (Some keep_handler)))
          4 0 (example_state rows_mixed MKQS_COMP_FUNC_GENERIC (Some keep_handler))
          false (mkWorld (memtuples rows_mixed) 0 []) with
  | Done _ w' => Permutation (memtuples rows_mixed) (mem w')
  | Abort w' => Permutation (memtuples rows_mixed) (mem w')
  | Diverge => False
  end.
Proof.
  assert (Hh : handler_permutes
                 (example_state rows_mixed MKQS_COMP_FUNC_GENERIC (Some keep_handler)))
    by now apply keep_handler_permutes.
  split; [exact Hh|]. split; [reflexivity|]. split; [vm_compute; reflexivity|].
  exact (@mk_qsort_tuple_only_permutes (pg_ops at_fourth_check) _ Hh 4 0 false
           (mkWorld (memtuples rows_mixed) 0 []) eq_refl).
Defined.

(** C3 as stated fails on [(1,1), (1,1), (1,1)] with the INT32 leading
    kind and a handler: the classic pre-ordered check returns and the handler
    is never called. *)
Lemma handler_skipped_when_preordered :
  ~ @handles_every_run (pg_ops never)
      (example_state rows_triple MKQS_COMP_FUNC_INT32 (Some keep_handler))
      (memtuples rows_triple).
Proof.
  unfold handles_every_run.
  assert (Hrun : @sort_memtuples (pg_ops never)
                   (example_state rows_triple MKQS_COMP_FUNC_INT32 (Some keep_handler))
                   (memtuples rows_triple)
                 = Done tt (mkWorld (memtuples rows_triple) 3 []))
    by (vm_compute; reflexivity).
  rewrite Hrun. cbn [trace]. intros H.
  destruct (H (mkSortTuple 0 1 false) (or_introl eq_refl)) as [H2 _].
  destruct H2 as (c & Hc & _).
  - vm_compute. repeat constructor.
  - discriminate Hc.
Qed.

(** C3 as amended, on the same rows with the GENERIC leading kind: one
    call, on the three tuples. *)
Lemma handler_called_once_per_run_witness :
  @valid_state (pg_ops never)
    (example_state rows_triple MKQS_COMP_FUNC_GENERIC (Some keep_handler)) /\
  has_handler (example_state rows_triple MKQS_COMP_FUNC_GENERIC (Some keep_handler))
  = true /\
  @sort_memtuples (pg_ops never)
    (example_state rows_triple MKQS_COMP_FUNC_GENERIC (Some keep_handler))
    (memtuples rows_triple)
  = Done tt (mkWorld (memtuples rows_triple) 6
               [mkDupCall (memtuples rows_triple) 3 false 1]) /\
  forall t,
    @run_handled (pg_ops never) 0
      (example_state rows_triple MKQS_COMP_FUNC_GENERIC (Some keep_handler))
      (memtuples rows_triple) [mkDupCall (memtuples rows_triple) 3 false 1] t.
Proof.
  assert (Hv := proj2 (example_valid never rows_triple MKQS_COMP_FUNC_GENERIC)).
  assert (Hrun : @sort_memtuples (pg_ops never)
                   (example_state rows_triple MKQS_COMP_FUNC_GENERIC (Some keep_handler))
                   (memtuples rows_triple)
                 = Done tt (mkWorld (memtuples rows_triple) 6
                              [mkDupCall (memtuples rows_triple) 3 false 1]))
    by (vm_compute; reflexivity).
  split; [exact Hv|]. split; [reflexivity|]. split; [exact Hrun|].
  exact (proj1 (handler_called_once_per_run _ Hv _ _ eq_refl Hrun) eq_refl).
Defined.

(** C4 as stated fails on [(1,NULL), (1,NULL)]: the handler is told
    [seenNull = true] although no key above the deepest one is NULL. *)
Lemma seen_null_counts_deepest_key :
  ~ @flags_exclude_deepest (pg_ops never)
      (example_state rows_null_deepest MKQS_COMP_FUNC_GENERIC (Some keep_handler))
      (memtuples rows_null_deepest).
Proof.
  unfold flags_exclude_deepest.
  assert (Hrun : @sort_memtuples (pg_ops never)
                   (example_state rows_null_deepest MKQS_COMP_FUNC_GENERIC
                      (Some keep_handler))
                   (memtuples rows_null_deepest)
                 = Done tt (mkWorld (memtuples rows_null_deepest) 6
                              [mkDupCall (memtuples rows_null_deepest) 2 true 1]))
    by (vm_compute; reflexivity).
  rewrite Hrun. cbn [trace]. intros H.
  destruct (H _ (or_introl eq_refl)) as [H1 _].
  destruct (H1 eq_refl) as (t & d & Ht & Hd & Hnull).
  cbn [dup_slice] in Ht. cbn in Hd. assert (d = 0) as -> by lia.
  destruct Ht as [<-|[<-|[]]]; discriminate Hnull.
Qed.

(** C4 as amended, on the same rows. *)
Lemma seen_null_covers_all_keys_witness :
  handler_permutes
    (example_state rows_null_deepest MKQS_COMP_FUNC_GENERIC (Some keep_handler)) /\
  @nulls_distinguished (pg_ops never)
    (example_state rows_null_deepest MKQS_COMP_FUNC_GENERIC (Some keep_handler)) /\
  0 <= nKeys (example_state rows_null_deepest MKQS_COMP_FUNC_GENERIC
                (Some keep_handler)) /\
  match @sort_memtuples (pg_ops never)
          (example_state rows_null_deepest MKQS_COMP_FUNC_GENERIC (Some keep_handler))
          (memtuples rows_null_deepest) with
  | Done _ w' | Abort w' =>
      forall c, In c (trace w') ->
        (dup_seenNull c = true <->
         null_at_some_key
           (example_state rows_null_deepest MKQS_COMP_FUNC_GENERIC (Some keep_handler))
           (dup_slice c))
  | Diverge => False
  end.
Proof.
  assert (Hh : handler_permutes
                 (example_state rows_null_deepest MKQS_COMP_FUNC_GENERIC
                    (Some keep_handler)))
    by now apply keep_handler_permutes.
  assert (Hn : @nulls_distinguished (pg_ops never)
                 (example_state rows_null_deepest MKQS_COMP_FUNC_GENERIC
                    (Some keep_handler)))
    by now apply pg_nulls_distinguished.
  assert (Hk : 0 <= nKeys (example_state rows_null_deepest MKQS_COMP_FUNC_GENERIC
                             (Some keep_handler)))
    by (cbn; lia).
  split; [exact Hh|]. split; [exact Hn|]. split; [exact Hk|].
  exact (@seen_null_covers_all_keys (pg_ops never) _ Hh Hn
           (memtuples rows_null_deepest) Hk).
Defined.

(** C5 as stated fails on eighteen rows that share the first key, with the
    GENERIC leading kind: the second run moves tuples of equal keys. *)
Lemma second_run_moves_equal_tuples :
  ~ @second_run_unchanged (pg_ops never)
      (example_state rows_eighteen MKQS_COMP_FUNC_GENERIC None)
      (memtuples rows_eighteen).
Proof.
  unfold second_run_unchanged. intros H. vm_compute in H. discriminate H.
Qed.

(** C5 as amended, on [(2,10), (1,11), (2,10), (1,10)] with the INT32
    leading kind. *)
Lemma second_run_keeps_keys_witness :
  @valid_state (pg_ops never) (example_state rows_mixed MKQS_COMP_FUNC_INT32 None) /\
  @sort_memtuples (pg_ops never) (example_state rows_mixed MKQS_COMP_FUNC_INT32 None)
    (memtuples rows_mixed) = Done tt (mkWorld mixed_sorted 2 []) /\
  @sort_memtuples (pg_ops never) (example_state rows_mixed MKQS_COMP_FUNC_INT32 None)
    mixed_sorted = Done tt (mkWorld mixed_sorted 4 []) /\
  Forall2 (@same_keys (pg_ops never)
             (example_state rows_mixed MKQS_COMP_FUNC_INT32 None))
          mixed_sorted mixed_sorted /\
  (is_generic (mkqsCompFuncType (example_state rows_mixed MKQS_COMP_FUNC_INT32 None))
   = false -> mixed_sorted = mixed_sorted).
Proof.
  assert (Hv := proj1 (example_valid never rows_mixed MKQS_COMP_FUNC_INT32)).
  assert (Hrun1 : @sort_memtuples (pg_ops never)
                    (example_state rows_mixed MKQS_COMP_FUNC_INT32 None)
                    (memtuples rows_mixed) = Done tt (mkWorld mixed_sorted 2 []))
    by (vm_compute; reflexivity).
  assert (Hrun2 : @sort_memtuples (pg_ops never)
                    (example_state rows_mixed MKQS_COMP_FUNC_INT32 None)
                    (mem (mkWorld mixed_sorted 2 []))
                  = Done tt (mkWorld mixed_sorted 4 []))
    by (vm_compute; reflexivity).
  split; [exact Hv|]. split; [exact Hrun1|]. split; [exact Hrun2|].
  exact (second_run_keeps_keys _ Hv _ _ _ Hrun1 Hrun2).
Defined.


(** C6 on [(2,10), (1,11), (2,10), (1,10)] at depth 0: the pivot is the row
    [(2,10)] at index 2; two tuples end below it and two equal to it. *)
Lemma partition_three_way_witness :
  2 <= 4 /\
  Z.of_nat (length (memtuples rows_mixed)) = 4 /\
  (forall t, @mkqs_compare_datum (pg_ops never) t t 0
               (example_state rows_mixed MKQS_COMP_FUNC_GENERIC None) = 0) /\
  @partition (pg_ops never) 4 0 (example_state rows_mixed MKQS_COMP_FUNC_GENERIC None)
    (mkWorld (memtuples rows_mixed) 0 [])
  = Done (mkCursors 2 4 3 3) (mkWorld mixed_partitioned 1 []) /\
  (Z.of_nat (length mixed_partitioned) = 4 /\
   Permutation (memtuples rows_mixed) mixed_partitioned /\
   0 <= 4 - 2 /\ 1 <= 2 + (4 - 3 - 1) /\ 4 - 2 + (2 + (4 - 3 - 1)) <= 4 /\
   (forall i, 0 <= i < 4 - 2 ->
      @mkqs_compare_datum (pg_ops never) (sel mixed_partitioned i)
        (mkSortTuple 2 2 false) 0
        (example_state rows_mixed MKQS_COMP_FUNC_GENERIC None) < 0) /\
   (forall i, 4 - 2 <= i < 4 - 2 + (2 + (4 - 3 - 1)) ->
      @mkqs_compare_datum (pg_ops never) (sel mixed_partitioned i)
        (mkSortTuple 2 2 false) 0
        (example_state rows_mixed MKQS_COMP_FUNC_GENERIC None) = 0) /\
   (forall i, 4 - 2 + (2 + (4 - 3 - 1)) <= i < 4 ->
      @mkqs_compare_datum (pg_ops never) (sel mixed_partitioned i)
        (mkSortTuple 2 2 false) 0
        (example_state rows_mixed MKQS_COMP_FUNC_GENERIC None) > 0)).
Proof.
  assert (Hn : 2 <= 4) by lia.
  assert (Hrefl : forall t, @mkqs_compare_datum (pg_ops never) t t 0
                              (example_state rows_mixed MKQS_COMP_FUNC_GENERIC None) = 0).
  { intros t. apply cmp_refl. apply pg_consistent; [reflexivity|cbn; lia]. }
  assert (Hrun : @partition (pg_ops never) 4 0
                   (example_state rows_mixed MKQS_COMP_FUNC_GENERIC None)
                   (mkWorld (memtuples rows_mixed) 0 [])
                 = Done (mkCursors 2 4 3 3) (mkWorld mixed_partitioned 1 []))
    by (vm_compute; reflexivity).
  split; [exact Hn|]. split; [reflexivity|]. split; [exact Hrefl|].
  split; [exact Hrun|].
  exact (@partition_three_way (pg_ops never) _ 4 0
           (mkWorld (memtuples rows_mixed) 0 []) _ _ Hn eq_refl Hrefl Hrun).
Defined.

(** C7 on two rows of the example table, from depth 1. *)
Lemma range_comparator_is_lexicographic_witness :
  0 <= 1 < nKeys (example_state rows_mixed MKQS_COMP_FUNC_INT32 None) /\
  @mkqs_compare_tuple_by_range (pg_ops never)
    (mkSortTuple 1 1 false) (mkSortTuple 3 1 false) 1
    (example_state rows_mixed MKQS_COMP_FUNC_INT32 None)
  = @lexicographic_compare (pg_ops never)
      (mkSortTuple 1 1 false) (mkSortTuple 3 1 false) 1
      (example_state rows_mixed MKQS_COMP_FUNC_INT32 None).
Proof.
  assert (Hd : 0 <= 1 < nKeys (example_state rows_mixed MKQS_COMP_FUNC_INT32 None))
    by (cbn; lia).
  split; [exact Hd|].
  exact (proj1 (@range_comparator_is_lexicographic (pg_ops never) _
                  (mkSortTuple 1 1 false) (mkSortTuple 3 1 false) 1 Hd)).
Defined.

(** C8 on the example table: with the budget [enough_fuel] the call ends. *)
Lemma mk_qsort_tuple_terminates_witness :
  handler_permutes (example_state rows_mixed MKQS_COMP_FUNC_GENERIC (Some keep_handler)) /\
  Z.of_nat (length (memtuples rows_mixed)) = 4 /\
  @mk_qsort_tuple (pg_ops never)
    (enough_fuel 4 0 (example_state rows_mixed MKQS_COMP_FUNC_GENERIC (Some keep_handler)))
    4 0 (example_state rows_mixed MKQS_COMP_FUNC_GENERIC (Some keep_handler)) false
    (mkWorld (memtuples rows_mixed) 0 [])
  <> Diverge.
Proof.
  assert (Hh : handler_permutes
                 (example_state rows_mixed MKQS_COMP_FUNC_GENERIC (Some keep_handler)))
    by now apply keep_handler_permutes.
  split; [exact Hh|]. split; [reflexivity|].
  exact (proj2 (proj2 (@mk_qsort_tuple_terminates (pg_ops never) _ Hh 4 0 false
                         (mkWorld (memtuples rows_mixed) 0 []) eq_refl))
           _ (le_n _)).
Defined.

(** C9 on the eighteen rows at depth 1: the pivot is the median of the
    tuples at 0, 9 and 17. *)
Lemma select_pivot_three_regimes_witness :
  @consistent_at (pg_ops never)
    (example_state rows_eighteen MKQS_COMP_FUNC_GENERIC None) 1 /\
  7 < 18 <= 40 /\
  @select_pivot (pg_ops never) 18 1
    (example_state rows_eighteen MKQS_COMP_FUNC_GENERIC None) (memtuples rows_eighteen)
  = @get_median_from_three (pg_ops never) 0 (18 / 2) (18 - 1)
      (memtuples rows_eighteen) 1
      (example_state rows_eighteen MKQS_COMP_FUNC_GENERIC None) /\
  @median_of_three (pg_ops never) (memtuples rows_eighteen) 1
    (example_state rows_eighteen MKQS_COMP_FUNC_GENERIC None) 0 (18 / 2) (18 - 1)
    (@select_pivot (pg_ops never) 18 1
       (example_state rows_eighteen MKQS_COMP_FUNC_GENERIC None)
       (memtuples rows_eighteen)).
Proof.
  assert (Hc : @consistent_at (pg_ops never)
                 (example_state rows_eighteen MKQS_COMP_FUNC_GENERIC None) 1).
  { apply pg_consistent; [reflexivity|cbn; lia]. }
  assert (Hn : 7 < 18 <= 40) by lia.
  split; [exact Hc|]. split; [exact Hn|].
  exact (proj1 (proj2 (@select_pivot_three_regimes (pg_ops never) _ 18 1
                         (memtuples rows_eighteen) Hc)) Hn).
Defined.

(** C10 on [(2,10), (1,11), (2,10), (1,10)], no handler: the two rows
    [(2,10)] keep their order. *)
Lemma small_path_is_stable_witness :
  @consistent (pg_ops never) (example_state rows_mixed MKQS_COMP_FUNC_GENERIC None) /\
  0 < nKeys (example_state rows_mixed MKQS_COMP_FUNC_GENERIC None) /\
  0 <= 0 <= nKeys (example_state rows_mixed MKQS_COMP_FUNC_GENERIC None) /\
  1 < 4 < 16 /\
  has_handler (example_state rows_mixed MKQS_COMP_FUNC_GENERIC None) = false /\
  Z.of_nat (length (memtuples rows_mixed)) = 4 /\
  @mk_qsort_tuple (pg_ops never) 1 4 0
    (example_state rows_mixed MKQS_COMP_FUNC_GENERIC None) false
    (mkWorld (memtuples rows_mixed) 0 [])
  = Done tt (mkWorld mixed_sorted 2 []) /\
  match @mk_qsort_tuple (pg_ops never) 1 4 0
          (example_state rows_mixed MKQS_COMP_FUNC_GENERIC None) false
          (mkWorld (memtuples rows_mixed) 0 []) with
  | Done _ w' | Abort w' =>
      (mem w' = memtuples rows_mixed \/
       mem w' = @small_sort (pg_ops never) 4 0
                  (example_state rows_mixed MKQS_COMP_FUNC_GENERIC None)
                  (memtuples rows_mixed)) /\
      forall a,
        @equal_class (pg_ops never) 0
          (example_state rows_mixed MKQS_COMP_FUNC_GENERIC None) a (mem w') =
        @equal_class (pg_ops never) 0
          (example_state rows_mixed MKQS_COMP_FUNC_GENERIC None) a
          (memtuples rows_mixed)
  | Diverge => False
  end.
Proof.
  assert (Hc : @consistent (pg_ops never)
                 (example_state rows_mixed MKQS_COMP_FUNC_GENERIC None))
    by now apply pg_consistent.
  assert (Hk : 0 < nKeys (example_state rows_mixed MKQS_COMP_FUNC_GENERIC None))
    by (cbn; lia).
  assert (Hd : 0 <= 0 <= nKeys (example_state rows_mixed MKQS_COMP_FUNC_GENERIC None))
    by (cbn; lia).
  assert (Hn : 1 < 4 < 16) by lia.
  split; [exact Hc|]. split; [exact Hk|]. split; [exact Hd|]. split; [exact Hn|].
  split; [reflexivity|]. split; [reflexivity|]. split; [vm_compute; reflexivity|].
  exact (proj2 (@small_path_is_stable (pg_ops never) _ 4 0 false
                  (mkWorld (memtuples rows_mixed) 0 []) 0 Hc Hk Hd Hn eq_refl eq_refl)).
Defined.

(** * Further properties of the code *)

(** ** Swaps *)

Lemma list_ext_sel (x y : list SortTuple) :
  length x = length y ->
  (forall i, 0 <= i < Z.of_nat (length x) -> sel x i = sel y i) ->
  x = y.
Proof.
  intros Hlen H. apply (nth_ext x y dummy_tuple dummy_tuple Hlen).
  intros k Hk. rewrite <- !sel_nth. apply H. lia.
Qed.

(** X1: [mkqs_swap(a, b, x)] on two indices of the slice exchanges the
    tuples at [a] and [b], leaves every other cell and the length as they
    were, and undoes itself when applied a second time. *)
Theorem mkqs_swap_exchanges (a b : Z) (x : list SortTuple) :
  0 <= a < Z.of_nat (length x) ->
  0 <= b < Z.of_nat (length x) ->
  sel (mkqs_swap a b x) a = sel x b /\
  sel (mkqs_swap a b x) b = sel x a /\
  (forall i, i <> a -> i <> b -> sel (mkqs_swap a b x) i = sel x i) /\
  length (mkqs_swap a b x) = length x /\
  mkqs_swap a b (mkqs_swap a b x) = x.
Proof.
  intros Ha Hb.
  assert (Hsel : forall i, sel (mkqs_swap a b x) i =
            if i =? a then sel x b else if i =? b then sel x a else sel x i)
    by (intros i; now apply sel_mkqs_swap).
  repeat apply conj.
  - rewrite Hsel. now rewrite Z.eqb_refl.
  - rewrite Hsel. rewrite Z.eqb_refl.
    destruct (Z.eqb_spec b a) as [->|]; reflexivity.
  - intros i Hia Hib. rewrite Hsel.
    destruct (Z.eqb_spec i a); [contradiction|].
    destruct (Z.eqb_spec i b); [contradiction|reflexivity].
  - apply length_mkqs_swap.
  - apply list_ext_sel; [now rewrite !length_mkqs_swap|].
    intros i Hi. rewrite sel_mkqs_swap by (rewrite length_mkqs_swap; lia).
    rewrite !Hsel. rewrite !Z.eqb_refl.
    destruct (Z.eqb_spec i a) as [->|Hia].
    + destruct (Z.eqb_spec b a) as [->|]; reflexivity.
    + destruct (Z.eqb_spec i b) as [->|Hib]; reflexivity.
Qed.

Lemma mkqs_swap_exchanges_witness :
  0 <= 0 < Z.of_nat (length mixed_sorted) /\
  0 <= 3 < Z.of_nat (length mixed_sorted) /\
  mkqs_swap 0 3 (mkqs_swap 0 3 mixed_sorted) = mixed_sorted.
Proof.
  assert (Ha : 0 <= 0 < Z.of_nat (length mixed_sorted)) by (cbn; lia).
  assert (Hb : 0 <= 3 < Z.of_nat (length mixed_sorted)) by (cbn; lia).
  split; [exact Ha|]. split; [exact Hb|].
  exact (proj2 (proj2 (proj2 (proj2 (mkqs_swap_exchanges 0 3 mixed_sorted Ha Hb))))).
Defined.

(** X2: [mkqs_vec_swap(a, b, size, x)] with a [size] that is not positive
    does nothing; on two blocks of the slice that do not overlap
    ([a + size <= b]) it exchanges the blocks cell by cell and leaves every
    other cell, the length and the set of tuples as they were. *)
Theorem mkqs_vec_swap_exchanges_blocks (a b size : Z) (x : list SortTuple) :
  (size <= 0 -> mkqs_vec_swap a b size x = x) /\
  (0 <= a -> 0 <= size -> a + size <= b -> b + size <= Z.of_nat (length x) ->
   length (mkqs_vec_swap a b size x) = length x /\
   Permutation (mkqs_vec_swap a b size x) x /\
   (forall i, 0 <= i < size ->
      sel (mkqs_vec_swap a b size x) (a + i) = sel x (b + i) /\
      sel (mkqs_vec_swap a b size x) (b + i) = sel x (a + i)) /\
   (forall i, ~ a <= i < a + size -> ~ b <= i < b + size ->
      sel (mkqs_vec_swap a b size x) i = sel x i)).
Proof.
  split.
  - intros Hs. unfold mkqs_vec_swap.
    now replace (Z.to_nat size) with O by lia.
  - intros Ha Hs Hab Hb.
    split; [apply length_mkqs_vec_swap|].
    split; [apply Permutation_mkqs_vec_swap; lia|].
    split.
    + intros i Hi. rewrite !sel_mkqs_vec_swap by lia.
      destruct (Z.leb_spec a (a + i)), (Z.ltb_spec (a + i) (a + size)),
               (Z.leb_spec a (b + i)), (Z.ltb_spec (b + i) (a + size)),
               (Z.leb_spec b (b + i)), (Z.ltb_spec (b + i) (b + size));
        cbn [andb]; try lia; split; f_equal; lia.
    + intros i Hia Hib. rewrite sel_mkqs_vec_swap by lia.
      destruct (Z.leb_spec a i), (Z.ltb_spec i (a + size)),
               (Z.leb_spec b i), (Z.ltb_spec i (b + size));
        cbn [andb]; try lia; reflexivity.
Qed.

Lemma mkqs_vec_swap_exchanges_blocks_witness :
  0 <= 0 /\ 0 <= 2 /\ 0 + 2 <= 2 /\ 2 + 2 <= Z.of_nat (length mixed_sorted) /\
  Permutation (mkqs_vec_swap 0 2 2 mixed_sorted) mixed_sorted.
Proof.
  assert (Ha : 0 <= 0) by lia.
  assert (Hs : 0 <= 2) by lia.
  assert (Hab : 0 + 2 <= 2) by lia.
  assert (Hb : 2 + 2 <= Z.of_nat (length mixed_sorted)) by (cbn; lia).
  split; [exact Ha|]. split; [exact Hs|]. split; [exact Hab|]. split; [exact Hb|].
  exact (proj1 (proj2 (proj2 (mkqs_vec_swap_exchanges_blocks 0 2 2 mixed_sorted)
                         Ha Hs Hab Hb))).
Defined.

(** ** Pivot and comparators *)

Section MoreComparators.

Context {ops : Collaborators}.
Variable state : Tuplesortstate.

(** X3: the index that pivot selection hands to the first swap lies inside
    the slice, [0 <= index < n], for every slice length [n >= 1] and whatever
    the comparators answer; this covers the nine indices the ninther reads
    when [n > 40]. *)
Theorem select_pivot_in_bounds (n depth : Z) (x : list SortTuple) :
  1 <= n ->
  0 <= select_pivot n depth state x < n /\
  (40 < n ->
   0 <= 2 * (n / 8) /\ n / 2 + n / 8 < n /\ 0 <= n / 2 - n / 8 /\
   0 <= n - 1 - 2 * (n / 8)).
Proof.
  intros Hn. split; [now apply select_pivot_range|].
  intros Hbig.
  pose proof (Z.div_mod n 8 ltac:(lia)).
  pose proof (Z.mod_pos_bound n 8 ltac:(lia)).
  pose proof (Z.div_mod n 2 ltac:(lia)).
  pose proof (Z.mod_pos_bound n 2 ltac:(lia)). lia.
Qed.

(** X4: when the comparator of every key is a total preorder, so is the
    range comparator from any depth [d < n_keys]: a tuple ties with itself,
    exchanging the arguments exchanges the sign, and "not greater" is
    transitive. *)
Theorem range_comparator_total_preorder (d : Z) :
  consistent state -> 0 <= d < nKeys state ->
  (forall a, mkqs_compare_tuple_by_range a a d state = 0) /\
  (forall a b, mkqs_compare_tuple_by_range a b d state < 0 <->
               0 < mkqs_compare_tuple_by_range b a d state) /\
  (forall a b c, mkqs_compare_tuple_by_range a b d state <= 0 ->
                 mkqs_compare_tuple_by_range b c d state <= 0 ->
                 mkqs_compare_tuple_by_range a c d state <= 0).
Proof.
  intros Hc Hd. repeat apply conj.
  - intros a. rewrite range_lex by lia.
    pose proof (lex_sym state d a a Hc ltac:(lia)). lia.
  - intros a b. rewrite !range_lex by lia. apply lex_sym; [assumption|lia].
  - intros a b c. rewrite !range_lex by lia. apply lex_trans; [assumption|lia].
Qed.

End MoreComparators.

Lemma select_pivot_in_bounds_witness :
  1 <= 18 /\
  0 <= @select_pivot (pg_ops never) 18 1
         (example_state rows_eighteen MKQS_COMP_FUNC_GENERIC None)
         (memtuples rows_eighteen) < 18.
Proof.
  assert (Hn : 1 <= 18) by lia.
  split; [exact Hn|].
  exact (proj1 (@select_pivot_in_bounds (pg_ops never) _ 18 1
                  (memtuples rows_eighteen) Hn)).
Defined.

Lemma range_comparator_total_preorder_witness :
  @consistent (pg_ops never) (example_state rows_mixed MKQS_COMP_FUNC_INT32 None) /\
  0 <= 0 < nKeys (example_state rows_mixed MKQS_COMP_FUNC_INT32 None) /\
  forall a, @mkqs_compare_tuple_by_range (pg_ops never) a a 0
              (example_state rows_mixed MKQS_COMP_FUNC_INT32 None) = 0.
Proof.
  assert (Hc : @consistent (pg_ops never)
                 (example_state rows_mixed MKQS_COMP_FUNC_INT32 None))
    by now apply pg_consistent.
  assert (Hd : 0 <= 0 < nKeys (example_state rows_mixed MKQS_COMP_FUNC_INT32 None))
    by (cbn; lia).
  split; [exact Hc|]. split; [exact Hd|].
  exact (proj1 (@range_comparator_total_preorder (pg_ops never) _ 0 Hc Hd)).
Defined.

(** ** The assertion at the end of a call *)

Section VerifyOnReturn.

Context {ops : Collaborators}.
Variable state : Tuplesortstate.
Hypothesis Hvalid : valid_state state.

(** X5: the check that [mkqs_verify] makes in assert-enabled builds holds
    whenever a call of [mk_qsort_tuple] at a depth below [n_keys] returns,
    by whichever path: no tuple is above its right neighbour at the key of
    that depth. *)
Theorem mkqs_verify_holds_on_return (n depth : Z) (seenNull : bool) (w : world) :
  Z.of_nat (length (mem w)) = n -> 0 <= depth < nKeys state ->
  match mk_qsort_tuple (enough_fuel n depth state) n depth state seenNull w with
  | Done _ w' => mkqs_verify (mem w') n depth state
  | Abort _ => True
  | Diverge => False
  end.
Proof.
  intros Hn Hd.
  pose proof (mk_qsort_tuple_sorts state Hvalid (enough_fuel n depth state)
                n depth seenNull w Hn ltac:(lia)
                ltac:(unfold enough_fuel; lia)) as H.
  unfold sat in H.
  destruct (mk_qsort_tuple _ _ _ _ _ _) as [[] w'| |]; [|exact I|exact H].
  destruct H as [Hp Ho]. intros i Hi.
  specialize (Ho i). rewrite <- (Permutation_length Hp) in Ho.
  specialize (Ho ltac:(lia)).
  rewrite range_lex in Ho by lia.
  rewrite lexicographic_compare_unfold in Ho by lia.
  destruct (Z.eqb_spec (mkqs_compare_datum (sel (mem w') i) (sel (mem w') (i + 1))
                          depth state) 0); lia.
Qed.

End VerifyOnReturn.

Lemma mkqs_verify_holds_on_return_witness :
  Z.of_nat (length (memtuples rows_mixed)) = 4 /\
  0 <= 0 < nKeys (example_state rows_mixed MKQS_COMP_FUNC_GENERIC (Some keep_handler)) /\
  @mk_qsort_tuple (pg_ops never)
    (@enough_fuel 4 0 (example_state rows_mixed MKQS_COMP_FUNC_GENERIC (Some keep_handler)))
    4 0 (example_state rows_mixed MKQS_COMP_FUNC_GENERIC (Some keep_handler)) false
    (mkWorld (memtuples rows_mixed) 0 [])
  = Done tt (mkWorld mixed_sorted 11
               [mkDupCall [mkSortTuple 0 2 false; mkSortTuple 2 2 false] 2 false 1]) /\
  match @mk_qsort_tuple (pg_ops never)
    (@enough_fuel 4 0 (example_state rows_mixed MKQS_COMP_FUNC_GENERIC (Some keep_handler)))
    4 0 (example_state rows_mixed MKQS_COMP_FUNC_GENERIC (Some keep_handler)) false
    (mkWorld (memtuples rows_mixed) 0 []) with
  | Done _ w' =>
      @mkqs_verify (pg_ops never) (mem w') 4 0
        (example_state rows_mixed MKQS_COMP_FUNC_GENERIC (Some keep_handler))
  | Abort _ => True
  | Diverge => False
  end.
Proof.
  assert (Hd : 0 <= 0 < nKeys (example_state rows_mixed MKQS_COMP_FUNC_GENERIC
                                 (Some keep_handler))) by (cbn; lia).
  split; [reflexivity|]. split; [exact Hd|]. split; [vm_compute; reflexivity|].
  exact (@mkqs_verify_holds_on_return (pg_ops never) _
           (proj2 (example_valid never rows_mixed MKQS_COMP_FUNC_GENERIC))
           4 0 false (mkWorld (memtuples rows_mixed) 0 []) eq_refl Hd).
Defined.

(** ** Interrupts and handler errors *)

Section Unwinding.

Context {ops : Collaborators}.
Variable state : Tuplesortstate.



















Hypothesis handler_ok : handler_permutes state.



End Unwinding.



(** ** What the duplicate handler is given *)

Lemma first_nonzero_zeros (l : list Z) :
  Forall (fun c => c = 0) l -> first_nonzero l = 0.
Proof.
  induction 1 as [|c l Hc _ IH]; [reflexivity|].
  cbn [first_nonzero]. now rewrite Hc.
Qed.

Lemma lex_zero_of_ties {ops : Collaborators} (state : Tuplesortstate)
    (a b : SortTuple) :
  (forall d, 0 <= d < nKeys state -> mkqs_compare_datum a b d state = 0) ->
  lexicographic_compare a b 0 state = 0.
Proof.
  intros H. unfold lexicographic_compare. apply first_nonzero_zeros.
  apply Forall_forall. intros c Hc. apply in_map_iff in Hc.
  destruct Hc as (d & <- & Hd). apply In_depths_from in Hd. now apply H.
Qed.

(** Two cells of a list whose ordered pairs all satisfy [R] are related one
    way or the other. *)
Lemma ordered_pairs_of_two (R : SortTuple -> SortTuple -> Prop)
    (x : list SortTuple) :
  forall a b t, ForallOrdPairs R x -> Permutation x (a :: b :: t) ->
                R a b \/ R b a.
Proof.
  induction x as [|h tl IH]; intros a b t Hfop Hp.
  - apply Permutation_nil in Hp. discriminate.
  - inversion Hfop as [|? ? Hh Htl]; subst. rewrite Forall_forall in Hh.
    assert (Hin : In h (a :: b :: t)).
    { eapply Permutation_in; [exact Hp|now left]. }
    destruct Hin as [E|[E|Hin]].
    + subst h. left. apply Hh. apply Permutation_cons_inv in Hp.
      eapply Permutation_in; [symmetry; exact Hp|now left].
    + subst h. right. apply Hh.
      assert (Hp' : Permutation (b :: tl) (b :: a :: t)).
      { rewrite Hp. apply perm_swap. }
      apply Permutation_cons_inv in Hp'.
      eapply Permutation_in; [symmetry; exact Hp'|now left].
    + destruct (in_split _ _ Hin) as (t1 & t2 & ->).
      apply (IH a b (t1 ++ t2) Htl).
      apply Permutation_cons_inv with h. rewrite Hp.
      change (a :: b :: t1 ++ h :: t2) with ((a :: b :: t1) ++ h :: t2).
      rewrite <- Permutation_middle. reflexivity.
Qed.

Section GenuineDuplicates.

Context {ops : Collaborators}.
Variable state : Tuplesortstate.
Hypothesis handler_ok : handler_permutes state.
Hypothesis Hcons : consistent state.

Lemma genuine_duplicates_within (x y rest : list SortTuple) (c : DupCall) :
  Permutation x (y ++ rest) ->
  genuine_duplicates state y c -> genuine_duplicates state x c.
Proof.
  intros Hp (Hlen & Hcount & Hdepth & (r & Hr) & Heq).
  repeat (split; [assumption|]). split; [|exact Heq].
  exists (r ++ rest). rewrite Hp, Hr. now rewrite app_assoc.
Qed.

Lemma equal_below_perm (depth : Z) (x y : list SortTuple) :
  Permutation x y -> equal_below state depth x -> equal_below state depth y.
Proof.
  intros Hp H a b Ha Hb. apply H; eapply Permutation_in; try eassumption;
    now symmetry.
Qed.

Lemma equal_below_part (depth : Z) (x y : list SortTuple) :
  incl y x -> equal_below state depth x -> equal_below state depth y.
Proof.
  intros Hi H a b Ha Hb. apply H; now apply Hi.
Qed.

Lemma mk_qsort_tuple_calls (fuel : nat) :
  forall (n depth : Z) (seenNull : bool) (w : world),
    Z.of_nat (length (mem w)) = n ->
    0 <= depth <= nKeys state ->
    (Z.to_nat n + Z.to_nat (nKeys state - depth) < fuel)%nat ->
    equal_below state depth (mem w) ->
    sat (mk_qsort_tuple fuel n depth state seenNull) w
        (fun _ w' => exists new, trace w' = trace w ++ new /\
                                 Forall (genuine_duplicates state (mem w)) new)
        (fun w' => exists new, trace w' = trace w ++ new /\
                               Forall (genuine_duplicates state (mem w)) new).
Proof.
  induction fuel as [|fuel IH]; intros n depth seenNull w Hn Hdepth Hfuel Hbelow; [lia|].
  assert (Hnil : forall w', trace w' = trace w ->
            exists new, trace w' = trace w ++ new /\
                        Forall (genuine_duplicates state (mem w)) new).
  { intros w' Ht. exists []. now rewrite app_nil_r. }
  rewrite mk_qsort_tuple_unfold.
  destruct (Z.leb_spec n 1) as [|Hn2]; [apply sat_ret; now apply Hnil|].
  destruct (Z.eqb_spec depth (nKeys state)) as [|Hd]; [apply sat_ret; now apply Hnil|].
  apply sat_bind, sat_check; [|now apply Hnil]. cbn [mem clock trace].
  apply sat_bind.
  eapply sat_weaken;
    [apply (pre_ordered_check_spec state n depth); exact Hn| |]; cbn [mem clock trace].
  2:{ intros w1 [_ Ht]. now apply Hnil. }
  intros ordered w1 (Hm & Ht & _).
  destruct ordered; [apply sat_ret; now apply Hnil|].
  destruct ((n <? 16) && negb (has_handler state)).
  { apply sat_modify_mem. now apply Hnil. }
  apply sat_bind.
  eapply sat_weaken;
    [apply (partition_spec state n depth); [lia|rewrite Hm; exact Hn]| |]; cbn beta.
  2:{ intros w2 [_ Ht2]. apply Hnil. congruence. }
  intros c w2 [Hlay [Hp Ht2]]. rewrite Hm in *.
  destruct (layout_parts _ _ _ _ _ _ Hlay) as (l & e & g & Hx & Hl & He & Hg & Fl & Fe & Fg).
  destruct Hlay as (Hlen & Hsz & _).
  destruct w2 as [x2 clk2 tr2]. cbn [mem trace] in *. subst x2.
  rewrite Ht in Ht2.
  set (p := sel (mem w) (select_pivot n depth state (mem w))) in *.
  pose proof (Hcons depth ltac:(lia)) as Hcd.
  assert (Fe' : forall t, In t e -> mkqs_compare_datum t p depth state = 0).
  { rewrite Forall_forall in Fe. intros t Hte.
    destruct (Fe t Hte) as [Hz| ->]; [exact Hz|now apply cmp_refl]. }
  assert (Hbl : equal_below state depth l).
  { apply equal_below_part with (mem w); [|exact Hbelow].
    intros t Ht'. eapply Permutation_in; [symmetry; exact Hp|].
    apply in_or_app. now left. }
  assert (Hbe0 : equal_below state depth e).
  { apply equal_below_part with (mem w); [|exact Hbelow].
    intros t Ht'. eapply Permutation_in; [symmetry; exact Hp|].
    apply in_or_app. right. apply in_or_app. now left. }
  assert (Hbg : equal_below state depth g).
  { apply equal_below_part with (mem w); [|exact Hbelow].
    intros t Ht'. eapply Permutation_in; [symmetry; exact Hp|].
    apply in_or_app. right. apply in_or_app. now right. }
  assert (Hbe : equal_below state (depth + 1) e).
  { intros a b Ha Hb d Hd'. destruct (Z.eq_dec d depth) as [->|Hne].
    - apply (cmp_equal_class state depth a b p Hcd); now apply Fe'.
    - apply Hbe0; try assumption. lia. }
  assert (Pl : Permutation (mem w) (l ++ (e ++ g))) by exact Hp.
  assert (Pe : Permutation (mem w) (e ++ (l ++ g))).
  { rewrite Hp. rewrite app_assoc.
    rewrite (Permutation_app_comm l e). now rewrite <- app_assoc. }
  assert (Pg : Permutation (mem w) (g ++ (l ++ e))).
  { rewrite Hp. rewrite (Permutation_app_comm g). now rewrite app_assoc. }
  apply sat_recurse_parts; try lia.
  eapply sat_weaken;
    [apply sat_and;
       [apply (IH _ depth seenNull); cbn [mem]; try lia; exact Hbl
       |apply (mk_qsort_tuple_permutes state handler_ok fuel _ depth seenNull);
        cbn [mem]; lia]
    | |]; cbn [mem clock trace].
  2:{ intros w3 [(new & Hnew & Hgood) _]. exists new. split; [congruence|].
      eapply Forall_impl; [|exact Hgood].
      intros c0. now apply genuine_duplicates_within with (e ++ g). }
  intros [] w3 [(newl & Hnewl & Hgl) Hp3].
  split; [symmetry; now apply Permutation_length|].
  assert (Hgl' : Forall (genuine_duplicates state (mem w)) newl).
  { eapply Forall_impl; [|exact Hgl].
    intros c0. now apply genuine_duplicates_within with (e ++ g). }
  assert (Hmid :
    sat (on_equal_part (mk_qsort_tuple fuel) (equal_size n c) depth state
           (seenNull || check_datum_null (sel e 0) depth state))
        (mkWorld e (clock w3) (trace w3))
        (fun _ w4 => length (mem w4) = length e /\
                     exists new, trace w4 = trace w3 ++ new /\
                                 Forall (genuine_duplicates state e) new)
        (fun w4 => exists new, trace w4 = trace w3 ++ new /\
                               Forall (genuine_duplicates state e) new)).
  { unfold on_equal_part.
    destruct (Z.ltb_spec depth (nKeys state - 1)).
    - eapply sat_weaken;
        [apply sat_and;
           [apply IH; cbn [mem]; try lia; exact Hbe
           |apply (mk_qsort_tuple_permutes state handler_ok fuel);
            cbn [mem]; lia]
        | |]; cbn [mem clock trace].
      + intros [] w4 [Hg4 Hp4]. split; [symmetry; now apply Permutation_length|exact Hg4].
      + intros w4 [Hg4 _]. exact Hg4.
    - destruct (mkqsHandleDupFunc state) as [h|] eqn:Eh.
      2:{ apply sat_ret. split; [reflexivity|]. exists []. now rewrite app_nil_r. }
      destruct (Z.gtb_spec (equal_size n c) 1) as [Hbig|].
      2:{ apply sat_ret. split; [reflexivity|]. exists []. now rewrite app_nil_r. }
      apply sat_call_handler. cbn [mem trace]. intros w4 ->. cbn [mem trace].
      rewrite slice_whole, splice_whole by lia.
      assert (Hcall : exists new,
                trace w3 ++ [mkDupCall e (equal_size n c)
                               (seenNull || check_datum_null (sel e 0) depth state)
                               depth] = trace w3 ++ new /\
                Forall (genuine_duplicates state e) new).
      { eexists. split; [reflexivity|]. constructor; [|constructor].
        unfold genuine_duplicates. cbn [dup_slice dup_count dup_depth].
        split; [lia|]. split; [lia|]. split; [lia|].
        split; [exists []; now rewrite app_nil_r|].
        intros a b Ha Hb d Hd'. apply Hbe; try assumption. lia. }
      split; [split|]; try exact Hcall.
      symmetry. apply Permutation_length. now apply handler_ok. }
  eapply sat_weaken; [exact Hmid| |]; cbn [mem clock trace].
  2:{ intros w4 (newe & Hnewe & Hge). exists (newl ++ newe).
      split; [rewrite Hnewe, Hnewl, Ht2; now rewrite app_assoc|].
      apply Forall_app. split; [assumption|].
      eapply Forall_impl; [|exact Hge].
      intros c0. now apply genuine_duplicates_within with (l ++ g). }
  intros [] w4 (Hlen4 & newe & Hnewe & Hge). split; [exact Hlen4|].
  assert (Hge' : Forall (genuine_duplicates state (mem w)) newe).
  { eapply Forall_impl; [|exact Hge].
    intros c0. now apply genuine_duplicates_within with (l ++ g). }
  eapply sat_weaken;
    [apply (IH _ depth seenNull); cbn [mem]; try lia; exact Hbg
    | |]; cbn [mem clock trace].
  - intros [] w5 (newg & Hnewg & Hgg). exists (newl ++ newe ++ newg).
    split; [rewrite Hnewg, Hnewe, Hnewl, Ht2; now rewrite !app_assoc|].
    repeat (apply Forall_app; split); try assumption.
    eapply Forall_impl; [|exact Hgg].
    intros c0. now apply genuine_duplicates_within with (l ++ e).
  - intros w5 (newg & Hnewg & Hgg). exists (newl ++ newe ++ newg).
    split; [rewrite Hnewg, Hnewe, Hnewl, Ht2; now rewrite !app_assoc|].
    repeat (apply Forall_app; split); try assumption.
    eapply Forall_impl; [|exact Hgg].
    intros c0. now apply genuine_duplicates_within with (l ++ e).
Qed.

Lemma sort_memtuples_calls (x : list SortTuple) :
  0 <= nKeys state ->
  match sort_memtuples state x with
  | Done _ w' | Abort w' => Forall (genuine_duplicates state x) (trace w')
  | Diverge => False
  end.
Proof.
  intros Hkeys.
  pose proof (mk_qsort_tuple_calls
                (enough_fuel (Z.of_nat (length x)) 0 state)
                (Z.of_nat (length x)) 0 false (mkWorld x 0 [])) as H.
  unfold sat in H. unfold sort_memtuples. cbn [mem trace app] in H.
  destruct (mk_qsort_tuple _ _ _ _ _ _) as [[] w'|w'|].
  - destruct H as (new & -> & Hg); try assumption; try reflexivity; try lia.
    + unfold enough_fuel. lia.
    + intros a b _ _ d Hd. lia.
  - destruct H as (new & -> & Hg); try assumption; try reflexivity; try lia.
    + unfold enough_fuel. lia.
    + intros a b _ _ d Hd. lia.
  - apply H; try reflexivity; try lia.
    + unfold enough_fuel. lia.
    + intros a b _ _ d Hd. lia.
Qed.

(** X8: whatever the leading kind and however the sort ends, every call of
    the duplicate handler that a sort started at depth 0 makes is on genuine
    duplicates: at least two tuples of the input that compare equal to each
    other at every one of the [n_keys] keys, with their number as count, made
    from depth [n_keys - 1]. *)
Theorem handler_only_given_duplicates (x : list SortTuple) :
  0 <= nKeys state ->
  match sort_memtuples state x with
  | Done _ w' | Abort w' =>
      forall c, In c (trace w') -> genuine_duplicates state x c
  | Diverge => False
  end.
Proof.
  intros Hkeys. pose proof (sort_memtuples_calls x Hkeys) as H.
  destruct (sort_memtuples state x); try exact H;
    now apply Forall_forall.
Qed.

(** X9: when no two tuples of the input compare equal on every key, a sort
    started at depth 0 never calls the duplicate handler, whatever the
    leading kind and however the sort ends. *)
Theorem distinct_keys_need_no_handler (x : list SortTuple) :
  0 <= nKeys state -> distinct_keys state x ->
  match sort_memtuples state x with
  | Done _ w' | Abort w' => trace w' = []
  | Diverge => False
  end.
Proof.
  intros Hkeys Hdist. pose proof (sort_memtuples_calls x Hkeys) as H.
  assert (Hnone : forall tr, Forall (genuine_duplicates state x) tr -> tr = []).
  { intros [|c tr] Hall; [reflexivity|exfalso].
    inversion Hall as [|? ? (Hlen & _ & _ & (rest & Hp) & Heq) _]; subst.
    destruct (dup_slice c) as [|a [|b s]] eqn:Es; cbn [length] in Hlen; try lia.
    assert (Hab : lexicographic_compare a b 0 state = 0).
    { apply lex_zero_of_ties. intros d Hd.
      apply Heq; [now left|right; now left|exact Hd]. }
    assert (Hba : lexicographic_compare b a 0 state = 0).
    { apply lex_zero_of_ties. intros d Hd.
      apply Heq; [right; now left|now left|exact Hd]. }
    destruct (ordered_pairs_of_two _ _ a b (s ++ rest) Hdist Hp); contradiction. }
  destruct (sort_memtuples state x); try exact H; now apply Hnone.
Qed.

End GenuineDuplicates.
Lemma handler_only_given_duplicates_witness :
  handler_permutes (example_state rows_mixed MKQS_COMP_FUNC_INT32 (Some keep_handler)) /\
  @consistent (pg_ops never)
    (example_state rows_mixed MKQS_COMP_FUNC_INT32 (Some keep_handler)) /\
  0 <= nKeys (example_state rows_mixed MKQS_COMP_FUNC_INT32 (Some keep_handler)) /\
  @sort_memtuples (pg_ops never)
    (example_state rows_mixed MKQS_COMP_FUNC_INT32 (Some keep_handler))
    (memtuples rows_mixed)
  = Done tt (mkWorld mixed_sorted 10
               [mkDupCall [mkSortTuple 0 2 false; mkSortTuple 2 2 false] 2 false 1]) /\
  match @sort_memtuples (pg_ops never)
          (example_state rows_mixed MKQS_COMP_FUNC_INT32 (Some keep_handler))
          (memtuples rows_mixed) with
  | Done _ w' | Abort w' =>
      forall c, In c (trace w') ->
        @genuine_duplicates (pg_ops never)
          (example_state rows_mixed MKQS_COMP_FUNC_INT32 (Some keep_handler))
          (memtuples rows_mixed) c
  | Diverge => False
  end.
Proof.
  assert (Hh : handler_permutes
                 (example_state rows_mixed MKQS_COMP_FUNC_INT32 (Some keep_handler)))
    by now apply keep_handler_permutes.
  assert (Hc : @consistent (pg_ops never)
                 (example_state rows_mixed MKQS_COMP_FUNC_INT32 (Some keep_handler)))
    by now apply pg_consistent.
  assert (Hk : 0 <= nKeys (example_state rows_mixed MKQS_COMP_FUNC_INT32
                             (Some keep_handler))) by (cbn; lia).
  split; [exact Hh|]. split; [exact Hc|]. split; [exact Hk|].
  split; [vm_compute; reflexivity|].
  exact (@handler_only_given_duplicates (pg_ops never) _ Hh Hc
           (memtuples rows_mixed) Hk).
Defined.

Lemma distinct_keys_need_no_handler_witness :
  handler_permutes (example_state rows_nulls MKQS_COMP_FUNC_INT32 (Some keep_handler)) /\
  @consistent (pg_ops never)
    (example_state rows_nulls MKQS_COMP_FUNC_INT32 (Some keep_handler)) /\
  0 <= nKeys (example_state rows_nulls MKQS_COMP_FUNC_INT32 (Some keep_handler)) /\
  @distinct_keys (pg_ops never)
    (example_state rows_nulls MKQS_COMP_FUNC_INT32 (Some keep_handler))
    (memtuples rows_nulls) /\
  match @sort_memtuples (pg_ops never)
          (example_state rows_nulls MKQS_COMP_FUNC_INT32 (Some keep_handler))
          (memtuples rows_nulls) with
  | Done _ w' | Abort w' => trace w' = []
  | Diverge => False
  end.
Proof.
  assert (Hh : handler_permutes
                 (example_state rows_nulls MKQS_COMP_FUNC_INT32 (Some keep_handler)))
    by now apply keep_handler_permutes.
  assert (Hc : @consistent (pg_ops never)
                 (example_state rows_nulls MKQS_COMP_FUNC_INT32 (Some keep_handler)))
    by now apply pg_consistent.
  assert (Hk : 0 <= nKeys (example_state rows_nulls MKQS_COMP_FUNC_INT32
                             (Some keep_handler))) by (cbn; lia).
  assert (Hd : @distinct_keys (pg_ops never)
                 (example_state rows_nulls MKQS_COMP_FUNC_INT32 (Some keep_handler))
                 (memtuples rows_nulls)).
  { unfold distinct_keys.
    repeat first [apply FOP_cons | apply FOP_nil | apply Forall_cons | apply Forall_nil];
      vm_compute; discriminate. }
  split; [exact Hh|]. split; [exact Hc|]. split; [exact Hk|]. split; [exact Hd|].
  exact (@distinct_keys_need_no_handler (pg_ops never) _ Hh Hc
           (memtuples rows_nulls) Hk Hd).
Defined.

(** ** A slice that is already in strict order *)

Section StrictOrder.

Context {ops : Collaborators}.
Variable state : Tuplesortstate.

Lemma strict_ordered_loop_clock (k : nat) (depth : Z) :
  forall (i : Z) (w : world),
    sat (strict_ordered_loop k i depth state) w
        (fun b w' => b = true -> clock w' = (clock w + k)%nat)
        (fun _ => True).
Proof.
  induction k as [|k IH]; intros i w; cbn [strict_ordered_loop].
  - apply sat_ret. intros _. lia.
  - apply sat_bind, sat_check; [|exact I].
    apply sat_bind, sat_get_mem. cbn [mem clock trace].
    destruct (_ >=? 0); [apply sat_ret; discriminate|].
    eapply sat_weaken; [apply IH| |]; cbn [clock]; [|auto].
    intros b w' H Hb. rewrite (H Hb). lia.
Qed.

(** X10: with the GENERIC leading kind, a call on a slice of at least two
    tuples whose datums at the current depth are in strictly increasing order
    moves no tuple and calls no handler, however it ends; when it returns it
    has made [n] interrupt checks, the one on entry and one before each of
    the [n - 1] comparisons. *)
Theorem strictly_ordered_slice_untouched (fuel : nat) (n depth : Z)
    (seenNull : bool) (w : world) :
  is_generic (mkqsCompFuncType state) = true ->
  Z.of_nat (length (mem w)) = n -> 2 <= n -> depth <> nKeys state ->
  (forall j, 0 <= j < n - 1 ->
     mkqs_compare_datum (sel (mem w) j) (sel (mem w) (j + 1)) depth state < 0) ->
  match mk_qsort_tuple (S fuel) n depth state seenNull w with
  | Done _ w' => mem w' = mem w /\ trace w' = trace w /\
                 clock w' = (clock w + Z.to_nat n)%nat
  | Abort w' => mem w' = mem w /\ trace w' = trace w
  | Diverge => False
  end.
Proof.
  intros Hkind Hn Hn2 Hd Hstrict.
  enough (H : sat (mk_qsort_tuple (S fuel) n depth state seenNull) w
                (fun _ w' => mem w' = mem w /\ trace w' = trace w /\
                             clock w' = (clock w + Z.to_nat n)%nat)
                (fun w' => mem w' = mem w /\ trace w' = trace w)).
  { unfold sat in H. destruct (mk_qsort_tuple _ _ _ _ _ _); exact H. }
  rewrite mk_qsort_tuple_unfold.
  destruct (Z.leb_spec n 1); [lia|].
  destruct (Z.eqb_spec depth (nKeys state)); [contradiction|].
  apply sat_bind, sat_check; [|cbn [mem trace]; auto].
  apply sat_bind.
  eapply sat_weaken;
    [apply sat_and;
       [apply (pre_ordered_check_spec state n depth); exact Hn
       |unfold pre_ordered_check; rewrite Hkind; cbn [negb];
        apply strict_ordered_loop_clock]
    | |]; cbn [mem clock trace].
  2:{ intros w1 [[Hm Ht] _]. auto. }
  intros ordered w1 [(Hm & Ht & Hiff) Hclk]. rewrite Hkind in Hiff.
  assert (ordered = true) as -> by (apply Hiff; exact Hstrict).
  apply sat_ret. split; [exact Hm|]. split; [exact Ht|].
  rewrite (Hclk eq_refl). lia.
Qed.

End StrictOrder.

Lemma strictly_ordered_slice_untouched_witness :
  is_generic (mkqsCompFuncType
                (example_state rows_mixed MKQS_COMP_FUNC_GENERIC (Some keep_handler))) = true /\
  Z.of_nat (length [mkSortTuple 3 1 false; mkSortTuple 0 2 false]) = 2 /\
  2 <= 2 /\
  0 <> nKeys (example_state rows_mixed MKQS_COMP_FUNC_GENERIC (Some keep_handler)) /\
  (forall j, 0 <= j < 2 - 1 ->
     @mkqs_compare_datum (pg_ops never)
       (sel [mkSortTuple 3 1 false; mkSortTuple 0 2 false] j)
       (sel [mkSortTuple 3 1 false; mkSortTuple 0 2 false] (j + 1)) 0
       (example_state rows_mixed MKQS_COMP_FUNC_GENERIC (Some keep_handler)) < 0) /\
  @mk_qsort_tuple (pg_ops never) 1 2 0
    (example_state rows_mixed MKQS_COMP_FUNC_GENERIC (Some keep_handler)) false
    (mkWorld [mkSortTuple 3 1 false; mkSortTuple 0 2 false] 0 [])
  = Done tt (mkWorld [mkSortTuple 3 1 false; mkSortTuple 0 2 false] 2 []) /\
  match @mk_qsort_tuple (pg_ops never) 1 2 0
          (example_state rows_mixed MKQS_COMP_FUNC_GENERIC (Some keep_handler)) false
          (mkWorld [mkSortTuple 3 1 false; mkSortTuple 0 2 false] 0 []) with
  | Done _ w' =>
      mem w' = [mkSortTuple 3 1 false; mkSortTuple 0 2 false] /\
      trace w' = [] /\ clock w' = (0 + Z.to_nat 2)%nat
  | Abort w' =>
      mem w' = [mkSortTuple 3 1 false; mkSortTuple 0 2 false] /\ trace w' = []
  | Diverge => False
  end.
Proof.
  assert (Hd : 0 <> nKeys (example_state rows_mixed MKQS_COMP_FUNC_GENERIC
                             (Some keep_handler))) by (cbn; lia).
  assert (Hn : 2 <= 2) by lia.
  assert (Hs : forall j, 0 <= j < 2 - 1 ->
            @mkqs_compare_datum (pg_ops never)
              (sel [mkSortTuple 3 1 false; mkSortTuple 0 2 false] j)
              (sel [mkSortTuple 3 1 false; mkSortTuple 0 2 false] (j + 1)) 0
              (example_state rows_mixed MKQS_COMP_FUNC_GENERIC (Some keep_handler)) < 0).
  { intros j Hj. replace j with 0 by lia. vm_compute. reflexivity. }
  split; [reflexivity|]. split; [reflexivity|]. split; [exact Hn|].
  split; [exact Hd|]. split; [exact Hs|]. split; [vm_compute; reflexivity|].
  exact (@strictly_ordered_slice_untouched (pg_ops never)
           (example_state rows_mixed MKQS_COMP_FUNC_GENERIC (Some keep_handler))
           0 2 0 false
           (mkWorld [mkSortTuple 3 1 false; mkSortTuple 0 2 false] 0 [])
           eq_refl eq_refl Hn Hd Hs).
Defined.

(** ** The [seenNull] argument *)

Section SeenNullOnlyInforms.

Context {ops : Collaborators}.
Variable state : Tuplesortstate.

Lemma same_run_bind {A B} (m m' : M A) (k k' : A -> M B) :
  same_run m m' -> (forall a, same_run (k a) (k' a)) ->
  same_run (bind m k) (bind m' k').
Proof.
  intros Hm Hk w. unfold bind. rewrite Hm.
  destruct (m' w); [apply Hk|reflexivity|reflexivity].
Qed.

Lemma same_run_at_slice {A} (off len : Z) (m m' : M A) :
  same_run m m' -> same_run (at_slice off len m) (at_slice off len m').
Proof.
  intros Hm w. unfold at_slice. now rewrite Hm.
Qed.

(** X11: [seenNull] only informs the duplicate handler: when no handler is
    set, two calls of [mk_qsort_tuple] that differ in nothing but the
    [seenNull] argument do the same and end in the same state. *)
Theorem seen_null_only_informs_handler (fuel : nat) (n depth : Z)
    (flag1 flag2 : bool) (w : world) :
  has_handler state = false ->
  mk_qsort_tuple fuel n depth state flag1 w =
  mk_qsort_tuple fuel n depth state flag2 w.
Proof.
  intros Hnone.
  assert (Hh : mkqsHandleDupFunc state = None).
  { unfold has_handler in Hnone. destruct (mkqsHandleDupFunc state); [discriminate|].
    reflexivity. }
  enough (H : forall fuel n depth flag1 flag2,
            same_run (mk_qsort_tuple fuel n depth state flag1)
                     (mk_qsort_tuple fuel n depth state flag2)) by apply H.
  clear fuel n depth flag1 flag2 w.
  induction fuel as [|fuel IH]; intros n depth flag1 flag2; [intros w; reflexivity|].
  rewrite !mk_qsort_tuple_unfold.
  destruct (n <=? 1); [intros w; reflexivity|].
  destruct (depth =? nKeys state); [intros w; reflexivity|].
  apply same_run_bind; [intros w; reflexivity|]. intros _.
  apply same_run_bind; [intros w; reflexivity|]. intros ordered.
  destruct ordered; [intros w; reflexivity|].
  destruct (_ && _); [intros w; reflexivity|].
  apply same_run_bind; [intros w; reflexivity|]. intros c.
  unfold recurse_parts.
  apply same_run_bind; [apply same_run_at_slice, IH|]. intros _.
  apply same_run_bind; [intros w; reflexivity|]. intros x.
  apply same_run_bind; [|intros _; apply same_run_at_slice, IH].
  destruct (_ <? _); [apply same_run_at_slice, IH|].
  rewrite Hh. intros w. reflexivity.
Qed.

End SeenNullOnlyInforms.

Lemma seen_null_only_informs_handler_witness :
  has_handler (example_state rows_eighteen MKQS_COMP_FUNC_GENERIC None) = false /\
  @mk_qsort_tuple (pg_ops never) 20 18 0
    (example_state rows_eighteen MKQS_COMP_FUNC_GENERIC None) true
    (mkWorld (memtuples rows_eighteen) 0 []) =
  @mk_qsort_tuple (pg_ops never) 20 18 0
    (example_state rows_eighteen MKQS_COMP_FUNC_GENERIC None) false
    (mkWorld (memtuples rows_eighteen) 0 []).
Proof.
  split; [reflexivity|].
  exact (@seen_null_only_informs_handler (pg_ops never)
           (example_state rows_eighteen MKQS_COMP_FUNC_GENERIC None)
           20 18 0 true false
           (mkWorld (memtuples rows_eighteen) 0 []) eq_refl).
Defined.

(** ** The order of the input *)

Section InputOrder.

Context {ops : Collaborators}.
Variable state : Tuplesortstate.
Hypothesis Hvalid : valid_state state.

(** X12: the sorted array does not depend on how the input was arranged,
    up to ties: completed sorts of two arrangements of the same tuples leave,
    at every position, tuples that compare equal on all keys. *)
Theorem result_independent_of_input_order (x y : list SortTuple) :
  Permutation x y ->
  match sort_memtuples state x, sort_memtuples state y with
  | Done _ wx, Done _ wy => Forall2 (same_keys state) (mem wx) (mem wy)
  | Diverge, _ | _, Diverge => False
  | _, _ => True
  end.
Proof.
  intros Hxy.
  pose proof (valid_consistent _ Hvalid) as Hcons.
  assert (Hkeys : 0 < nKeys state) by (destruct Hvalid; lia).
  assert (Hrun : forall z,
            sat (mk_qsort_tuple (enough_fuel (Z.of_nat (length z)) 0 state)
                   (Z.of_nat (length z)) 0 state false) (mkWorld z 0 [])
                (fun _ w' => Permutation z (mem w') /\ ordered_from 0 state (mem w'))
                (fun _ => True)).
  { intros z. apply (mk_qsort_tuple_sorts state Hvalid); cbn [mem];
      [reflexivity|lia|unfold enough_fuel; lia]. }
  pose proof (Hrun x) as Hx. pose proof (Hrun y) as Hy.
  unfold sat in Hx, Hy. unfold sort_memtuples.
  destruct (mk_qsort_tuple _ (Z.of_nat (length x)) _ _ _ _) as [[] wx|wx|];
    destruct (mk_qsort_tuple _ (Z.of_nat (length y)) _ _ _ _) as [[] wy|wy|];
    try exact I; try contradiction.
  cbn [mem] in Hx, Hy.
  destruct Hx as [Hpx Hox], Hy as [Hpy Hoy].
  rewrite ordered_from_Sorted in Hox, Hoy by assumption.
  assert (Hrefl : forall a, le_from state 0 a a).
  { intros a. unfold le_from. rewrite range_lex by lia.
    pose proof (lex_sym state 0 a a Hcons ltac:(lia)). lia. }
  assert (H : Forall2 (fun a b => le_from state 0 a b /\ le_from state 0 b a)
                      (mem wx) (mem wy)).
  { apply sorted_same_tuples; try assumption.
    - intros a b c. unfold le_from. rewrite !range_lex by lia.
      apply lex_trans; [assumption|lia].
    - exists (mem wy). split.
      + rewrite <- Hpx, <- Hpy. exact Hxy.
      + generalize (mem wy). intros l. induction l as [|a l IH]; constructor; auto. }
  eapply Forall2_impl; [|exact H]. cbn beta.
  intros a b [Hab Hba]. unfold same_keys, le_from in *.
  rewrite range_lex in Hab, Hba by lia.
  pose proof (lex_sym state 0 a b Hcons ltac:(lia)).
  pose proof (lex_sym state 0 b a Hcons ltac:(lia)). lia.
Qed.

End InputOrder.
Lemma result_independent_of_input_order_witness :
  @valid_state (pg_ops never) (example_state rows_mixed MKQS_COMP_FUNC_INT32 None) /\
  Permutation (memtuples rows_mixed) mixed_partitioned /\
  @sort_memtuples (pg_ops never) (example_state rows_mixed MKQS_COMP_FUNC_INT32 None)
    (memtuples rows_mixed)
  = Done tt (mkWorld mixed_sorted 2 []) /\
  @sort_memtuples (pg_ops never) (example_state rows_mixed MKQS_COMP_FUNC_INT32 None)
    mixed_partitioned
  = Done tt (mkWorld [mkSortTuple 3 1 false; mkSortTuple 1 1 false;
                      mkSortTuple 2 2 false; mkSortTuple 0 2 false] 2 []) /\
  match @sort_memtuples (pg_ops never)
          (example_state rows_mixed MKQS_COMP_FUNC_INT32 None) (memtuples rows_mixed),
        @sort_memtuples (pg_ops never)
          (example_state rows_mixed MKQS_COMP_FUNC_INT32 None) mixed_partitioned with
  | Done _ wx, Done _ wy =>
      Forall2 (@same_keys (pg_ops never)
                 (example_state rows_mixed MKQS_COMP_FUNC_INT32 None))
              (mem wx) (mem wy)
  | Diverge, _ | _, Diverge => False
  | _, _ => True
  end.
Proof.
  assert (Hv : @valid_state (pg_ops never)
                 (example_state rows_mixed MKQS_COMP_FUNC_INT32 None))
    by apply (proj1 (example_valid never rows_mixed MKQS_COMP_FUNC_INT32)).
  assert (Hp : Permutation (memtuples rows_mixed) mixed_partitioned).
  { apply (Permutation_cons_app
             [mkSortTuple 1 1 false; mkSortTuple 3 1 false; mkSortTuple 2 2 false] []).
    cbn [app]. apply perm_skip. apply perm_swap. }
  split; [exact Hv|]. split; [exact Hp|].
  split; [vm_compute; reflexivity|]. split; [vm_compute; reflexivity|].
  exact (@result_independent_of_input_order (pg_ops never) _ Hv
           (memtuples rows_mixed) mixed_partitioned Hp).
Defined.

(** ** A small slice that is already in order *)

Section SmallOrdered.

Context {ops : Collaborators}.
Variable state : Tuplesortstate.

Lemma insertion_loop_ordered (depth : Z) (x : list SortTuple) (k : nat) :
  ordered_from depth state x ->
  forall m, 0 <= m -> m + Z.of_nat k <= Z.of_nat (length x) ->
            insertion_loop k m depth state x = x.
Proof.
  intros Hord. induction k as [|k IH]; intros m Hm Hk; cbn [insertion_loop];
    [reflexivity|].
  assert (Hdown : insert_down (Z.to_nat m) m depth state x = x).
  { destruct (Z.to_nat m) as [|j] eqn:Ej; cbn [insert_down]; [reflexivity|].
    destruct (Z.gtb_spec m 0); [|reflexivity].
    specialize (Hord (m - 1) ltac:(lia)).
    replace (m - 1 + 1) with m in Hord by lia.
    destruct (Z.leb_spec (mkqs_compare_tuple_by_range (sel x (m - 1)) (sel x m)
                            depth state) 0); [reflexivity|lia]. }
  rewrite Hdown. apply IH; lia.
Qed.

(** X13: whatever the leading kind, a call without duplicate handler on a
    slice of fewer than 16 tuples that is already in order by the range
    comparator from the current depth leaves every tuple where it is, however
    the call ends: the pre-ordered check returns, or the insertion sort finds
    nothing to exchange. *)
Theorem ordered_small_slice_untouched (fuel : nat) (n depth : Z)
    (seenNull : bool) (w : world) :
  has_handler state = false -> n < 16 ->
  Z.of_nat (length (mem w)) = n ->
  ordered_from depth state (mem w) ->
  match mk_qsort_tuple (S fuel) n depth state seenNull w with
  | Done _ w' | Abort w' => mem w' = mem w /\ trace w' = trace w
  | Diverge => False
  end.
Proof.
  intros Hnone Hsmall Hn Hord.
  enough (H : sat (mk_qsort_tuple (S fuel) n depth state seenNull) w
                (fun _ w' => mem w' = mem w /\ trace w' = trace w)
                (fun w' => mem w' = mem w /\ trace w' = trace w)).
  { unfold sat in H. destruct (mk_qsort_tuple _ _ _ _ _ _); exact H. }
  rewrite mk_qsort_tuple_unfold.
  destruct (Z.leb_spec n 1); [now apply sat_ret|].
  destruct (Z.eqb_spec depth (nKeys state)); [now apply sat_ret|].
  apply sat_bind, sat_check; [|cbn [mem trace]; auto].
  apply sat_bind.
  eapply sat_weaken;
    [apply (pre_ordered_check_spec state n depth); exact Hn| |]; cbn [mem clock trace].
  2:{ intros w1 [Hm Ht]. auto. }
  intros ordered w1 (Hm & Ht & _).
  destruct ordered; [apply sat_ret; auto|].
  destruct (Z.ltb_spec n 16); [|lia]. rewrite Hnone. cbn [andb negb].
  apply sat_modify_mem. cbn [mem trace]. split; [|exact Ht].
  rewrite Hm. unfold small_sort. apply insertion_loop_ordered; [exact Hord|lia|lia].
Qed.

End SmallOrdered.

Lemma ordered_small_slice_untouched_witness :
  has_handler (example_state rows_mixed MKQS_COMP_FUNC_GENERIC None) = false /\
  4 < 16 /\
  Z.of_nat (length mixed_sorted) = 4 /\
  @ordered_from (pg_ops never) 0 (example_state rows_mixed MKQS_COMP_FUNC_GENERIC None)
    mixed_sorted /\
  @mk_qsort_tuple (pg_ops never) 1 4 0
    (example_state rows_mixed MKQS_COMP_FUNC_GENERIC None) false
    (mkWorld mixed_sorted 0 [])
  = Done tt (mkWorld mixed_sorted 2 []) /\
  match @mk_qsort_tuple (pg_ops never) 1 4 0
          (example_state rows_mixed MKQS_COMP_FUNC_GENERIC None) false
          (mkWorld mixed_sorted 0 []) with
  | Done _ w' | Abort w' => mem w' = mixed_sorted /\ trace w' = []
  | Diverge => False
  end.
Proof.
  assert (Hs : 4 < 16) by lia.
  assert (Ho : @ordered_from (pg_ops never) 0
                 (example_state rows_mixed MKQS_COMP_FUNC_GENERIC None) mixed_sorted).
  { intros i Hi. cbn [mixed_sorted length] in Hi.
    assert (Hc : i = 0 \/ i = 1 \/ i = 2) by lia.
    destruct Hc as [->|[->| ->]]; vm_compute; discriminate. }
  split; [reflexivity|]. split; [exact Hs|]. split; [reflexivity|].
  split; [exact Ho|]. split; [vm_compute; reflexivity|].
  exact (@ordered_small_slice_untouched (pg_ops never)
           (example_state rows_mixed MKQS_COMP_FUNC_GENERIC None)
           0 4 0 false (mkWorld mixed_sorted 0 []) eq_refl Hs eq_refl Ho).
Defined.

(** ** What becomes of the handler's work *)

Section HandlerOutput.

Context {ops : Collaborators}.
Variable state : Tuplesortstate.
Hypothesis handler_ok : handler_permutes state.

Lemma output_kept_app_l (l r : list SortTuple) (c : DupCall) :
  output_kept state l c -> output_kept state (l ++ r) c.
Proof.
  intros (pre & post & ->). exists pre, (post ++ r). now rewrite <- !app_assoc.
Qed.

Lemma output_kept_app_r (l r : list SortTuple) (c : DupCall) :
  output_kept state r c -> output_kept state (l ++ r) c.
Proof.
  intros (pre & post & ->). exists (l ++ pre), post. now rewrite <- !app_assoc.
Qed.

Lemma mk_qsort_tuple_keeps_output (fuel : nat) :
  forall (n depth : Z) (seenNull : bool) (w : world),
    Z.of_nat (length (mem w)) = n ->
    (Z.to_nat n + Z.to_nat (nKeys state - depth) < fuel)%nat ->
    sat (mk_qsort_tuple fuel n depth state seenNull) w
        (fun _ w' => exists new, trace w' = trace w ++ new /\
                                 Forall (output_kept state (mem w')) new)
        (fun w' => exists new, trace w' = trace w ++ new /\
                               Forall (output_kept state (mem w')) new).
Proof.
  induction fuel as [|fuel IH]; intros n depth seenNull w Hn Hfuel; [lia|].
  assert (Hnil : forall w', trace w' = trace w ->
            exists new, trace w' = trace w ++ new /\
                        Forall (output_kept state (mem w')) new).
  { intros w' Ht. exists []. now rewrite app_nil_r. }
  rewrite mk_qsort_tuple_unfold.
  destruct (Z.leb_spec n 1) as [|Hn2]; [apply sat_ret; now apply Hnil|].
  destruct (Z.eqb_spec depth (nKeys state)) as [|Hd]; [apply sat_ret; now apply Hnil|].
  apply sat_bind, sat_check; [|now apply Hnil]. cbn [mem clock trace].
  apply sat_bind.
  eapply sat_weaken;
    [apply (pre_ordered_check_spec state n depth); exact Hn| |]; cbn [mem clock trace].
  2:{ intros w1 [_ Ht]. now apply Hnil. }
  intros ordered w1 (Hm & Ht & _).
  destruct ordered; [apply sat_ret; now apply Hnil|].
  destruct ((n <? 16) && negb (has_handler state)).
  { apply sat_modify_mem. now apply Hnil. }
  apply sat_bind.
  eapply sat_weaken;
    [apply (partition_spec state n depth); [lia|rewrite Hm; exact Hn]| |]; cbn beta.
  2:{ intros w2 [_ Ht2]. apply Hnil. congruence. }
  intros c w2 [Hlay [Hp Ht2]]. rewrite Hm in *.
  destruct (layout_parts _ _ _ _ _ _ Hlay) as (l & e & g & Hx & Hl & He & Hg & _).
  destruct Hlay as (Hlen & Hsz & _).
  destruct w2 as [x2 clk2 tr2]. cbn [mem trace] in *. subst x2.
  rewrite Ht in Ht2.
  apply sat_recurse_parts; try lia.
  eapply sat_weaken;
    [apply sat_and;
       [apply (IH _ depth seenNull); cbn [mem]; lia
       |apply (mk_qsort_tuple_permutes state handler_ok fuel _ depth seenNull);
        cbn [mem]; lia]
    | |]; cbn [mem clock trace].
  2:{ intros w3 [(new & Hnew & Hgood) _]. exists new. split; [congruence|].
      eapply Forall_impl; [|exact Hgood]. intros c0. apply output_kept_app_l. }
  intros [] w3 [(newl & Hnewl & Hgl) Hp3].
  split; [symmetry; now apply Permutation_length|].
  assert (Hmid :
    sat (on_equal_part (mk_qsort_tuple fuel) (equal_size n c) depth state
           (seenNull || check_datum_null (sel e 0) depth state))
        (mkWorld e (clock w3) (trace w3))
        (fun _ w4 => length (mem w4) = length e /\
                     exists new, trace w4 = trace w3 ++ new /\
                                 Forall (output_kept state (mem w4)) new)
        (fun w4 => exists new, trace w4 = trace w3 ++ new /\
                               Forall (output_kept state (mem w4)) new)).
  { unfold on_equal_part.
    destruct (Z.ltb_spec depth (nKeys state - 1)).
    - eapply sat_weaken;
        [apply sat_and;
           [apply IH; cbn [mem]; lia
           |apply (mk_qsort_tuple_permutes state handler_ok fuel);
            cbn [mem]; lia]
        | |]; cbn [mem clock trace].
      + intros [] w4 [Hg4 Hp4]. split; [symmetry; now apply Permutation_length|exact Hg4].
      + intros w4 [Hg4 _]. exact Hg4.
    - destruct (mkqsHandleDupFunc state) as [h|] eqn:Eh.
      2:{ apply sat_ret. split; [reflexivity|]. exists []. now rewrite app_nil_r. }
      destruct (equal_size n c >? 1).
      2:{ apply sat_ret. split; [reflexivity|]. exists []. now rewrite app_nil_r. }
      apply sat_call_handler. cbn [mem trace]. intros w4 ->. cbn [mem trace].
      rewrite slice_whole, splice_whole by lia.
      set (flag := seenNull || check_datum_null (sel e 0) depth state).
      assert (Hcall : exists new,
                trace w3 ++ [mkDupCall e (equal_size n c) flag depth]
                = trace w3 ++ new /\
                Forall (output_kept state (fst (h e (equal_size n c) flag))) new).
      { eexists. split; [reflexivity|]. constructor; [|constructor].
        exists [], []. unfold handler_output. rewrite Eh.
        cbn [dup_slice dup_count dup_seenNull app]. now rewrite app_nil_r. }
      split; [split|]; try exact Hcall.
      symmetry. apply Permutation_length. now apply handler_ok. }
  eapply sat_weaken; [exact Hmid| |]; cbn [mem clock trace].
  2:{ intros w4 (newe & Hnewe & Hge). exists (newl ++ newe).
      split; [rewrite Hnewe, Hnewl, Ht2; now rewrite app_assoc|].
      apply Forall_app. split.
      - eapply Forall_impl; [|exact Hgl]. intros c0. apply output_kept_app_l.
      - eapply Forall_impl; [|exact Hge]. intros c0 Hc0.
        apply output_kept_app_r. now apply output_kept_app_l. }
  intros [] w4 (Hlen4 & newe & Hnewe & Hge). split; [exact Hlen4|].
  assert (Hall : forall w5,
            (exists new, trace w5 = trace w4 ++ new /\
                         Forall (output_kept state (mem w5)) new) ->
            exists new, trace w5 = trace w ++ new /\
                        Forall (output_kept state (mem w3 ++ mem w4 ++ mem w5)) new).
  { intros w5 (newg & Hnewg & Hgg). exists (newl ++ newe ++ newg).
    split; [rewrite Hnewg, Hnewe, Hnewl, Ht2; now rewrite !app_assoc|].
    repeat (apply Forall_app; split).
    - eapply Forall_impl; [|exact Hgl]. intros c0. apply output_kept_app_l.
    - eapply Forall_impl; [|exact Hge]. intros c0 Hc0.
      apply output_kept_app_r. now apply output_kept_app_l.
    - eapply Forall_impl; [|exact Hgg]. intros c0 Hc0.
      now do 2 apply output_kept_app_r. }
  eapply sat_weaken;
    [apply (IH _ depth seenNull); cbn [mem]; lia| |]; cbn [mem clock trace].
  - intros [] w5. apply Hall.
  - intros w5. apply Hall.
Qed.

(** X14: the sort does not undo the duplicate handler's work: however the
    sort ends, the array then holds, for every handler call that was made,
    the tuples of that run in one block and in the order in which the
    handler left them. *)
Theorem handler_output_is_kept (x : list SortTuple) :
  match sort_memtuples state x with
  | Done _ w' | Abort w' =>
      forall c, In c (trace w') -> output_kept state (mem w') c
  | Diverge => False
  end.
Proof.
  pose proof (mk_qsort_tuple_keeps_output
                (enough_fuel (Z.of_nat (length x)) 0 state)
                (Z.of_nat (length x)) 0 false (mkWorld x 0 []) eq_refl
                ltac:(unfold enough_fuel; lia)) as H.
  unfold sat in H. unfold sort_memtuples. cbn [trace app] in H.
  destruct (mk_qsort_tuple _ _ _ _ _ _) as [[] w'|w'|]; [| |exact H];
    destruct H as (new & -> & Hg); now apply Forall_forall.
Qed.

End HandlerOutput.

Lemma reverse_handler_permutes (heap : list Row) (kind : MkqsCompFuncType) :
  handler_permutes (example_state heap kind (Some reverse_handler)).
Proof.
  intros h l n b Eh. cbn in Eh. injection Eh as <-. cbn [reverse_handler fst].
  apply Permutation_rev.
Qed.

Lemma handler_output_is_kept_witness :
  handler_permutes (example_state rows_mixed MKQS_COMP_FUNC_GENERIC (Some reverse_handler)) /\
  @sort_memtuples (pg_ops never)
    (example_state rows_mixed MKQS_COMP_FUNC_GENERIC (Some reverse_handler))
    (memtuples rows_mixed)
  = Done tt (mkWorld [mkSortTuple 3 1 false; mkSortTuple 1 1 false;
                      mkSortTuple 2 2 false; mkSortTuple 0 2 false] 11
               [mkDupCall [mkSortTuple 0 2 false; mkSortTuple 2 2 false] 2 false 1]) /\
  match @sort_memtuples (pg_ops never)
          (example_state rows_mixed MKQS_COMP_FUNC_GENERIC (Some reverse_handler))
          (memtuples rows_mixed) with
  | Done _ w' | Abort w' =>
      forall c, In c (trace w') ->
        output_kept
          (example_state rows_mixed MKQS_COMP_FUNC_GENERIC (Some reverse_handler))
          (mem w') c
  | Diverge => False
  end.
Proof.
  assert (Hh : handler_permutes
                 (example_state rows_mixed MKQS_COMP_FUNC_GENERIC (Some reverse_handler)))
    by apply reverse_handler_permutes.
  split; [exact Hh|]. split; [vm_compute; reflexivity|].
  exact (@handler_output_is_kept (pg_ops never) _ Hh (memtuples rows_mixed)).
Defined.
